(** * Five Crowns scorer: the game engine and the statistics engine

    A shallow embedding of [js/game.js] and [js/statistics.js].

    Conventions of the embedding.
    - A score, a total, a percentage and an average are numbers of the
      language: binary64 values, [float], with the arithmetic, the
      comparisons, the infinities, the two zeros and the [NaN] of that format.
      What the program uses as an index, a length, a round or a clock reading
      is an integer [Z] or [nat].
    - A JavaScript array that the program may leave sparse (a row of the score
      matrix) is a [list (option A)], [None] being an empty slot.  Arrays that
      are only built by [push], [splice], [map], spread and literals are plain
      lists.
    - A method that mutates [this] is a function of type [M S A]: it takes the
      object's state and returns a result, a value or a thrown exception,
      together with the state it leaves behind.  A thrown exception does not
      undo the writes made before it. *)

From Stdlib Require Import ZArith Ascii String Floats Uint63.
From stdpp Require Import base tactics option list strings sorting.

Local Open Scope Z_scope.

(** ** Exceptions and the state monad *)

(** [throw new Error(msg)] carries its message; the constructor records the
    class of section 7 of the specification the message belongs to.
    [TypeError] is what the runtime throws on reading a property of
    [undefined] or [null], [SyntaxError] what [JSON.parse] throws. *)
Inductive Exn :=
  | ValidationError (msg : string)
  | StateError (msg : string)
  | TypeError
  | SyntaxError.

Inductive Result (A : Type) :=
  | Ok (a : A)
  | Throw (e : Exn).
Arguments Ok {A} a.
Arguments Throw {A} e.

Definition M (S A : Type) : Type := S → Result A * S.

Section Monad.
Context {S : Type}.

Definition ret {A} (a : A) : M S A := λ s, (Ok a, s).

Definition bind {A B} (c : M S A) (k : A → M S B) : M S B :=
  λ s, match c s with
       | (Ok a, s') => k a s'
       | (Throw e, s') => (Throw e, s')
       end.

Definition throw {A} (e : Exn) : M S A := λ s, (Throw e, s).

Definition get : M S S := λ s, (Ok s, s).

Definition modify (f : S → S) : M S unit := λ s, (Ok tt, f s).

(** [try { body } catch (error) { handler }] *)
Definition try_catch {A} (body : M S A) (handler : Exn → M S A) : M S A :=
  λ s, match body s with
       | (Ok a, s') => (Ok a, s')
       | (Throw e, s') => handler e s'
       end.

(** A method that reads [this] without writing it. *)
Definition lift {A} (f : S → Result A) : M S A := λ s, (f s, s).
End Monad.

Declare Scope js_scope.
Delimit Scope js_scope with js.
Bind Scope js_scope with M.

Notation "'let!' x ':=' c 'in' k" := (bind c (λ x, k))
  (at level 10, x name, c at level 100, k at level 200) : js_scope.
Notation "c ;; k" := (bind c (λ _, k))
  (at level 100, k at level 200, right associativity) : js_scope.

Local Open Scope js_scope.

(** [array.forEach((x, index) => ...)] on a dense array. *)
Fixpoint forEach_from {S A} (f : A → nat → M S unit) (l : list A) (index : nat)
  : M S unit :=
  match l with
  | [] => ret tt
  | x :: l' => f x index ;; forEach_from f l' (Datatypes.S index)
  end.

Definition forEach {S A} (f : A → nat → M S unit) (l : list A) : M S unit :=
  forEach_from f l 0.

(** The same for results without state: [bindR] is sequencing of two
    computations that may throw. *)
Definition bindR {A B} (r : Result A) (k : A → Result B) : Result B :=
  match r with
  | Ok a => k a
  | Throw e => Throw e
  end.

(** [array.map(f)] with a callback that may throw. *)
Fixpoint mapR {A B} (f : A → Result B) (l : list A) : Result (list B) :=
  match l with
  | [] => Ok []
  | x :: l' => bindR (f x) (λ y, bindR (mapR f l') (λ ys, Ok (y :: ys)))
  end.

(** ** JavaScript arrays and numbers *)

(** A cell of the score matrix as it is written: [null] or a number, which
    may be an integer, a fraction, an infinity or [NaN]. *)
Inductive Score :=
  | Null
  | Num (x : float).
Arguments Num x%_float.

(** [score !== null] *)
#[global] Instance Score_null_dec (score : Score) : Decision (score = Null).
Proof. destruct score; [left|right]; done. Defined.

Section JSArray.
Context {A : Type}.

(** [a[i]]: [undefined], here [None], at an empty slot, past the end and at
    a negative index. *)
Definition array_get (a : list (option A)) (i : Z) : option A :=
  if i <? 0 then None else mjoin (a !! Z.to_nat i).

(** [a[i] = v].  Past the end the array grows, the slots in between stay
    empty.  At a negative index the value lands in a property that is not
    an element: no element changes. *)
Definition array_set (a : list (option A)) (i : Z) (v : A) : list (option A) :=
  if i <? 0 then a
  else if (Z.to_nat i <? length a)%nat then <[Z.to_nat i := Some v]> a
  else a ++ replicate (Z.to_nat i - length a)%nat None ++ [Some v].

(** The elements [reduce], [filter] and [forEach] visit: empty slots are
    skipped. *)
Definition present (a : list (option A)) : list A := omap id a.

(** [a.reduce(f, init)] *)
Definition reduce {B} (f : B → A → B) (init : B) (a : list (option A)) : B :=
  foldl f init (present a).
End JSArray.

(** The two zeros, which [===], [<] and [>] do not tell apart. *)
Definition is_neg_zero (x : float) : bool :=
  match Prim2SF x with
  | S754_zero true => true
  | _ => false
  end.

Definition is_pos_zero (x : float) : bool :=
  match Prim2SF x with
  | S754_zero false => true
  | _ => false
  end.

(** [Number.isFinite(x)]: neither [NaN] nor an infinity. *)
Definition isFinite (x : float) : bool :=
  match Prim2SF x with
  | S754_zero _ | S754_finite _ _ _ => true
  | _ => false
  end.

(** [Math.min(...l)]: [NaN] when an argument is [NaN]; otherwise the loop of
    the language definition, which starts from [+Infinity], takes an
    argument that is less than the lowest so far, and takes [-0] over
    [+0]. *)
Definition Math_min (l : list float) : float :=
  if existsb PrimFloat.is_nan l then nan
  else foldl (λ lowest number,
                if is_neg_zero number && is_pos_zero lowest then number
                else if (number <? lowest)%float then number
                else lowest) infinity l.

(** [Math.max(...l)]: the same from [-Infinity], with [+0] over [-0]. *)
Definition Math_max (l : list float) : float :=
  if existsb PrimFloat.is_nan l then nan
  else foldl (λ highest number,
                if is_pos_zero number && is_neg_zero highest then number
                else if (highest <? number)%float then number
                else highest) neg_infinity l.

(** [l.indexOf(x)]: the first position of [x], [-1] when there is none. *)
Fixpoint indexOf_from {A} `{EqDecision A} (l : list A) (x : A) (i : Z) : Z :=
  match l with
  | [] => -1
  | y :: l' => if decide (y = x) then i else indexOf_from l' x (i + 1)
  end.

Definition indexOf {A} `{EqDecision A} (l : list A) (x : A) : Z :=
  indexOf_from l x 0.

(** [l.indexOf(x)] on numbers: the comparison is [===], under which [NaN]
    equals nothing, itself included, and the two zeros are equal. *)
Fixpoint indexOf_number_from (l : list float) (x : float) (i : Z) : Z :=
  match l with
  | [] => -1
  | y :: l' => if (y =? x)%float then i else indexOf_number_from l' x (i + 1)
  end.

Definition indexOf_number (l : list float) (x : float) : Z :=
  indexOf_number_from l x 0.

(** [l[i]] on a dense array. *)
Definition at_index {A} (l : list A) (i : Z) : option A :=
  if i <? 0 then None else l !! Z.to_nat i.

(** [l.includes(x)] *)
Definition includes {A} `{EqDecision A} (l : list A) (x : A) : bool :=
  bool_decide (x ∈ l).

(** [s.trim()], for strings whose code units are below 256: the white space
    and line terminators of that range are stripped from both ends. *)
Definition isWhiteSpace (c : ascii) : bool :=
  match Ascii.N_of_ascii c with
  | 9%N | 10%N | 11%N | 12%N | 13%N | 32%N | 160%N => true
  | _ => false
  end.

Fixpoint trimStart_list (l : list ascii) : list ascii :=
  match l with
  | [] => []
  | c :: l' => if isWhiteSpace c then trimStart_list l' else l
  end.

Definition trim (s : string) : string :=
  string_of_list_ascii
    (rev (trimStart_list (rev (trimStart_list (list_ascii_of_string s))))).

(** ** game.js *)

Module Game.

Record Game := mkGame {
  players : list string;
  scores : list (list (option Score));
  currentRound : Z
}.

(** [this.maxRounds] and [this.roundCards] are set by the constructor and
    never written again. *)
Definition maxRounds : Z := 11.
Definition roundCards : list Z := [3; 4; 5; 6; 7; 8; 9; 10; 11; 12; 13].

Record Winner := mkWinner {
  name : option string;
  score : float;
  index : Z
}.

Definition set_players (ps : list string) (g : Game) : Game :=
  mkGame ps (scores g) (currentRound g).
Definition set_scores (sc : list (list (option Score))) (g : Game) : Game :=
  mkGame (players g) sc (currentRound g).
Definition set_currentRound (r : Z) (g : Game) : Game :=
  mkGame (players g) (scores g) r.

(** [new Game()] *)
Definition constructor : Game := mkGame [] [] 1.

(** [Storage.save] and [Storage.clear] catch what [localStorage] throws and
    return a flag that the game ignores; the stored copy is a string, so it
    shares nothing with the game object. *)
Definition saveState : M Game unit := ret tt.
Definition Storage_clear : M Game unit := ret tt.

Definition isGameComplete (g : Game) : bool := maxRounds <? currentRound g.

Definition startNewGame (playerNames : list string) : M Game unit :=
  if (length playerNames <? 2)%nat
  then throw (ValidationError "At least 2 players required")
  else
    modify (set_players playerNames) ;;
    modify (λ g, set_scores
                   (map (λ _, replicate (Z.to_nat maxRounds) (Some Null))
                        (players g)) g) ;;
    modify (set_currentRound 1) ;;
    saveState.

Definition addPlayer (name : string) : M Game bool :=
  let trimmedName := trim name in
  if decide (trimmedName = "")
  then throw (ValidationError "Player name cannot be empty")
  else
    let! g := get in
    if includes (players g) trimmedName
    then throw (ValidationError "Player already exists")
    else
      modify (λ g, set_players (players g ++ [trimmedName]) g) ;;
      ret true.

Definition removePlayer (index : Z) : M Game unit :=
  let! g := get in
  if (0 <=? index) && (index <? Z.of_nat (length (players g)))
  then modify (set_players (delete (Z.to_nat index) (players g)))
  else ret tt.

(** [this.scores[index][this.currentRound - 1] = score]: reading
    [this.scores[index]] comes first, and the write to an absent row is a
    [TypeError]. *)
Definition writeScore (score : Score) (index : nat) : M Game unit :=
  let! g := get in
  match scores g !! index with
  | None => throw TypeError
  | Some row =>
      modify (set_scores
                (<[index := array_set row (currentRound g - 1) score]>
                   (scores g)))
  end.

Definition submitRound (roundScores : list Score) : M Game bool :=
  let! g := get in
  if maxRounds <? currentRound g
  then throw (StateError "Game is already complete")
  else if negb (length roundScores =? length (players g))%nat
  then throw (ValidationError "Score count must match player count")
  else
    forEach (λ score index, writeScore score index) roundScores ;;
    modify (λ g, set_currentRound (currentRound g + 1) g) ;;
    saveState ;;
    lift (λ g, Ok (isGameComplete g)).

Definition undoLastRound : M Game unit :=
  let! g := get in
  if decide (currentRound g = 1)
  then throw (StateError "No rounds to undo")
  else
    modify (λ g, set_currentRound (currentRound g - 1) g) ;;
    (let! g := get in
     forEach (λ _ index, writeScore Null index) (players g)) ;;
    saveState.

Definition getCurrentRoundInfo (g : Game) : Z * option Z * Z :=
  (currentRound g, at_index roundCards (currentRound g - 1), maxRounds).

(** [row.reduce((sum, score) => sum + (score !== null ? score : 0), 0)]:
    the additions are those of binary64, made from left to right. *)
Definition rowTotal (row : list (option Score)) : float :=
  reduce (λ sum score, (sum + match score with
                              | Null => 0
                              | Num x => x
                              end)%float) 0%float row.

Definition getPlayerTotal (playerIndex : nat) (g : Game) : Result float :=
  match scores g !! playerIndex with
  | None => Throw TypeError
  | Some row => Ok (rowTotal row)
  end.

Definition getAllTotals (g : Game) : Result (list float) :=
  mapR (λ index, getPlayerTotal index g) (seq 0 (length (players g))).

Definition getWinner (g : Game) : Result (option Winner) :=
  if negb (isGameComplete g) then Ok None
  else
    bindR (getAllTotals g) (λ totals,
      let minScore := Math_min totals in
      let winnerIndex := indexOf_number totals minScore in
      Ok (Some {| name := at_index (players g) winnerIndex;
                  score := minScore;
                  index := winnerIndex |})).

(** [this.scores[playerIndex][round - 1]] *)
Definition getScore (playerIndex : nat) (round : Z) (g : Game)
  : Result (option Score) :=
  match scores g !! playerIndex with
  | None => Throw TypeError
  | Some row => Ok (array_get row (round - 1))
  end.

Definition reset : M Game unit :=
  modify (λ _, mkGame [] [] 1) ;; Storage_clear.

(** [exportState] hands out the three fields and the two constants. *)
Definition exportState (g : Game) : Game := g.

End Game.

(** ** Numbers in binary64 *)

(** Conversion of a length or a count to the number the program computes
    with.  It is exact up to [2^53], where JavaScript integers are exact as
    well. *)
Definition number_of_Z (z : Z) : float :=
  if z <? 0 then PrimFloat.opp (PrimFloat.of_uint63 (Uint63.of_Z (- z)))
  else PrimFloat.of_uint63 (Uint63.of_Z z).

Definition number_of_nat (n : nat) : float := number_of_Z (Z.of_nat n).

(** What [x.toFixed(1)] prints: a numeral with one digit after the point,
    given by its sign and its value in tenths, or, for [NaN], the infinities
    and magnitudes from [10^21] on, the plain printing of [x]. *)
Inductive Fixed1 :=
  | Tenths (negative : bool) (n : Z)
  | Plain (x : float).

(** [toFixed] picks the integer [n] with [n / 10] closest to the exact value
    of the magnitude of [x], the larger one of two. *)
Definition toFixed1 (x : float) : Fixed1 :=
  match Prim2SF x with
  | S754_zero _ => Tenths false 0
  | S754_finite s m e =>
      let m := Z.pos m in
      if 0 <=? e then
        if 10 ^ 21 <=? m * 2 ^ e then Plain x
        else Tenths s (10 * m * 2 ^ e)
      else Tenths s ((2 * 10 * m + 2 ^ (- e)) / (2 * 2 ^ (- e)))
  | _ => Plain x
  end.

(** [parseFloat] of such a printing.  The quotient is the binary64 number
    nearest to [n / 10] as long as [n] is below [2^53]. *)
Definition parseFloat (d : Fixed1) : float :=
  match d with
  | Tenths false n => PrimFloat.div (number_of_Z n) 10
  | Tenths true n => PrimFloat.opp (PrimFloat.div (number_of_Z n) 10)
  | Plain x => x
  end.

(** [array.sort(compare)].  The sort of the language is stable, and under a
    comparator that is a total preorder every stable sort returns the same
    array; this one inserts from the right.  [compare a b > 0] puts [a]
    after [b]. *)
Fixpoint sort_insert {A} (compare : A → A → Z) (x : A) (l : list A) : list A :=
  match l with
  | [] => [x]
  | y :: l' =>
      if 0 <? compare x y then y :: sort_insert compare x l' else x :: l
  end.

Definition sort {A} (compare : A → A → Z) (l : list A) : list A :=
  foldr (sort_insert compare) [] l.

(** [array.filter(f)] with a callback that may throw. *)
Fixpoint filterR {A} (f : A → Result bool) (l : list A) : Result (list A) :=
  match l with
  | [] => Ok []
  | x :: l' =>
      bindR (f x) (λ keep,
        bindR (filterR f l') (λ xs, Ok (if keep then x :: xs else xs)))
  end.

(** [array.slice(0, end)]: a negative [end] counts from the end of the
    array, and the bounds are clamped to the array. *)
Definition slice0 {A} (l : list A) (end_ : Z) : list A :=
  let len := Z.of_nat (length l) in
  let final := if end_ <? 0 then Z.max (len + end_) 0 else Z.min end_ len in
  take (Z.to_nat final) l.

(** [set.add(x)] on a [Set] of strings, kept as the array of its elements
    in the order of their insertion, which is the order [Array.from] gives. *)
Definition Set_add (set : list string) (x : string) : list string :=
  if includes set x then set else set ++ [x].

(** The comparator of [array.sort()] without an argument, on strings: the
    order of the code units. *)
Definition defaultCompare (a b : string) : Z :=
  match String.compare a b with
  | Lt => -1
  | Eq => 0
  | Gt => 1
  end.

(** [array.reduce(f)] without an initial value, with a callback that may
    throw: on an empty array it throws [TypeError], on others it starts from
    the first element. *)
Definition reduce1R {A} (f : A → A → Result A) (l : list A) : Result A :=
  match l with
  | [] => Throw TypeError
  | x :: l' => foldl (λ acc y, bindR acc (λ a, f a y)) (Ok x) l'
  end.

(** ** statistics.js *)

Module Statistics.

Definition MAX_HISTORY : nat := 50.

(** A record of the history.  Records come from [saveGame] and, through
    [importHistory], from files; [players], [scores] and [winner] are the
    properties a record of a file may lack, [None] standing for a property
    that is absent or [null].  [id] and [timestamp] are numbers. *)
Record GameRecord := mkGameRecord {
  id : Z;
  date : string;
  players : option (list string);
  scores : option (list (list (option Score)));
  winner : option Game.Winner;
  totalRounds : nat;
  timestamp : Z
}.

Abbreviation History := (list GameRecord).

(** The readings of the system clock one call of [saveGame] makes:
    [Date.now()] for [id], [new Date().toISOString()], and [Date.now()] for
    [timestamp]. *)
Record Clock := mkClock {
  now_id : Z;
  now_iso : string;
  now_timestamp : Z
}.

Record PlayerStats := mkPlayerStats {
  playerName : string;
  totalGames : nat;
  wins : nat;
  losses : Z;
  winRate : float;
  avgScore : float;
  bestScore : float;
  worstScore : float
}.

(** [localStorage.setItem] inside [try]/[catch]: the history in memory is
    not touched. *)
Definition saveHistory : M History unit := ret tt.

Definition determineWinner (gameState : Game.Game) : Game.Winner :=
  let totals :=
    map (λ playerScores,
           reduce (λ sum score, (sum + match score with
                                       | Null => 0
                                       | Num x => x
                                       end)%float) 0%float playerScores)
        (Game.scores gameState) in
  let minScore := Math_min totals in
  let winnerIndex := indexOf_number totals minScore in
  {| Game.name := at_index (Game.players gameState) winnerIndex;
     Game.score := minScore;
     Game.index := winnerIndex |}.

Definition saveGame (clock : Clock) (gameState : Game.Game)
  : M History GameRecord :=
  match Game.scores gameState !! 0%nat with
  | None => throw TypeError
  | Some row0 =>
      let gameRecord :=
        {| id := now_id clock;
           date := now_iso clock;
           players := Some (Game.players gameState);
           scores := Some (Game.scores gameState);
           winner := Some (determineWinner gameState);
           totalRounds :=
             length (filter (λ s, s ≠ Null) (present row0));
           timestamp := now_timestamp clock |} in
      modify (λ history, gameRecord :: history) ;;
      (let! history := get in
       if (MAX_HISTORY <? length history)%nat
       then modify (take MAX_HISTORY)
       else ret tt) ;;
      saveHistory ;;
      ret gameRecord
  end.

Definition getHistory : M History History := get.

Definition getPlayerStats (playerName : string) (history : History)
  : Result (option PlayerStats) :=
  bindR (filterR (λ game, match players game with
                          | None => Throw TypeError
                          | Some ps => Ok (includes ps playerName)
                          end) history) (λ playerGames,
  if (length playerGames =? 0)%nat then Ok None
  else
    bindR (filterR (λ game, match winner game with
                            | None => Throw TypeError
                            | Some w =>
                                Ok (bool_decide
                                      (Game.name w = Some playerName))
                            end) playerGames) (λ won,
    let wins := length won in
    let totalGames := length playerGames in
    let winRate :=
      toFixed1 (PrimFloat.mul
                  (PrimFloat.div (number_of_nat wins)
                                 (number_of_nat totalGames)) 100) in
    bindR (mapR (λ game,
                   match players game, scores game with
                   | Some ps, Some sc =>
                       let playerIndex := indexOf ps playerName in
                       match at_index sc playerIndex with
                       | None => Throw TypeError
                       | Some row =>
                           Ok (reduce (λ sum score,
                                         (sum + match score with
                                                | Null => 0
                                                | Num x => x
                                                end)%float) 0%float row)
                       end
                   | _, _ => Throw TypeError
                   end) playerGames) (λ allScores,
    let avgScore :=
      toFixed1 (PrimFloat.div (foldl PrimFloat.add 0%float allScores)
                              (number_of_nat (length allScores))) in
    let bestScore := Math_min allScores in
    let worstScore := Math_max allScores in
    Ok (Some {| playerName := playerName;
                totalGames := totalGames;
                wins := wins;
                losses := Z.of_nat totalGames - Z.of_nat wins;
                winRate := parseFloat winRate;
                avgScore := parseFloat avgScore;
                bestScore := bestScore;
                worstScore := worstScore |})))).

Definition deleteGame (gameId : Z) : M History unit :=
  modify (filter (λ game, id game ≠ gameId)) ;;
  saveHistory.

Definition clearHistory : M History unit :=
  modify (λ _, []) ;;
  saveHistory.

(** [getRecentGames(limit = 10)]: [None] is the call without argument. *)
Definition getRecentGames (limit : option Z) (history : History) : History :=
  slice0 history (default 10 limit).

Definition getAllPlayers (history : History) : Result (list string) :=
  match forEach (λ game _,
                   match players game with
                   | None => throw TypeError
                   | Some ps =>
                       forEach (λ player _, modify (λ set, Set_add set player))
                               ps
                   end) history []
  with
  | (Ok _, set) => Ok (sort defaultCompare set)
  | (Throw e, _) => Throw e
  end.

Module Overall.

Record OverallStats := mkOverallStats {
  totalGames : nat;
  uniquePlayers : nat;
  bestPlayer : string;
  bestWinRate : float;
  avgGameScore : float
}.

End Overall.

Definition getOverallStats (history : History)
  : Result (option Overall.OverallStats) :=
  if (length history =? 0)%nat then Ok None
  else
    bindR (getAllPlayers history) (λ allPlayers,
    bindR (mapR (λ name, getPlayerStats name history) allPlayers)
          (λ playerStats,
    bindR (reduce1R (λ best current,
                       match current, best with
                       | Some c, Some b =>
                           Ok (if PrimFloat.ltb (winRate b) (winRate c)
                               then current else best)
                       | _, _ => Throw TypeError
                       end) playerStats) (λ bestPlayer,
    bindR (mapR (λ game,
                   match scores game, players game with
                   | Some sc, Some ps =>
                       Ok (PrimFloat.div
                             (foldl (λ total playerScores,
                                       (total
                                        + reduce (λ sum score,
                                                    sum + match score with
                                                          | Null => 0
                                                          | Num x => x
                                                          end)
                                                 0 playerScores)%float)
                                    0%float sc)
                             (number_of_nat (length ps)))
                   | _, _ => Throw TypeError
                   end) history) (λ avgGameScores,
    let overallAvgScore :=
      toFixed1 (PrimFloat.div (foldl PrimFloat.add 0%float avgGameScores)
                              (number_of_nat (length avgGameScores))) in
    match bestPlayer with
    | None => Throw TypeError
    | Some best =>
        Ok (Some {| Overall.totalGames := length history;
                    Overall.uniquePlayers := length allPlayers;
                    Overall.bestPlayer := playerName best;
                    Overall.bestWinRate := winRate best;
                    Overall.avgGameScore := parseFloat overallAvgScore |})
    end)))).

(** An element of a parsed array: [null], an object, or anything else (a
    number, a string, a boolean, an array), on which the three properties
    read as [undefined]. *)
Inductive Item :=
  | ItemNull
  | ItemObject (game : GameRecord)
  | ItemOther.

(** A parsed document as [importHistory] looks at it. *)
Inductive Parsed :=
  | ParsedArray (items : list Item)
  | ParsedOther.

(** A property that is there holds an array or an object, which counts as
    true; [undefined] and [null] count as false. *)
Definition truthy {A} (property : option A) : bool :=
  match property with
  | Some _ => true
  | None => false
  end.

Definition validateItem (item : Item) : M History unit :=
  match item with
  | ItemNull => throw TypeError
  | ItemObject game =>
      if negb (truthy (players game))
         || negb (truthy (scores game))
         || negb (truthy (winner game))
      then throw (ValidationError "Invalid game record")
      else ret tt
  | ItemOther => throw (ValidationError "Invalid game record")
  end.

Definition objects (items : list Item) : list GameRecord :=
  omap (λ item, match item with
                | ItemObject game => Some game
                | _ => None
                end) items.

Section Importing.

(** [JSON.parse]: [None] when it throws. *)
Variable JSON_parse : string → option Parsed.

Definition importHistory (jsonData : string) : M History bool :=
  try_catch
    (match JSON_parse jsonData with
     | None => throw SyntaxError
     | Some ParsedOther => throw (ValidationError "Invalid history format")
     | Some (ParsedArray imported) =>
         forEach (λ game _, validateItem game) imported ;;
         let! history := get in
         let existingIds := map id history in
         let newGames :=
           filter (λ g, negb (includes existingIds (id g)))
                  (objects imported) in
         modify (λ history,
                   take MAX_HISTORY
                     (sort (λ a b, timestamp b - timestamp a)
                           (history ++ newGames))) ;;
         saveHistory ;;
         ret true
     end)
    (λ error, ret false).

End Importing.

End Statistics.

(** ** Vocabulary of the statements *)

(** The order of the numbers that are not [NaN], read off their
    representation: the class (negative infinity, negative, zero, positive,
    positive infinity), then exponent and mantissa, both negated for the
    negative numbers.  The two zeros have one rank. *)
Module NumberOrder.

Definition rank (f : spec_float) : Z * Z * Z :=
  match f with
  | S754_zero _ => (0, 0, 0)
  | S754_infinity false => (2, 0, 0)
  | S754_infinity true => (-2, 0, 0)
  | S754_nan => (0, 0, 0)
  | S754_finite false m e => (1, e, Z.pos m)
  | S754_finite true m e => (-1, - e, Z.neg m)
  end.

Definition below (a b : Z * Z * Z) : Prop :=
  a.1.1 < b.1.1
  ∨ (a.1.1 = b.1.1 ∧ (a.1.2 < b.1.2 ∨ (a.1.2 = b.1.2 ∧ a.2 < b.2))).

End NumberOrder.

Module GameSpec.
Import Game.

(** The score matrix after the column [col] of its first rows received the
    values [vals], row by row: what the loops of [submitRound] and
    [undoLastRound] leave behind. *)
Fixpoint setColumn (col : Z) (vals : list Score)
  (rows : list (list (option Score))) : list (list (option Score)) :=
  match vals, rows with
  | v :: vals', row :: rows' => array_set row col v :: setColumn col vals' rows'
  | _, _ => rows
  end.

(** The public operations that change a game. *)
Inductive Op :=
  | AddPlayer (name : string)
  | RemovePlayer (index : Z)
  | StartNewGame (playerNames : list string)
  | SubmitRound (roundScores : list Score)
  | UndoLastRound
  | Reset.

(** The state an operation leaves, whether it returns or throws. *)
Definition step (op : Op) (g : Game) : Game :=
  match op with
  | AddPlayer name => snd (addPlayer name g)
  | RemovePlayer index => snd (removePlayer index g)
  | StartNewGame playerNames => snd (startNewGame playerNames g)
  | SubmitRound roundScores => snd (submitRound roundScores g)
  | UndoLastRound => snd (undoLastRound g)
  | Reset => snd (reset g)
  end.

(** The states that the operations allowed by [allowed] reach from a new
    game. *)
Inductive reachable_by (allowed : Op → Prop) : Game → Prop :=
  | reachable_new : reachable_by allowed constructor
  | reachable_step op g :
      allowed op → reachable_by allowed g → reachable_by allowed (step op g).

Definition reachable : Game → Prop := reachable_by (λ _, True).

Definition edits_roster (op : Op) : Prop :=
  match op with
  | AddPlayer _ | RemovePlayer _ => True
  | _ => False
  end.

(** The invariant of section 3 of the specification. *)
Definition rows_match_players (g : Game) : Prop :=
  length (scores g) = length (players g).

Definition rows_have_maxRounds_cells (g : Game) : Prop :=
  Forall (λ row, length row = Z.to_nat maxRounds) (scores g).

Definition no_submission_once_complete (g : Game) : Prop :=
  maxRounds < currentRound g →
  ∀ roundScores,
    submitRound roundScores g
    = (Throw (StateError "Game is already complete"), g).

Definition invariant (g : Game) : Prop :=
  rows_match_players g ∧ rows_have_maxRounds_cells g
  ∧ no_submission_once_complete g.

Definition round_in_range (g : Game) : Prop :=
  1 ≤ currentRound g ≤ maxRounds + 1.

(** The total of the row of player [i]; [0] where there is no row. *)
Definition total (g : Game) (i : nat) : float :=
  rowTotal (default [] (scores g !! i)).

(** No total of a player is [NaN]. *)
Definition totals_are_numbers (g : Game) : Prop :=
  ∀ j, (j < length (players g))%nat → PrimFloat.is_nan (total g j) = false.

(** Every cell that holds a number holds a finite one. *)
Definition scores_are_finite (g : Game) : Prop :=
  Forall (Forall (λ cell, match cell with
                          | Some (Num x) => isFinite x = true
                          | _ => True
                          end)) (scores g).

(** [w] names the player at the lowest position among those whose total is
    the least, the totals being compared as the program compares them, with
    [<=] and [<] of binary64. *)
Definition lowest_total_first (g : Game) (w : Winner) : Prop :=
  ∃ i : nat,
    index w = Z.of_nat i
    ∧ (i < length (players g))%nat
    ∧ name w = players g !! i
    ∧ score w = total g i
    ∧ (∀ j, (j < length (players g))%nat →
         (total g i <=? total g j)%float = true)
    ∧ (∀ j, (j < i)%nat → (total g i <? total g j)%float = true).

(** The roster was filled by [addPlayer] alone. *)
Inductive setup_only : Game → Prop :=
  | setup_new : setup_only constructor
  | setup_add name g : setup_only g → setup_only (snd (addPlayer name g)).

(** The games of the play phase: a game was started, and since then rounds
    were submitted and undone and nothing else was done. *)
Inductive in_play : Game → Prop :=
  | play_start playerNames g :
      (2 ≤ length playerNames)%nat →
      in_play (snd (startNewGame playerNames g))
  | play_submit roundScores g :
      in_play g → in_play (snd (submitRound roundScores g))
  | play_undo g : in_play g → in_play (snd (undoLastRound g)).

(** A row of 11 cells, none of them an empty slot, those of the rounds from
    [round] on holding [null]. *)
Definition row_played_upto (round : Z) (row : list (option Score)) : Prop :=
  length row = Z.to_nat maxRounds
  ∧ ∀ c : nat, (c < Z.to_nat maxRounds)%nat →
      ∃ s, row !! c = Some (Some s) ∧ (round - 1 ≤ Z.of_nat c → s = Null).

Definition well_shaped (g : Game) : Prop :=
  (2 ≤ length (players g))%nat
  ∧ length (scores g) = length (players g)
  ∧ 1 ≤ currentRound g ≤ maxRounds + 1
  ∧ Forall (row_played_upto (currentRound g)) (scores g).

(** What a cell adds to a total. *)
Definition points (s : Score) : float :=
  match s with
  | Null => 0
  | Num x => x
  end.

(** Rounds submitted one after the other; the values returned, in order. *)
Fixpoint submitRounds (rounds : list (list Score)) : M Game (list bool) :=
  match rounds with
  | [] => ret []
  | roundScores :: rounds' =>
      let! complete := submitRound roundScores in
      let! flags := submitRounds rounds' in
      ret (complete :: flags)
  end.

(** The games an application reaches that starts a game with the roster it
    built, as [handleStartGame] does. *)
Inductive roster_built : Game → Prop :=
  | built_new : roster_built constructor
  | built_add name g : roster_built g → roster_built (snd (addPlayer name g))
  | built_remove index g :
      roster_built g → roster_built (snd (removePlayer index g))
  | built_start g :
      roster_built g → roster_built (snd (startNewGame (players g) g))
  | built_submit roundScores g :
      roster_built g → roster_built (snd (submitRound roundScores g))
  | built_undo g : roster_built g → roster_built (snd (undoLastRound g))
  | built_reset g : roster_built g → roster_built (snd (reset g)).

(** Names that are pairwise different, not empty and without white space at
    either end. *)
Definition roster_ok (names : list string) : Prop :=
  NoDup names ∧ Forall (λ name, name ≠ "" ∧ trim name = name) names.

End GameSpec.

Module StatisticsSpec.
Import Statistics.

(** The operations that change the history. *)
Inductive Op :=
  | SaveGame (clock : Clock) (gameState : Game.Game)
  | DeleteGame (gameId : Z)
  | ClearHistory
  | ImportHistory (jsonData : string).

(** The history an operation leaves, whether it returns or throws. *)
Definition step (JSON_parse : string → option Parsed) (op : Op)
  (history : History) : History :=
  match op with
  | SaveGame clock gameState => snd (saveGame clock gameState history)
  | DeleteGame gameId => snd (deleteGame gameId history)
  | ClearHistory => snd (clearHistory history)
  | ImportHistory jsonData => snd (importHistory JSON_parse jsonData history)
  end.

(** Saving games one after the other; the records are returned in the order
    of the calls. *)
Fixpoint saveGames (saves : list (Clock * Game.Game))
  : M History (list GameRecord) :=
  match saves with
  | [] => ret []
  | (clock, gameState) :: saves' =>
      let! record := saveGame clock gameState in
      let! records := saveGames saves' in
      ret (record :: records)
  end.

(** The record is the one of this call on this game. *)
Definition record_of (clock : Clock) (gameState : Game.Game)
  (record : GameRecord) : Prop :=
  id record = now_id clock
  ∧ timestamp record = now_timestamp clock
  ∧ players record = Some (Game.players gameState)
  ∧ scores record = Some (Game.scores gameState).

(** Sorted by timestamp, descending. *)
Definition newest_first (history : History) : Prop :=
  StronglySorted (λ a b, timestamp b ≤ timestamp a) history.

(** An array element that fails the check of [importHistory]. *)
Definition lacks_field (item : Item) : Prop :=
  match item with
  | ItemObject game =>
      players game = None ∨ scores game = None ∨ winner game = None
  | _ => True
  end.

(** A record that has its three properties, and a row for every player. *)
Definition well_formed (record : GameRecord) : Prop :=
  ∃ ps sc w,
    players record = Some ps ∧ scores record = Some sc
    ∧ winner record = Some w ∧ (length ps ≤ length sc)%nat.

Definition played (name : string) (record : GameRecord) : bool :=
  match players record with
  | Some ps => includes ps name
  | None => false
  end.

Definition won (name : string) (record : GameRecord) : bool :=
  match winner record with
  | Some w => bool_decide (Game.name w = Some name)
  | None => false
  end.

(** [1000 * wins / total] rounded to the nearest integer, halves up: the
    percentage in tenths as exact arithmetic has it. *)
Definition exact_tenths (wins total : nat) : Z :=
  (2 * 1000 * Z.of_nat wins + Z.of_nat total) / (2 * Z.of_nat total).

(** The percentage as the program computes it, printed by [toFixed(1)]. *)
Definition printed_rate (wins total : nat) : Fixed1 :=
  toFixed1 (PrimFloat.mul
              (PrimFloat.div (number_of_nat wins) (number_of_nat total)) 100).

(** The program prints the exact tenths for every count of wins out of
    [total] games. *)
Definition prints_exact_tenths (total : nat) : bool :=
  forallb (λ wins, match printed_rate wins total with
                   | Tenths false n => n =? exact_tenths wins total
                   | _ => false
                   end) (seq 0 (S total)).

(** Four games of Alice and Bob, Alice winning the first and the last. *)
Definition two_player_game (alice bob : float) : Game.Game :=
  Game.mkGame ["Alice"; "Bob"]
    [replicate 11 (Some (Num alice)); replicate 11 (Some (Num bob))] 12.

Definition four_games : History :=
  snd (saveGames [(mkClock 1 "" 1, two_player_game 2 5);
                  (mkClock 2 "" 2, two_player_game 4 3);
                  (mkClock 3 "" 3, two_player_game 6 1);
                  (mkClock 4 "" 4, two_player_game 0 7)] []).

(** The total of the player [name] in a game of a record: the total of the
    row at the position of the name in the record's player list. *)
Definition score_of (name : string) (record : GameRecord) : float :=
  match players record, scores record with
  | Some ps, Some sc =>
      match at_index sc (indexOf ps name) with
      | Some row => Game.rowTotal row
      | None => 0
      end
  | _, _ => 0
  end.

(** The win rate of [name] in tenths of a percent, in exact arithmetic. *)
Definition rate_tenths (name : string) (history : History) : Z :=
  exact_tenths
    (length (filter (won name) (filter (played name) history)))
    (length (filter (played name) history)).

(** Strictly ascending in the order of the code units. *)
Definition names_ascending (names : list string) : Prop :=
  StronglySorted (λ a b, String.compare a b = Lt) names.

(** The records of a parsed array that [importHistory] adds to [history]. *)
Definition imported_new (items : list Item) (history : History) : History :=
  filter (λ game, id game ∉ id <$> history) (objects items).

End StatisticsSpec.

(** ** Facts about arrays *)

Section ArrayFacts.
Context {A : Type}.
Implicit Types (a : list (option A)) (i : Z) (v : A).

Lemma array_get_set_eq a i v :
  0 ≤ i → array_get (array_set a i v) i = Some v.
Proof.
  intros Hi. unfold array_get, array_set.
  destruct (Z.ltb_spec i 0) as [|_]; [lia|].
  destruct (Nat.ltb_spec (Z.to_nat i) (length a)) as [Hlt|Hge].
  - by rewrite list_lookup_insert_eq.
  - rewrite lookup_app_r by lia.
    rewrite lookup_app_r by (rewrite length_replicate; lia).
    rewrite length_replicate.
    by replace (Z.to_nat i - length a - (Z.to_nat i - length a))%nat with 0%nat
      by lia.
Qed.

Lemma array_set_in_range a i v :
  0 ≤ i → (Z.to_nat i < length a)%nat →
  array_set a i v = <[Z.to_nat i := Some v]> a.
Proof.
  intros Hi Hlt. unfold array_set.
  destruct (Z.ltb_spec i 0) as [|_]; [lia|].
  by destruct (Nat.ltb_spec (Z.to_nat i) (length a)) as [_|]; [|lia].
Qed.

Lemma array_get_Some a i v :
  array_get a i = Some v →
  0 ≤ i ∧ (Z.to_nat i < length a)%nat ∧ a !! Z.to_nat i = Some (Some v).
Proof.
  unfold array_get. destruct (Z.ltb_spec i 0) as [|Hi]; [done|].
  destruct (a !! Z.to_nat i) as [[x|]|] eqn:Hl; simpl; try done.
  intros [= ->]. split_and!; [done| |done].
  by apply lookup_lt_is_Some; rewrite Hl.
Qed.

(** Writing a value over a cell that was cleared restores the row when the
    value is the one the cell held. *)
Lemma array_set_restore a i v w :
  array_get a i = Some v → array_set (array_set a i w) i v = a.
Proof.
  intros (Hi & Hlt & Hl)%array_get_Some.
  rewrite (array_set_in_range a) by done.
  rewrite array_set_in_range by (rewrite ?length_insert; done).
  rewrite list_insert_insert_eq. by apply list_insert_id.
Qed.

Lemma array_set_length_in_range a i v :
  0 ≤ i → (Z.to_nat i < length a)%nat → length (array_set a i v) = length a.
Proof. intros. rewrite array_set_in_range by done. apply length_insert. Qed.

End ArrayFacts.

(** ** Facts about numbers *)

Module NumberFacts.
Import NumberOrder.

Lemma SFcompare_rank (f1 f2 : spec_float) :
  f1 ≠ S754_nan → f2 ≠ S754_nan →
  ∃ c, SFcompare f1 f2 = Some c
       ∧ (c = Lt ↔ below (rank f1) (rank f2))
       ∧ (c = Eq ↔ rank f1 = rank f2)
       ∧ (c = Gt ↔ below (rank f2) (rank f1)).
Proof.
  intros H1 H2. unfold below.
  destruct f1 as [s1|s1| |s1 m1 e1], f2 as [s2|s2| |s2 m2 e2]; try done;
    try destruct s1; try destruct s2; cbn;
    try (eexists; split; [reflexivity|];
           split_and!; split; intros; try done; try lia; congruence).
  all: change (Pos.compare_cont Eq m1 m2) with (m1 ?= m2)%positive.
  all: destruct (Z.compare_spec e1 e2) as [->| |];
      [destruct (Pos.compare_spec m1 m2) as [->| |]|..]; cbn;
      eexists; (split; [reflexivity|]);
      split_and!; split; intros; try done; try lia; try congruence.
  all: try (exfalso; lia).
  all: try (match goal with H : (_, _, _) = (_, _, _) |- _ =>
                              injection H as ?; lia end).
Qed.

Lemma is_nan_spec (x : float) : is_nan x = true ↔ Prim2SF x = S754_nan.
Proof.
  unfold is_nan. rewrite FloatAxioms.eqb_spec. unfold SFeqb.
  destruct (Prim2SF x) as [s|s| |s m e] eqn:Hx.
  - by destruct s.
  - by destruct s.
  - done.
  - destruct (SFcompare_rank (S754_finite s m e) (S754_finite s m e))
      as (c & Hc & _ & Heq & _); [done..|].
    assert (c = Eq) as -> by (by apply Heq). by rewrite Hc.
Qed.

Lemma not_nan (x : float) : is_nan x = false → Prim2SF x ≠ S754_nan.
Proof. intros Hx Hnan%is_nan_spec. congruence. Qed.

Lemma ltb_rank (x y : float) :
  is_nan x = false → is_nan y = false →
  (x <? y)%float = true ↔ below (rank (Prim2SF x)) (rank (Prim2SF y)).
Proof.
  intros Hx%not_nan Hy%not_nan. rewrite FloatAxioms.ltb_spec. unfold SFltb.
  destruct (SFcompare_rank _ _ Hx Hy) as (c & -> & Hlt & _).
  rewrite <- Hlt. by destruct c.
Qed.

Lemma leb_rank (x y : float) :
  is_nan x = false → is_nan y = false →
  (x <=? y)%float = true ↔ ¬ below (rank (Prim2SF y)) (rank (Prim2SF x)).
Proof.
  intros Hx%not_nan Hy%not_nan. rewrite FloatAxioms.leb_spec. unfold SFleb.
  destruct (SFcompare_rank _ _ Hx Hy) as (c & -> & _ & _ & Hgt).
  rewrite <- Hgt. by destruct c.
Qed.

Lemma eqb_rank (x y : float) :
  is_nan x = false → is_nan y = false →
  (x =? y)%float = true ↔ rank (Prim2SF x) = rank (Prim2SF y).
Proof.
  intros Hx%not_nan Hy%not_nan. rewrite FloatAxioms.eqb_spec. unfold SFeqb.
  destruct (SFcompare_rank _ _ Hx Hy) as (c & -> & _ & Heq & _).
  rewrite <- Heq. by destruct c.
Qed.

(** A comparison that holds has no [NaN] on either side. *)
Lemma leb_not_nan (x y : float) :
  (x <=? y)%float = true → is_nan x = false ∧ is_nan y = false.
Proof.
  rewrite FloatAxioms.leb_spec. unfold SFleb. intros Hle.
  split; apply not_true_is_false; intros Hnan%is_nan_spec;
    rewrite Hnan in Hle; [done|]. by destruct (Prim2SF x).
Qed.

Lemma ltb_not_nan (x y : float) :
  (x <? y)%float = true → is_nan x = false ∧ is_nan y = false.
Proof.
  rewrite FloatAxioms.ltb_spec. unfold SFltb. intros Hle.
  split; apply not_true_is_false; intros Hnan%is_nan_spec;
    rewrite Hnan in Hle; [done|]. by destruct (Prim2SF x).
Qed.

Lemma eqb_not_nan (x y : float) :
  (x =? y)%float = true → is_nan x = false ∧ is_nan y = false.
Proof.
  rewrite FloatAxioms.eqb_spec. unfold SFeqb. intros Hle.
  split; apply not_true_is_false; intros Hnan%is_nan_spec;
    rewrite Hnan in Hle; [done|]. by destruct (Prim2SF x).
Qed.

Ltac by_rank :=
  unfold below in *;
  repeat match goal with
         | H : context [rank ?f] |- _ => destruct (rank f) as [[? ?] ?]
         | |- context [rank ?f] => destruct (rank f) as [[? ?] ?]
         end;
  cbn [fst snd] in *;
  repeat match goal with
         | H : (_, _) = (_, _) |- _ => injection H as ? ? ?
         end;
  try (f_equal; lia); try lia.

Lemma leb_refl (x : float) : is_nan x = false → (x <=? x)%float = true.
Proof. intros Hx. apply leb_rank; [done..|]. by_rank. Qed.

Lemma leb_trans (x y z : float) :
  (x <=? y)%float = true → (y <=? z)%float = true → (x <=? z)%float = true.
Proof.
  intros Hxy Hyz.
  destruct (leb_not_nan _ _ Hxy) as [Hx Hy], (leb_not_nan _ _ Hyz) as [_ Hz].
  apply leb_rank in Hxy, Hyz; try done. apply leb_rank; [done..|]. by_rank.
Qed.

Lemma ltb_leb (x y : float) : (x <? y)%float = true → (x <=? y)%float = true.
Proof.
  intros Hxy. destruct (ltb_not_nan _ _ Hxy) as [Hx Hy].
  apply ltb_rank in Hxy; try done. apply leb_rank; [done..|]. by_rank.
Qed.

Lemma not_ltb_leb (x y : float) :
  is_nan x = false → is_nan y = false →
  (x <? y)%float = false → (y <=? x)%float = true.
Proof.
  intros Hx Hy Hxy. apply leb_rank; [done..|].
  intros Hlt%ltb_rank; [congruence|done..].
Qed.

Lemma leb_neq_ltb (x y : float) :
  (x <=? y)%float = true → (y =? x)%float = false → (x <? y)%float = true.
Proof.
  intros Hxy Hne. destruct (leb_not_nan _ _ Hxy) as [Hx Hy].
  apply leb_rank in Hxy; try done. apply ltb_rank; [done..|].
  assert (rank (Prim2SF y) ≠ rank (Prim2SF x)) as Hrank.
  { intros Heq%eqb_rank; [congruence|done..]. }
  revert Hxy Hrank. unfold below.
  destruct (rank (Prim2SF x)) as [[a b] c], (rank (Prim2SF y)) as [[a' b'] c'].
  cbn. intros Hxy Hrank.
  destruct (decide (a = a')) as [->|]; [|lia].
  destruct (decide (b = b')) as [->|]; [|lia].
  destruct (decide (c = c')) as [->|]; [done|lia].
Qed.

Lemma eqb_leb (x y : float) : (x =? y)%float = true → (x <=? y)%float = true.
Proof.
  intros Hxy. destruct (eqb_not_nan _ _ Hxy) as [Hx Hy].
  apply eqb_rank in Hxy; try done. apply leb_rank; [done..|].
  rewrite Hxy. by_rank.
Qed.


Lemma is_nan_nan (x : float) : is_nan x = true → x = nan.
Proof. intros Hx%is_nan_spec. by apply Prim2SF_inj. Qed.

Lemma eqb_nan_r (x : float) : (x =? nan)%float = false.
Proof.
  rewrite FloatAxioms.eqb_spec. unfold SFeqb.
  change (Prim2SF nan) with S754_nan. by destruct (Prim2SF x).
Qed.

Lemma infinity_leb (x : float) : (infinity <=? x)%float = true → x = infinity.
Proof.
  rewrite FloatAxioms.leb_spec. change (Prim2SF infinity) with (S754_infinity false).
  intros Hle. apply Prim2SF_inj.
  change (Prim2SF infinity) with (S754_infinity false).
  by destruct (Prim2SF x) as [| []| |[]].
Qed.

Lemma leb_neg_infinity (x : float) :
  (x <=? neg_infinity)%float = true → x = neg_infinity.
Proof.
  rewrite FloatAxioms.leb_spec.
  change (Prim2SF neg_infinity) with (S754_infinity true).
  intros Hle. apply Prim2SF_inj.
  change (Prim2SF neg_infinity) with (S754_infinity true).
  by destruct (Prim2SF x) as [| []| |[]].
Qed.

Lemma zeros_rank (x y : float) :
  is_neg_zero x && is_pos_zero y = true →
  is_nan x = false ∧ is_nan y = false
  ∧ rank (Prim2SF x) = rank (Prim2SF y).
Proof.
  intros [Hx Hy]%andb_prop. unfold is_neg_zero, is_pos_zero in *.
  split_and!.
  - apply not_true_is_false. intros Hn%is_nan_spec. by rewrite Hn in Hx.
  - apply not_true_is_false. intros Hn%is_nan_spec. by rewrite Hn in Hy.
  - by destruct (Prim2SF x) as [[]| | |], (Prim2SF y) as [[]| | |].
Qed.

(** What the loop of [Math.min] holds after the arguments [seen], on
    arguments without [NaN]. *)
Lemma Math_min_loop (l seen : list float) (lowest : float) :
  Forall (λ x, is_nan x = false) l →
  is_nan lowest = false →
  (seen = [] ∧ lowest = infinity) ∨ lowest ∈ seen →
  (∀ x, x ∈ seen → (lowest <=? x)%float = true) →
  let m := foldl (λ lowest number,
                    if is_neg_zero number && is_pos_zero lowest then number
                    else if (number <? lowest)%float then number
                    else lowest) lowest l in
  ((seen ++ l = [] ∧ m = infinity) ∨ m ∈ seen ++ l)
  ∧ ∀ x, x ∈ seen ++ l → (m <=? x)%float = true.
Proof.
  revert seen lowest. induction l as [|y l IH];
    intros seen lowest Hl Hlowest Hseen Hle; cbn.
  { rewrite app_nil_r. done. }
  apply Forall_cons in Hl as [Hy Hl].
  rewrite (cons_middle y seen l), (assoc_L (++)).
  destruct (is_neg_zero y && is_pos_zero lowest) eqn:Hzeros;
    [|destruct (y <? lowest)%float eqn:Hlt].
  - apply zeros_rank in Hzeros as (_ & _ & Hrank).
    apply IH; [done..| |].
    + right. rewrite elem_of_app, list_elem_of_singleton. by right.
    + intros x [Hx| ->%list_elem_of_singleton]%elem_of_app;
        [|by apply leb_refl].
      specialize (Hle x Hx). destruct (leb_not_nan _ _ Hle) as [_ Hxn].
      apply leb_rank in Hle; [|done..]. apply leb_rank; [done..|].
      by rewrite Hrank.
  - apply IH; [done..| |].
    + right. rewrite elem_of_app, list_elem_of_singleton. by right.
    + intros x [Hx| ->%list_elem_of_singleton]%elem_of_app;
        [|by apply leb_refl].
      eapply leb_trans; [by apply ltb_leb|by apply Hle].
  - assert ((lowest <=? y)%float = true) as Hly by (by apply not_ltb_leb).
    apply IH; [done..| |].
    + right. rewrite elem_of_app, list_elem_of_singleton.
      destruct Hseen as [[-> ->]|Hin]; [|by left].
      right. symmetry. by apply infinity_leb.
    + by intros x [Hx| ->%list_elem_of_singleton]%elem_of_app; [apply Hle|].
Qed.

(** On arguments without [NaN], at least one, [Math.min] returns one of them
    that none is below. *)
Lemma Math_min_spec (l : list float) :
  l ≠ [] → Forall (λ x, is_nan x = false) l →
  Math_min l ∈ l ∧ ∀ x, x ∈ l → (Math_min l <=? x)%float = true.
Proof.
  intros Hne Hl. unfold Math_min.
  assert (existsb is_nan l = false) as ->.
  { apply not_true_is_false. intros (x & Hx & Hnan)%existsb_exists.
    rewrite Forall_forall in Hl. apply list_elem_of_In in Hx.
    specialize (Hl x Hx). congruence. }
  destruct (Math_min_loop l [] infinity Hl) as [[[? _]|Hin] Hle];
    [done|by left|by intros ? ?%elem_of_nil|done|done].
Qed.

(** One [NaN] among the arguments makes the result [NaN]. *)
Lemma Math_min_nan (l : list float) :
  (∃ x, x ∈ l ∧ is_nan x = true) → Math_min l = nan.
Proof.
  intros (x & Hx & Hnan). unfold Math_min.
  assert (existsb is_nan l = true) as ->; [|done].
  apply existsb_exists. exists x. by rewrite <- list_elem_of_In.
Qed.

Lemma Math_max_loop (l seen : list float) (highest : float) :
  Forall (λ x, is_nan x = false) l →
  is_nan highest = false →
  (seen = [] ∧ highest = neg_infinity) ∨ highest ∈ seen →
  (∀ x, x ∈ seen → (x <=? highest)%float = true) →
  let m := foldl (λ highest number,
                    if is_pos_zero number && is_neg_zero highest then number
                    else if (highest <? number)%float then number
                    else highest) highest l in
  ((seen ++ l = [] ∧ m = neg_infinity) ∨ m ∈ seen ++ l)
  ∧ ∀ x, x ∈ seen ++ l → (x <=? m)%float = true.
Proof.
  revert seen highest. induction l as [|y l IH];
    intros seen highest Hl Hhighest Hseen Hle; cbn.
  { rewrite app_nil_r. done. }
  apply Forall_cons in Hl as [Hy Hl].
  rewrite (cons_middle y seen l), (assoc_L (++)).
  destruct (is_pos_zero y && is_neg_zero highest) eqn:Hzeros;
    [|destruct (highest <? y)%float eqn:Hlt].
  - rewrite andb_comm in Hzeros.
    apply zeros_rank in Hzeros as (_ & _ & Hrank).
    apply IH; [done..| |].
    + right. rewrite elem_of_app, list_elem_of_singleton. by right.
    + intros x [Hx| ->%list_elem_of_singleton]%elem_of_app;
        [|by apply leb_refl].
      specialize (Hle x Hx). destruct (leb_not_nan _ _ Hle) as [Hxn _].
      apply leb_rank in Hle; [|done..]. apply leb_rank; [done..|].
      by rewrite <- Hrank.
  - apply IH; [done..| |].
    + right. rewrite elem_of_app, list_elem_of_singleton. by right.
    + intros x [Hx| ->%list_elem_of_singleton]%elem_of_app;
        [|by apply leb_refl].
      eapply leb_trans; [by apply Hle|by apply ltb_leb].
  - assert ((y <=? highest)%float = true) as Hly by (by apply not_ltb_leb).
    apply IH; [done..| |].
    + right. rewrite elem_of_app, list_elem_of_singleton.
      destruct Hseen as [[-> ->]|Hin]; [|by left].
      right. symmetry. by apply leb_neg_infinity.
    + by intros x [Hx| ->%list_elem_of_singleton]%elem_of_app; [apply Hle|].
Qed.

Lemma Math_max_spec (l : list float) :
  l ≠ [] → Forall (λ x, is_nan x = false) l →
  Math_max l ∈ l ∧ ∀ x, x ∈ l → (x <=? Math_max l)%float = true.
Proof.
  intros Hne Hl. unfold Math_max.
  assert (existsb is_nan l = false) as ->.
  { apply not_true_is_false. intros (x & Hx & Hnan)%existsb_exists.
    rewrite Forall_forall in Hl. apply list_elem_of_In in Hx.
    specialize (Hl x Hx). congruence. }
  destruct (Math_max_loop l [] neg_infinity Hl) as [[[? _]|Hin] Hle];
    [done|by left|by intros ? ?%elem_of_nil|done|done].
Qed.

Lemma Math_max_nan (l : list float) :
  (∃ x, x ∈ l ∧ is_nan x = true) → Math_max l = nan.
Proof.
  intros (x & Hx & Hnan). unfold Math_max.
  assert (existsb is_nan l = true) as ->; [|done].
  apply existsb_exists. exists x. by rewrite <- list_elem_of_In.
Qed.

(** [indexOf] returns the first position of a number that is [===] to the
    one looked for, and [-1] for [NaN]. *)
Lemma indexOf_number_from_spec (l : list float) (m : float) (k : Z) :
  m ∈ l → is_nan m = false →
  ∃ (i : nat) y,
    indexOf_number_from l m k = k + Z.of_nat i
    ∧ l !! i = Some y ∧ (y =? m)%float = true
    ∧ ∀ (j : nat) z, (j < i)%nat → l !! j = Some z → (z =? m)%float = false.
Proof.
  revert k. induction l as [|x l IH]; intros k Hm Hnan;
    [by apply elem_of_nil in Hm|].
  cbn. destruct (x =? m)%float eqn:Hx.
  - exists 0%nat, x. split_and!; [lia|done|done|lia].
  - apply elem_of_cons in Hm as [->|Hm].
    { unfold is_nan in Hnan. by rewrite Hx in Hnan. }
    destruct (IH (k + 1) Hm Hnan) as (i & y & -> & Hi & Hy & Hfirst).
    exists (S i), y. split_and!; [lia|done|done|].
    intros [|j] z Hj; cbn; [congruence|]. apply Hfirst. lia.
Qed.

Lemma indexOf_number_from_nan (l : list float) (k : Z) :
  indexOf_number_from l nan k = -1.
Proof.
  revert k. induction l as [|x l IH]; intros k; [done|].
  cbn. by rewrite eqb_nan_r.
Qed.


(** Two numbers that are [===] are the same number, the two zeros apart. *)
Lemma eqb_eq (x y : float) :
  (x =? y)%float = true →
  is_neg_zero x = false → is_neg_zero y = false → x = y.
Proof.
  rewrite FloatAxioms.eqb_spec. unfold SFeqb, is_neg_zero.
  intros Heq Hx Hy. apply Prim2SF_inj.
  destruct (Prim2SF x) as [[]|[]| |[] m1 e1], (Prim2SF y) as [[]|[]| |[] m2 e2];
    try done; cbn in Heq;
    change (Pos.compare_cont Eq m1 m2) with (m1 ?= m2)%positive in Heq;
    destruct (Z.compare_spec e1 e2) as [->| |]; try done;
    destruct (Pos.compare_spec m1 m2) as [->| |]; done.
Qed.

(** *** Sums are never the negative zero *)

Lemma iter_pos_nat {A} (f : A → A) (n : positive) (x : A) :
  SpecFloat.iter_pos f n x = Nat.iter (Pos.to_nat n) f x.
Proof.
  revert x. induction n as [n IH|n IH|]; intros x; cbn [SpecFloat.iter_pos].
  - rewrite !IH, Pos2Nat.inj_xI, <- Nat.iter_add, <- Nat.iter_succ_r.
    f_equal. lia.
  - rewrite !IH, Pos2Nat.inj_xO, <- Nat.iter_add. f_equal. lia.
  - done.
Qed.

Lemma shr_1_iter (k : nat) (mrs : shr_record) (p : positive) :
  shr_m mrs = Z.pos p → (Z.of_nat k < Z.pos (digits2_pos p)) →
  ∃ q, shr_m (Nat.iter k shr_1 mrs) = Z.pos q.
Proof.
  revert mrs p. induction k as [|k IH]; intros mrs p Hm Hk; [by exists p|].
  rewrite Nat.iter_succ_r. destruct mrs as [m r s]. cbn in Hm. subst m.
  destruct p as [p|p|]; cbn [digits2_pos] in Hk.
  - apply (IH _ p); [done|lia].
  - apply (IH _ p); [done|lia].
  - lia.
Qed.

Lemma shr_fexp_positive (m : positive) (e : Z) (l : location) :
  emin ≤ e →
  ∃ q, shr_m (shr_fexp prec emax (Z.pos m) e l).1 = Z.pos q
       ∧ emin ≤ (shr_fexp prec emax (Z.pos m) e l).2.
Proof.
  intros He. unfold shr_fexp, shr.
  assert (shr_m (shr_record_of_loc (Z.pos m) l) = Z.pos m) as Hm
    by (by destruct l as [|[]]).
  destruct (fexp prec emax (Zdigits2 (Z.pos m) + e) - e) as [|n|n] eqn:Hn;
    cbn [fst snd]; [by exists m|..|by exists m].
  rewrite iter_pos_nat.
  destruct (shr_1_iter (Pos.to_nat n) _ m Hm) as [q Hq].
  - revert Hn He. unfold fexp, SpecFloat.emin, prec, emax. cbn [Zdigits2]. lia.
  - exists q. split; [done|lia].
Qed.

Lemma binary_round_aux_not_zero (sx : bool) (m : positive) (e : Z) :
  emin ≤ e →
  ∀ s, binary_round_aux prec emax sx (Z.pos m) e loc_Exact ≠ S754_zero s.
Proof.
  intros He s. unfold binary_round_aux.
  destruct (shr_fexp_positive m e loc_Exact He) as (q & Hq & He').
  destruct (shr_fexp prec emax (Z.pos m) e loc_Exact) as [mrs' e'].
  cbn [fst snd] in Hq, He'.
  assert (∃ q', round_nearest_even (shr_m mrs') (loc_of_shr_record mrs')
                = Z.pos q') as [q' ->].
  { rewrite Hq. unfold round_nearest_even.
    destruct (loc_of_shr_record mrs') as [|[]]; try by eexists.
    destruct (Z.even (Z.pos q)); by eexists. }
  destruct (shr_fexp_positive q' e' loc_Exact He') as (q'' & Hq'' & _).
  destruct (shr_fexp prec emax (Z.pos q') e' loc_Exact) as [mrs'' e''].
  cbn [fst] in Hq''. rewrite Hq''. by destruct (e'' <=? emax - prec).
Qed.

Lemma binary_round_aux_not_nan (sx : bool) (m : positive) (e : Z) :
  emin ≤ e →
  binary_round_aux prec emax sx (Z.pos m) e loc_Exact ≠ S754_nan.
Proof.
  intros He. unfold binary_round_aux.
  destruct (shr_fexp_positive m e loc_Exact He) as (q & Hq & He').
  destruct (shr_fexp prec emax (Z.pos m) e loc_Exact) as [mrs' e'].
  cbn [fst snd] in Hq, He'.
  assert (∃ q', round_nearest_even (shr_m mrs') (loc_of_shr_record mrs')
                = Z.pos q') as [q' ->].
  { rewrite Hq. unfold round_nearest_even.
    destruct (loc_of_shr_record mrs') as [|[]]; try by eexists.
    destruct (Z.even (Z.pos q)); by eexists. }
  destruct (shr_fexp_positive q' e' loc_Exact He') as (q'' & Hq'' & _).
  destruct (shr_fexp prec emax (Z.pos q') e' loc_Exact) as [mrs'' e''].
  cbn [fst] in Hq''. rewrite Hq''. by destruct (e'' <=? emax - prec).
Qed.

Lemma binary_round_not_nan (sx : bool) (m : positive) (e : Z) :
  emin ≤ e → binary_round prec emax sx m e ≠ S754_nan.
Proof.
  intros He. unfold binary_round, shl_align.
  destruct (fexp prec emax (Z.pos (digits2_pos m) + e) - e) eqn:Hd;
    apply binary_round_aux_not_nan; try done.
  unfold fexp in *. lia.
Qed.

Lemma binary_round_not_zero (sx : bool) (m : positive) (e : Z) :
  emin ≤ e → ∀ s, binary_round prec emax sx m e ≠ S754_zero s.
Proof.
  intros He s. unfold binary_round, shl_align.
  destruct (fexp prec emax (Z.pos (digits2_pos m) + e) - e) eqn:Hd;
    apply binary_round_aux_not_zero; try done.
  unfold fexp in *. lia.
Qed.

Lemma valid_exponent (s : bool) (m : positive) (e : Z) :
  valid_binary (S754_finite s m e) = true → emin ≤ e.
Proof.
  cbn. unfold bounded, canonical_mantissa, fexp.
  intros [Hc%Z.eqb_eq _]%andb_prop. lia.
Qed.

(** A sum is the negative zero only when both terms are. *)
Lemma add_neg_zero (x y : float) :
  is_neg_zero (x + y) = true → is_neg_zero x = true.
Proof.
  unfold is_neg_zero. rewrite FloatAxioms.add_spec.
  pose proof (Prim2SF_valid x) as Hx. pose proof (Prim2SF_valid y) as Hy.
  destruct (Prim2SF x) as [[]|[]| |sx mx ex], (Prim2SF y) as [[]|[]| |sy my ey];
    try done.
  unfold SF64add, SFadd.
  apply valid_exponent in Hx, Hy.
  set (ez := Z.min ex ey).
  assert (emin ≤ ez) as Hez by (unfold ez; lia).
  generalize (cond_Zopp sx (Z.pos (shl_align mx ex ez).1)
              + cond_Zopp sy (Z.pos (shl_align my ey ez).1)).
  intros [|p|p]; cbn [binary_normalize]; [done|..].
  - destruct (binary_round prec emax false p ez) as [[]| | |] eqn:Hr; try done.
    by apply binary_round_not_zero in Hr.
  - destruct (binary_round prec emax true p ez) as [[]| | |] eqn:Hr; try done.
    by apply binary_round_not_zero in Hr.
Qed.

(** A sum with a finite term is [NaN] only when the other term is. *)
Lemma add_not_nan (x y : float) :
  is_nan x = false → isFinite y = true → is_nan (x + y) = false.
Proof.
  intros Hx%not_nan Hy. apply not_true_is_false.
  intros Hsum%is_nan_spec. revert Hsum Hx Hy.
  unfold isFinite. rewrite FloatAxioms.add_spec.
  pose proof (Prim2SF_valid x) as Hvx. pose proof (Prim2SF_valid y) as Hvy.
  destruct (Prim2SF x) as [[]|[]| |sx mx ex], (Prim2SF y) as [[]|[]| |sy my ey];
    try done.
  unfold SF64add, SFadd.
  apply valid_exponent in Hvx, Hvy.
  set (ez := Z.min ex ey).
  assert (emin ≤ ez) as Hez by (unfold ez; lia).
  generalize (cond_Zopp sx (Z.pos (shl_align mx ex ez).1)
              + cond_Zopp sy (Z.pos (shl_align my ey ez).1)).
  intros [|p|p]; cbn [binary_normalize]; [done|..];
    intros Hr; by apply binary_round_not_nan in Hr.
Qed.

Lemma add_zero_r (x : float) : is_neg_zero x = false → (x + 0)%float = x.
Proof.
  unfold is_neg_zero. intros Hx. apply Prim2SF_inj. rewrite FloatAxioms.add_spec.
  change (Prim2SF 0) with (S754_zero false).
  by destruct (Prim2SF x) as [[]|[]| |].
Qed.

End NumberFacts.

(** ** The game engine *)

Module GameFacts.
Import Game GameSpec.

Lemma set_scores_id g : set_scores (scores g) g = g.
Proof. by destruct g. Qed.

(** The loop that writes one column: it ends normally when every value
    finds its row, and in any case the rows it reached carry their value. *)
Lemma forEach_writeScore {X} (f : X → Score) (l : list X) (k : nat) (g : Game) :
  (k ≤ length (scores g))%nat →
  forEach_from (λ x index, writeScore (f x) index) l k g
  = (if (k + length l <=? length (scores g))%nat then Ok tt else Throw TypeError,
     set_scores (take k (scores g)
                 ++ setColumn (currentRound g - 1) (f <$> l)
                      (drop k (scores g))) g).
Proof.
  revert k g. induction l as [|x l IH]; intros k g Hk0.
  - simpl. unfold ret. rewrite take_drop, set_scores_id.
    by destruct (Nat.leb_spec (k + 0) (length (scores g))); [|lia].
  - cbn [forEach_from length fmap list_fmap]. unfold bind at 1.
    unfold writeScore at 1, bind at 1, get.
    destruct (scores g !! k) as [row|] eqn:Hk.
    + apply lookup_lt_Some in Hk as Hlt.
      unfold modify at 1. rewrite IH by (cbn; rewrite length_insert; lia).
      cbn [scores set_scores currentRound].
      rewrite length_insert.
      f_equal.
      * destruct (Nat.leb_spec (S k + length l) (length (scores g)));
          destruct (Nat.leb_spec (k + S (length l)) (length (scores g)));
          done || lia.
      * unfold set_scores. cbn [players scores currentRound]. f_equal.
        rewrite (take_S_r _ _ (array_set row (currentRound g - 1) (f x)))
          by (by apply list_lookup_insert_eq).
        rewrite take_insert_ge by done.
        rewrite drop_insert_lt by lia.
        rewrite (drop_S _ _ _ Hk). cbn [setColumn].
        by rewrite <- app_assoc.
    + unfold throw. apply lookup_ge_None in Hk.
      destruct (Nat.leb_spec (k + S (length l)) (length (scores g))); [lia|].
      rewrite take_ge, drop_ge by done. cbn [setColumn].
      by rewrite app_nil_r, set_scores_id.
Qed.

(** [submitRound] in closed form. *)
Lemma submitRound_unfold roundScores g :
  submitRound roundScores g
  = if maxRounds <? currentRound g
    then (Throw (StateError "Game is already complete"), g)
    else if negb (length roundScores =? length (players g))%nat
    then (Throw (ValidationError "Score count must match player count"), g)
    else
      let written :=
        set_scores (setColumn (currentRound g - 1) roundScores (scores g)) g in
      if (length roundScores <=? length (scores g))%nat
      then (Ok (maxRounds <? currentRound g + 1),
            set_currentRound (currentRound g + 1) written)
      else (Throw TypeError, written).
Proof.
  unfold submitRound, bind at 1, get.
  destruct (maxRounds <? currentRound g); [done|].
  destruct (negb _); [done|].
  unfold bind at 1, forEach.
  rewrite forEach_writeScore by lia.
  rewrite list_fmap_id. cbn [take drop app Nat.add].
  by destruct (length roundScores <=? length (scores g))%nat.
Qed.

(** [undoLastRound] in closed form. *)
Lemma undoLastRound_unfold g :
  undoLastRound g
  = if decide (currentRound g = 1)
    then (Throw (StateError "No rounds to undo"), g)
    else
      let cleared :=
        mkGame (players g)
          (setColumn (currentRound g - 2) ((λ _, Null) <$> players g)
             (scores g))
          (currentRound g - 1) in
      (if (length (players g) <=? length (scores g))%nat
       then Ok tt else Throw TypeError, cleared).
Proof.
  unfold undoLastRound, bind at 1, get.
  destruct (decide (currentRound g = 1)); [done|].
  unfold bind at 1, modify at 1. unfold bind at 1, bind at 1, get, forEach.
  rewrite forEach_writeScore by (cbn; lia).
  cbn [take drop app Nat.add set_currentRound set_scores players scores
       currentRound].
  replace (currentRound g - 1 - 1) with (currentRound g - 2) by lia.
  by destruct (length (players g) <=? length (scores g))%nat.
Qed.

Lemma setColumn_length col vals rows :
  length (setColumn col vals rows) = length rows.
Proof.
  revert rows. induction vals as [|v vals IH]; intros [|row rows]; cbn; auto.
Qed.

Lemma setColumn_lookup col vals rows (i : nat) v :
  vals !! i = Some v →
  setColumn col vals rows !! i = (λ row, array_set row col v) <$> rows !! i.
Proof.
  revert rows i. induction vals as [|v' vals IH]; intros [|row rows] [|i];
    cbn; try done.
  - by intros [= ->].
  - apply IH.
Qed.

Lemma setColumn_restore col vals cleared rows :
  length cleared = length vals →
  (∀ (i : nat) v, vals !! i = Some v →
     ∃ row, rows !! i = Some row ∧ array_get row col = Some v) →
  setColumn col vals (setColumn col cleared rows) = rows.
Proof.
  revert cleared rows.
  induction vals as [|v vals IH]; intros [|w cleared] [|row rows] Hlen Hrec;
    cbn in *; try done.
  destruct (Hrec 0%nat v eq_refl) as (? & [= <-] & Hget).
  rewrite (array_set_restore _ _ _ _ Hget). f_equal.
  apply IH; [lia|]. intros i s Hi. apply (Hrec (S i) s Hi).
Qed.

Lemma setColumn_cells col vals rows (n : nat) :
  0 ≤ col < Z.of_nat n →
  Forall (λ row, length row = n) rows →
  Forall (λ row, length row = n) (setColumn col vals rows).
Proof.
  intros Hcol Hrows. revert vals.
  induction Hrows as [|row rows Hrow Hrows IH]; intros [|v vals]; cbn;
    try by constructor.
  constructor; [|apply IH].
  rewrite array_set_length_in_range; lia.
Qed.

(** C4: [startNewGame] on at least two names succeeds, makes them the
    roster in their order, sets the round to 1 and allocates one row per
    player, each of exactly 11 cells, all [null]; on fewer than two names it
    throws the validation error and leaves the game as it was. *)
Theorem startNewGame_spec (playerNames : list string) (g : Game) :
  ((2 ≤ length playerNames)%nat →
   ∃ g', startNewGame playerNames g = (Ok tt, g')
     ∧ players g' = playerNames
     ∧ currentRound g' = 1
     ∧ length (scores g') = length (players g')
     ∧ Forall (λ row, length row = 11%nat
                      ∧ Forall (λ cell, cell = Some Null) row) (scores g'))
  ∧ ((length playerNames < 2)%nat →
     startNewGame playerNames g
     = (Throw (ValidationError "At least 2 players required"), g)).
Proof.
  unfold startNewGame. split; intros Hlen.
  - destruct (Nat.ltb_spec (length playerNames) 2) as [|_]; [lia|].
    eexists. split; [reflexivity|]. cbn.
    split_and!; [done..|apply length_map|].
    apply Forall_forall. intros row (_ & -> & _)%list_elem_of_fmap.
    split; [done|]. by repeat constructor.
  - by destruct (Nat.ltb_spec (length playerNames) 2) as [_|]; [|lia].
Qed.

Lemma startNewGame_spec_witness :
  (∃ g', startNewGame ["Alice"; "Bob"; "Carol"] constructor = (Ok tt, g')
     ∧ players g' = ["Alice"; "Bob"; "Carol"]
     ∧ currentRound g' = 1
     ∧ length (scores g') = length (players g')
     ∧ Forall (λ row, length row = 11%nat
                      ∧ Forall (λ cell, cell = Some Null) row) (scores g'))
  ∧ startNewGame ["Alice"] constructor
    = (Throw (ValidationError "At least 2 players required"), constructor).
Proof.
  split.
  - apply (proj1 (startNewGame_spec ["Alice"; "Bob"; "Carol"] constructor)).
    simpl. lia.
  - apply (proj2 (startNewGame_spec ["Alice"] constructor)). simpl. lia.
Defined.

Lemma getScore_setColumn g col vals (i : nat) v :
  1 ≤ col → vals !! i = Some v → (length vals ≤ length (scores g))%nat →
  ∀ r, getScore i col
         (set_currentRound r (set_scores (setColumn (col - 1) vals (scores g)) g))
       = Ok (Some v).
Proof.
  intros Hcol Hv Hlen r. unfold getScore. cbn.
  rewrite (setColumn_lookup _ _ _ _ _ Hv).
  apply lookup_lt_Some in Hv as Hi.
  destruct (lookup_lt_is_Some_2 (scores g) i) as [row ->]; [lia|]. cbn.
  by rewrite array_get_set_eq by lia.
Qed.

(** C2: [submitRound] throws the state error when the game is complete and,
    the game not being complete, the validation error when the number of
    scores is not the number of players; either way the game is left as it
    was.  When it returns, every player's cell of the current round holds
    that player's score, the round has advanced by one, and the value
    returned tells whether the new round is past the last.  It does return
    when the two checks pass and every player has a row. *)
Theorem submitRound_spec (roundScores : list Score) (g : Game) :
  (maxRounds < currentRound g →
   submitRound roundScores g
   = (Throw (StateError "Game is already complete"), g))
  ∧ (currentRound g ≤ maxRounds →
     length roundScores ≠ length (players g) →
     submitRound roundScores g
     = (Throw (ValidationError "Score count must match player count"), g))
  ∧ (∀ e g', submitRound roundScores g = (Throw e, g') →
       e ≠ TypeError → g' = g)
  ∧ (∀ complete g',
       submitRound roundScores g = (Ok complete, g') →
       1 ≤ currentRound g →
       length roundScores = length (players g)
       ∧ (∀ (i : nat) score, roundScores !! i = Some score →
            getScore i (currentRound g) g' = Ok (Some score))
       ∧ players g' = players g
       ∧ currentRound g' = currentRound g + 1
       ∧ complete = bool_decide (maxRounds < currentRound g'))
  ∧ (currentRound g ≤ maxRounds →
     length roundScores = length (players g) →
     (length (players g) ≤ length (scores g))%nat →
     ∃ complete g', submitRound roundScores g = (Ok complete, g')).
Proof.
  rewrite submitRound_unfold.
  destruct (Z.ltb_spec maxRounds (currentRound g)) as [Hdone|Hopen].
  { split_and!; try done; try lia. by intros e g' [= <- <-]. }
  destruct (Nat.eqb_spec (length roundScores) (length (players g)))
    as [Hlen|Hlen]; cbn [negb].
  2: { split_and!; try done; try lia. by intros e g' [= <- <-]. }
  cbn zeta.
  destruct (Nat.leb_spec (length roundScores) (length (scores g)))
    as [Hrows|Hrows].
  - split_and!; try done; try lia.
    + intros complete g' [= <- <-] Hround. split_and!; try done.
      * intros i score Hi. by apply getScore_setColumn.
      * cbn. destruct (Z.ltb_spec maxRounds (currentRound g + 1)); symmetry;
          [by apply bool_decide_eq_true_2|apply bool_decide_eq_false_2; lia].
    + eauto.
  - split_and!; try done; try lia. by intros e g' [= <- <-].
Qed.

Lemma submitRound_spec_witness :
  submitRound [Num 4] (mkGame ["Alice"; "Bob"] [[Some Null]; [Some Null]] 12)
  = (Throw (StateError "Game is already complete"),
     mkGame ["Alice"; "Bob"] [[Some Null]; [Some Null]] 12)
  ∧ submitRound [Num 4] (mkGame ["Alice"; "Bob"] [[Some Null]; [Some Null]] 1)
    = (Throw (ValidationError "Score count must match player count"),
       mkGame ["Alice"; "Bob"] [[Some Null]; [Some Null]] 1)
  ∧ getScore 1 1
      (mkGame ["Alice"; "Bob"] [[Some (Num 4)]; [Some (Num 7)]] 2)
    = Ok (Some (Num 7))
  ∧ ∃ complete g',
      submitRound [Num 4; Num 7]
        (mkGame ["Alice"; "Bob"] [[Some Null]; [Some Null]] 1)
      = (Ok complete, g').
Proof.
  split_and!.
  - apply (submitRound_spec [Num 4]
             (mkGame ["Alice"; "Bob"] [[Some Null]; [Some Null]] 12)).
    unfold maxRounds. simpl. lia.
  - apply (submitRound_spec [Num 4]
             (mkGame ["Alice"; "Bob"] [[Some Null]; [Some Null]] 1));
      [unfold maxRounds; simpl; lia|simpl; lia].
  - apply (proj1 (proj2 (proj2 (proj2
             (submitRound_spec [Num 4; Num 7]
                (mkGame ["Alice"; "Bob"] [[Some Null]; [Some Null]] 1)))))
             false
             (mkGame ["Alice"; "Bob"] [[Some (Num 4)]; [Some (Num 7)]] 2));
      [reflexivity|simpl; lia|reflexivity].
  - apply (submitRound_spec [Num 4; Num 7]
             (mkGame ["Alice"; "Bob"] [[Some Null]; [Some Null]] 1));
      [unfold maxRounds; simpl; lia|reflexivity|simpl; lia].
Defined.

Lemma addPlayer_fields name g :
  scores (snd (addPlayer name g)) = scores g
  ∧ currentRound (snd (addPlayer name g)) = currentRound g.
Proof.
  unfold addPlayer. destruct (decide (trim name = "")); [done|].
  unfold bind, get. by destruct (includes (players g) (trim name)).
Qed.

Lemma setup_only_fields g : setup_only g → scores g = [] ∧ currentRound g = 1.
Proof.
  induction 1 as [|name g _ [IHs IHr]]; [done|].
  destruct (addPlayer_fields name g) as [-> ->]. done.
Qed.

(** C10: with a roster filled by [addPlayer] alone, no game started, and as
    many scores as players, [submitRound] passes its two checks and then
    throws [TypeError] at the first row it looks up: it neither returns nor
    throws one of its two declared errors.  The game is left as it was. *)
Theorem submitRound_before_start (g : Game) (roundScores : list Score) :
  setup_only g →
  players g ≠ [] →
  length roundScores = length (players g) →
  submitRound roundScores g = (Throw TypeError, g).
Proof.
  intros [Hs Hr]%setup_only_fields Hne Hlen.
  rewrite submitRound_unfold, Hs, Hr.
  change (maxRounds <? 1) with false. cbn iota.
  rewrite Hlen, Nat.eqb_refl. cbn [negb]. cbn zeta.
  destruct (players g) as [|p ps] eqn:Hp; [done|].
  destruct roundScores as [|v vs]; [done|]. cbn.
  destruct g; cbn in *. by subst.
Qed.

Lemma submitRound_before_start_witness :
  submitRound [Num 5; Num 9]
    (snd (addPlayer "Bob" (snd (addPlayer " Alice " constructor))))
  = (Throw TypeError,
     snd (addPlayer "Bob" (snd (addPlayer " Alice " constructor)))).
Proof.
  apply (submitRound_before_start
           (snd (addPlayer "Bob" (snd (addPlayer " Alice " constructor))))
           [Num 5; Num 9]).
  - apply setup_add, setup_add, setup_new.
  - vm_compute. discriminate.
  - reflexivity.
Defined.

Lemma recorded_rows g (roundScores : list Score) round :
  length roundScores = length (players g) →
  (∀ (i : nat) score, roundScores !! i = Some score →
     getScore i round g = Ok (Some score)) →
  (length (players g) ≤ length (scores g))%nat
  ∧ ∀ (i : nat) score, roundScores !! i = Some score →
      ∃ row, scores g !! i = Some row ∧ array_get row (round - 1) = Some score.
Proof.
  intros Hlen Hrec.
  assert (∀ (i : nat) score, roundScores !! i = Some score →
            ∃ row, scores g !! i = Some row
                   ∧ array_get row (round - 1) = Some score) as Hrows.
  { intros i score Hi. specialize (Hrec i score Hi). unfold getScore in Hrec.
    destruct (scores g !! i) as [row|]; [|done].
    exists row. split; [done|]. by injection Hrec. }
  split; [|done]. rewrite <- Hlen.
  destruct (decide (length roundScores = 0)%nat) as [->|Hne]; [lia|].
  destruct (lookup_lt_is_Some_2 roundScores (length roundScores - 1))
    as [score Hi]; [lia|].
  destruct (Hrows _ _ Hi) as (row & Hrow%lookup_lt_Some & _). lia.
Qed.

(** C3: from a round between 2 and [maxRounds + 1], undoing the last round
    and submitting again the scores that were recorded for it gives back
    the very game there was, and the second call returns whether that game
    was complete.  [undoLastRound] throws the state error exactly at round 1,
    leaving the game as it was; at any other round, complete or not, with a
    row for every player, it returns, takes the round back by one and
    leaves [null] in every player's cell of that round. *)
Theorem undo_resubmit (g : Game) :
  (∀ roundScores : list Score,
     2 ≤ currentRound g ≤ maxRounds + 1 →
     length roundScores = length (players g) →
     (∀ (i : nat) score, roundScores !! i = Some score →
        getScore i (currentRound g - 1) g = Ok (Some score)) →
     ∃ g1, undoLastRound g = (Ok tt, g1)
           ∧ submitRound roundScores g1 = (Ok (isGameComplete g), g))
  ∧ (currentRound g = 1 ↔
     ∃ msg g', undoLastRound g = (Throw (StateError msg), g'))
  ∧ (currentRound g = 1 →
     undoLastRound g = (Throw (StateError "No rounds to undo"), g))
  ∧ (2 ≤ currentRound g →
     (length (players g) ≤ length (scores g))%nat →
     ∃ g1, undoLastRound g = (Ok tt, g1)
           ∧ players g1 = players g
           ∧ currentRound g1 = currentRound g - 1
           ∧ ∀ i : nat, (i < length (players g))%nat →
               getScore i (currentRound g1) g1 = Ok (Some Null)).
Proof.
  rewrite undoLastRound_unfold. split_and!.
  - intros roundScores Hround Hlen Hrec.
    destruct (recorded_rows g roundScores _ Hlen Hrec) as [Hrows Hcells].
    destruct (decide (currentRound g = 1)) as [|_]; [lia|]. cbn zeta.
    destruct (Nat.leb_spec (length (players g)) (length (scores g))) as [_|];
      [|lia].
    eexists. split; [reflexivity|].
    rewrite submitRound_unfold. cbn [players scores currentRound].
    destruct (Z.ltb_spec maxRounds (currentRound g - 1)) as [|_]; [lia|].
    rewrite Hlen, Nat.eqb_refl. cbn [negb]. cbn zeta.
    rewrite setColumn_length.
    destruct (Nat.leb_spec (length (players g)) (length (scores g))) as [_|];
      [|lia].
    replace (currentRound g - 1 - 1) with (currentRound g - 2) by lia.
    replace (currentRound g - 1 + 1) with (currentRound g) by lia.
    rewrite setColumn_restore.
    + unfold isGameComplete. by destruct g.
    + by rewrite length_fmap.
    + intros i score Hi. destruct (Hcells i score Hi) as (row & ? & Hget).
      exists row. split; [done|].
      by replace (currentRound g - 2) with (currentRound g - 1 - 1) by lia.
  - destruct (decide (currentRound g = 1)) as [Heq|Hne].
    + split; [by eauto|done].
    + split; [done|]. cbn zeta.
      by destruct (_ <=? _)%nat; intros (? & ? & [=]).
  - intros Heq. by destruct (decide (currentRound g = 1)).
  - intros Hround Hrows.
    destruct (decide (currentRound g = 1)) as [|_]; [lia|]. cbn zeta.
    destruct (Nat.leb_spec (length (players g)) (length (scores g))) as [_|];
      [|lia].
    eexists. split; [reflexivity|]. cbn [players currentRound].
    split_and!; try done.
    intros i Hi. unfold getScore. cbn [scores].
    destruct (lookup_lt_is_Some_2 (players g) i Hi) as [p Hp].
    rewrite (setColumn_lookup _ _ _ _ Null)
      by (by rewrite list_lookup_fmap, Hp).
    destruct (lookup_lt_is_Some_2 (scores g) i) as [row ->]; [lia|]. cbn.
    replace (currentRound g - 1 - 1) with (currentRound g - 2) by lia.
    by rewrite array_get_set_eq by lia.
Qed.

Lemma undo_resubmit_witness :
  (∃ g1,
     undoLastRound
       (mkGame ["Alice"; "Bob"]
          [[Some (Num 4); Some (Num 1)]; [Some (Num 7); Some Null]] 3)
     = (Ok tt, g1)
     ∧ submitRound [Num 1; Null] g1
       = (Ok false,
          mkGame ["Alice"; "Bob"]
            [[Some (Num 4); Some (Num 1)]; [Some (Num 7); Some Null]] 3))
  ∧ undoLastRound (mkGame ["Alice"; "Bob"] [[Some Null]; [Some Null]] 1)
    = (Throw (StateError "No rounds to undo"),
       mkGame ["Alice"; "Bob"] [[Some Null]; [Some Null]] 1).
Proof.
  split.
  - apply (proj1 (undo_resubmit
             (mkGame ["Alice"; "Bob"]
                [[Some (Num 4); Some (Num 1)]; [Some (Num 7); Some Null]] 3))
             [Num 1; Null]).
    + unfold maxRounds. simpl. lia.
    + reflexivity.
    + intros [|[|i]] score; simpl; intros [= <-]; reflexivity.
  - apply (undo_resubmit (mkGame ["Alice"; "Bob"] [[Some Null]; [Some Null]] 1)).
    reflexivity.
Defined.

(** *** The winner *)

(** A total is never the negative zero: the sum starts from [+0]. *)
Lemma sum_not_neg_zero {A} (f : A → float) (l : list A) (a : float) :
  is_neg_zero a = false →
  is_neg_zero (foldl (λ sum x, (sum + f x)%float) a l) = false.
Proof.
  revert a. induction l as [|x l IH]; intros a Ha; [done|]. cbn.
  apply IH. apply not_true_is_false. intros Hsum%NumberFacts.add_neg_zero.
  congruence.
Qed.

Lemma rowTotal_not_neg_zero row : is_neg_zero (rowTotal row) = false.
Proof. unfold rowTotal, reduce. by apply sum_not_neg_zero. Qed.

(** A sum of finite numbers may be an infinity, and is never [NaN]. *)
Lemma sum_not_nan {A} (f : A → float) (l : list A) (a : float) :
  PrimFloat.is_nan a = false → Forall (λ x, isFinite (f x) = true) l →
  PrimFloat.is_nan (foldl (λ sum x, (sum + f x)%float) a l) = false.
Proof.
  intros Ha Hl. revert a Ha.
  induction Hl as [|x l Hx _ IH]; intros a Ha; [done|]. cbn.
  apply IH. by apply NumberFacts.add_not_nan.
Qed.

Lemma finite_scores_totals g :
  scores_are_finite g → totals_are_numbers g.
Proof.
  intros Hfinite j _. unfold total, rowTotal, reduce.
  apply sum_not_nan; [done|].
  destruct (scores g !! j) as [row|] eqn:Hrow; [|done].
  unfold scores_are_finite in Hfinite. rewrite Forall_forall in Hfinite.
  assert (row ∈ scores g) as Hin by (by apply list_elem_of_lookup; exists j).
  specialize (Hfinite row Hin). cbn [default]. unfold present.
  clear Hrow Hin.
  induction Hfinite as [|[[|x]|] cells Hcell _ IH]; cbn; try done.
  - by constructor.
  - by constructor.
Qed.

Lemma getAllTotals_from g (k n : nat) :
  (k + n ≤ length (scores g))%nat →
  mapR (λ index, getPlayerTotal index g) (seq k n) = Ok (total g <$> seq k n).
Proof.
  revert k. induction n as [|n IH]; intros k Hk; cbn; [done|].
  unfold getPlayerTotal at 1, total at 1.
  destruct (lookup_lt_is_Some_2 (scores g) k) as [row ->]; [lia|]. cbn.
  rewrite IH by lia. done.
Qed.

Lemma getAllTotals_rows g :
  (length (players g) ≤ length (scores g))%nat →
  getAllTotals g = Ok (total g <$> seq 0 (length (players g))).
Proof. intros. by apply getAllTotals_from. Qed.

Lemma totals_of_rows g :
  total g <$> seq 0 (length (scores g)) = rowTotal <$> scores g.
Proof.
  apply list_eq. intros i. rewrite !list_lookup_fmap. unfold total.
  destruct (scores g !! i) as [row|] eqn:Hi; cbn.
  - rewrite lookup_seq_lt by (by eapply lookup_lt_Some). cbn. by rewrite Hi.
  - rewrite lookup_seq_ge by (by apply lookup_ge_None). done.
Qed.

Lemma totals_lookup g (j : nat) :
  (j < length (players g))%nat →
  (total g <$> seq 0 (length (players g))) !! j = Some (total g j).
Proof. intros Hj. rewrite list_lookup_fmap. by rewrite lookup_seq_lt. Qed.

Lemma totals_not_nan g :
  totals_are_numbers g →
  Forall (λ x, PrimFloat.is_nan x = false)
         (total g <$> seq 0 (length (players g))).
Proof.
  intros Hnum. apply Forall_fmap, Forall_forall.
  intros j [_ Hj]%elem_of_seq. by apply Hnum.
Qed.

(** What [Math.min] and [indexOf] select among the totals of the players
    when none of them is [NaN]. *)
Lemma lowest_total_first_selected g :
  players g ≠ [] →
  totals_are_numbers g →
  let totals := total g <$> seq 0 (length (players g)) in
  lowest_total_first g
    {| name := at_index (players g) (indexOf_number totals (Math_min totals));
       score := Math_min totals;
       index := indexOf_number totals (Math_min totals) |}.
Proof.
  intros Hne Hnum totals.
  assert (totals ≠ []) as Hne'.
  { subst totals. by destruct (players g). }
  pose proof (totals_not_nan g Hnum) as Hnan. fold totals in Hnan.
  destruct (NumberFacts.Math_min_spec totals Hne' Hnan) as [Hm Hmin].
  set (m := Math_min totals) in *.
  assert (PrimFloat.is_nan m = false) as Hmnan.
  { rewrite Forall_forall in Hnan. by apply Hnan. }
  unfold indexOf_number.
  destruct (NumberFacts.indexOf_number_from_spec totals m 0 Hm Hmnan)
    as (i & y & -> & Hi & Hy & Hfirst).
  assert (i < length (players g))%nat as Hlt.
  { apply lookup_lt_Some in Hi. subst totals.
    by rewrite length_fmap, length_seq in Hi. }
  assert (y = total g i) as ->.
  { subst totals. rewrite totals_lookup in Hi by done. congruence. }
  assert (m = total g i) as Hti.
  { symmetry. apply NumberFacts.eqb_eq; [done|apply rowTotal_not_neg_zero|].
    apply list_elem_of_fmap in Hm as (j & -> & _).
    apply rowTotal_not_neg_zero. }
  exists i. cbn. split_and!; try done.
  - unfold at_index. destruct (Z.ltb_spec (0 + Z.of_nat i) 0); [lia|].
    by rewrite Z.add_0_l, Nat2Z.id.
  - intros j Hj. rewrite <- Hti. apply Hmin.
    apply list_elem_of_lookup. exists j. by apply totals_lookup.
  - intros j Hj. rewrite <- Hti.
    apply NumberFacts.leb_neq_ltb.
    + apply Hmin, list_elem_of_lookup. exists j. apply totals_lookup. lia.
    + apply (Hfirst j); [done|]. apply totals_lookup. lia.
Qed.

(** What they select when a total is [NaN]: no player. *)
Lemma no_winner_selected g :
  (∃ j, (j < length (players g))%nat ∧ PrimFloat.is_nan (total g j) = true) →
  let totals := total g <$> seq 0 (length (players g)) in
  {| name := at_index (players g) (indexOf_number totals (Math_min totals));
     score := Math_min totals;
     index := indexOf_number totals (Math_min totals) |}
  = {| name := None; score := nan; index := -1 |}.
Proof.
  intros (j & Hj & Hnan) totals.
  rewrite (NumberFacts.Math_min_nan totals).
  - unfold indexOf_number. by rewrite NumberFacts.indexOf_number_from_nan.
  - exists (total g j). split; [|done].
    apply list_elem_of_lookup. exists j. by apply totals_lookup.
Qed.

(** C1 (amended): [getWinner] returns [null] on every game that is not
    complete.  On a complete game with at least one player, a row for
    every player and no total that is [NaN], it returns a winner whose
    position is the lowest among the players of least total, with that
    player's name and total; the totals are the sums the program computes
    in binary64, compared as it compares them.  No total is [NaN] when every
    cell that holds a number holds a finite one.  When a total is [NaN], it
    returns a winner without name, of score [NaN] and index [-1]. *)
Theorem getWinner_spec (g : Game) :
  (currentRound g ≤ maxRounds → getWinner g = Ok None)
  ∧ (maxRounds < currentRound g →
     players g ≠ [] →
     (length (players g) ≤ length (scores g))%nat →
     totals_are_numbers g →
     ∃ w, getWinner g = Ok (Some w) ∧ lowest_total_first g w)
  ∧ (scores_are_finite g → totals_are_numbers g)
  ∧ (maxRounds < currentRound g →
     (length (players g) ≤ length (scores g))%nat →
     (∃ j, (j < length (players g))%nat
           ∧ PrimFloat.is_nan (total g j) = true) →
     getWinner g = Ok (Some {| name := None; score := nan; index := -1 |})).
Proof.
  unfold getWinner, isGameComplete. split_and!.
  - intros Hopen. by destruct (Z.ltb_spec maxRounds (currentRound g)); [lia|].
  - intros Hdone Hne Hrows Hnum.
    destruct (Z.ltb_spec maxRounds (currentRound g)) as [_|]; [|lia].
    cbn [negb]. rewrite getAllTotals_rows by done. cbn [bindR].
    eexists. split; [reflexivity|]. by apply lowest_total_first_selected.
  - apply finite_scores_totals.
  - intros Hdone Hrows Hnan.
    destruct (Z.ltb_spec maxRounds (currentRound g)) as [_|]; [|lia].
    cbn [negb]. rewrite getAllTotals_rows by done. cbn [bindR].
    do 2 f_equal. by apply no_winner_selected.
Qed.

Lemma getWinner_spec_witness :
  getWinner (mkGame ["Alice"; "Bob"] [[Some (Num 4)]; [Some (Num 4)]] 3)
  = Ok None
  ∧ (∃ w,
      getWinner (mkGame ["Alice"; "Bob"; "Carol"]
                   [[Some (Num 40); Some Null]; [Some (Num 15); Some (Num 5)];
                    [Some (Num 20)]] 12)
      = Ok (Some w)
      ∧ lowest_total_first
          (mkGame ["Alice"; "Bob"; "Carol"]
             [[Some (Num 40); Some Null]; [Some (Num 15); Some (Num 5)];
              [Some (Num 20)]] 12) w)
  ∧ getWinner (mkGame ["Alice"; "Bob"]
                 [[Some (Num 7)]; [Some (Num 3); Some (Num nan)]] 12)
    = Ok (Some {| name := None; score := nan; index := -1 |}).
Proof.
  split_and!.
  - apply (getWinner_spec
             (mkGame ["Alice"; "Bob"] [[Some (Num 4)]; [Some (Num 4)]] 3)).
    unfold maxRounds. simpl. lia.
  - apply (proj1 (proj2 (getWinner_spec
             (mkGame ["Alice"; "Bob"; "Carol"]
                [[Some (Num 40); Some Null]; [Some (Num 15); Some (Num 5)];
                 [Some (Num 20)]] 12)))).
    + unfold maxRounds. simpl. lia.
    + simpl. discriminate.
    + simpl. lia.
    + intros [|[|[|j]]] Hj; [reflexivity..|simpl in Hj; lia].
  - apply (proj2 (proj2 (proj2 (getWinner_spec
             (mkGame ["Alice"; "Bob"]
                [[Some (Num 7)]; [Some (Num 3); Some (Num nan)]] 12))))).
    + unfold maxRounds. simpl. lia.
    + simpl. lia.
    + exists 1%nat. split; [simpl; lia|reflexivity].
Defined.

Lemma reachable_iter op (n : nat) g :
  reachable g → reachable (Nat.iter n (step op) g).
Proof. intros Hg. induction n; cbn; [done|]. by constructor. Qed.

(** C1, as stated, fails on complete games that the operations reach: with
    no player, eleven submissions of no score complete the game and
    [getWinner] returns a winner that is no player; with a player added
    after that, who has no row, [getWinner] throws. *)
Lemma getWinner_not_total :
  reachable (mkGame [] [] 12)
  ∧ isGameComplete (mkGame [] [] 12) = true
  ∧ getWinner (mkGame [] [] 12)
    = Ok (Some {| name := None; score := infinity; index := -1 |})
  ∧ ¬ (∃ w, getWinner (mkGame [] [] 12) = Ok (Some w)
            ∧ lowest_total_first (mkGame [] [] 12) w)
  ∧ reachable (mkGame ["Alice"] [] 12)
  ∧ isGameComplete (mkGame ["Alice"] [] 12) = true
  ∧ getWinner (mkGame ["Alice"] [] 12) = Throw TypeError.
Proof.
  assert (reachable (mkGame [] [] 12)) as Hreach.
  { change (mkGame [] [] 12)
      with (Nat.iter 11 (step (SubmitRound [])) constructor).
    apply reachable_iter. constructor. }
  split_and!; try done.
  - intros (w & _ & i & _ & Hi & _). cbn in Hi. lia.
  - change (mkGame ["Alice"] [] 12)
      with (step (AddPlayer "Alice") (mkGame [] [] 12)).
    by constructor.
Qed.

(** The scenario of section 8 of the specification: Alice and Bob, three
    rounds, then eight rounds of zeros. *)
Example alice_and_bob :
  let started := snd (startNewGame ["Alice"; "Bob"] constructor) in
  let after3 :=
    foldl (λ g roundScores, snd (submitRound roundScores g)) started
      [[Num 10; Num 15]; [Num 20; Num 25]; [Num 30; Num 35]] in
  let after11 := Nat.iter 8 (step (SubmitRound [Num 0; Num 0])) after3 in
  getPlayerTotal 0 after3 = Ok 60%float
  ∧ getPlayerTotal 1 after3 = Ok 75%float
  ∧ currentRound after3 = 4
  ∧ getWinner after3 = Ok None
  ∧ currentRound after11 = 12
  ∧ isGameComplete after11 = true
  ∧ getWinner after11
    = Ok (Some {| name := Some "Alice"; score := 60; index := 0 |}).
Proof. by vm_compute. Qed.

(** *** The invariant *)

Lemma removePlayer_fields i g :
  scores (snd (removePlayer i g)) = scores g
  ∧ currentRound (snd (removePlayer i g)) = currentRound g.
Proof.
  unfold removePlayer, bind, get. by destruct (_ && _).
Qed.

Lemma step_shape op g :
  rows_have_maxRounds_cells g ∧ round_in_range g →
  rows_have_maxRounds_cells (step op g) ∧ round_in_range (step op g).
Proof.
  unfold rows_have_maxRounds_cells, round_in_range.
  intros [Hrows Hround]. destruct op as [name|i|names|vals| |]; cbn [step].
  - by destruct (addPlayer_fields name g) as [-> ->].
  - by destruct (removePlayer_fields i g) as [-> ->].
  - unfold startNewGame. destruct (length names <? 2)%nat; [done|]. cbn.
    split; [|unfold maxRounds; lia].
    apply Forall_forall. by intros row (_ & -> & _)%list_elem_of_fmap.
  - rewrite submitRound_unfold.
    destruct (Z.ltb_spec maxRounds (currentRound g)); [done|].
    destruct (negb _); [done|]. cbn zeta.
    destruct (_ <=? _)%nat; cbn; (split; [|lia]);
      apply setColumn_cells; unfold maxRounds in *; done || lia.
  - rewrite undoLastRound_unfold.
    destruct (decide (currentRound g = 1)); [done|]. cbn.
    split; [|lia]. apply setColumn_cells; unfold maxRounds in *; done || lia.
  - cbn. split; [done|]. unfold maxRounds. lia.
Qed.

Lemma step_rows_match op g :
  ¬ edits_roster op → rows_match_players g → rows_match_players (step op g).
Proof.
  unfold rows_match_players.
  intros Hop Hg. destruct op as [name|i|names|vals| |]; cbn [step];
    try by destruct Hop.
  - unfold startNewGame. destruct (length names <? 2)%nat; [done|]. cbn.
    apply length_map.
  - rewrite submitRound_unfold.
    destruct (maxRounds <? currentRound g); [done|].
    destruct (negb _); [done|]. cbn zeta.
    destruct (_ <=? _)%nat; cbn; by rewrite setColumn_length.
  - rewrite undoLastRound_unfold.
    destruct (decide (currentRound g = 1)); [done|]. cbn.
    by rewrite setColumn_length.
  - done.
Qed.

(** C7 (amended): in every game that the six operations reach, every row has
    exactly 11 cells, the round is between 1 and [maxRounds + 1], and once
    the round is past [maxRounds] every submission is refused with the state
    error.  The number of rows is the number of players in a new game, after
    a [startNewGame] that succeeds and after [reset]; [startNewGame],
    [submitRound], [undoLastRound] and [reset] keep it so, hence it holds in
    every game reached without [addPlayer] and [removePlayer]. *)
Theorem reachable_invariant (g : Game) :
  (reachable g →
   rows_have_maxRounds_cells g ∧ round_in_range g
   ∧ no_submission_once_complete g)
  ∧ (reachable_by (λ op, ¬ edits_roster op) g → rows_match_players g)
  ∧ (∀ op, rows_match_players g → ¬ edits_roster op →
       rows_match_players (step op g))
  ∧ (∀ playerNames, (2 ≤ length playerNames)%nat →
       rows_match_players (step (StartNewGame playerNames) g))
  ∧ rows_match_players (step Reset g).
Proof.
  split_and!.
  - intros Hg.
    assert (rows_have_maxRounds_cells g ∧ round_in_range g) as [Hrows Hround].
    { induction Hg as [|op g _ _ IH]; [|by apply step_shape].
      split; [constructor|]. unfold round_in_range, maxRounds. cbn. lia. }
    split_and!; [done..|].
    intros Hdone roundScores. rewrite submitRound_unfold.
    by destruct (Z.ltb_spec maxRounds (currentRound g)); [|lia].
  - induction 1 as [|op g Hop _ IH]; [done|]. by apply step_rows_match.
  - intros op Hg Hop. by apply step_rows_match.
  - intros names Hlen. unfold rows_match_players. cbn. unfold startNewGame.
    destruct (Nat.ltb_spec (length names) 2); [lia|]. cbn. apply length_map.
  - done.
Qed.

Lemma reachable_invariant_witness :
  (rows_have_maxRounds_cells
     (step (SubmitRound [Num 3; Num 8])
        (step (StartNewGame ["Alice"; "Bob"]) constructor))
   ∧ round_in_range
       (step (SubmitRound [Num 3; Num 8])
          (step (StartNewGame ["Alice"; "Bob"]) constructor))
   ∧ no_submission_once_complete
       (step (SubmitRound [Num 3; Num 8])
          (step (StartNewGame ["Alice"; "Bob"]) constructor)))
  ∧ rows_match_players
      (step (SubmitRound [Num 3; Num 8])
         (step (StartNewGame ["Alice"; "Bob"]) constructor)).
Proof.
  split.
  - apply (proj1 (reachable_invariant
                    (step (SubmitRound [Num 3; Num 8])
                       (step (StartNewGame ["Alice"; "Bob"]) constructor)))).
    apply reachable_step; [exact I|].
    apply reachable_step; [exact I|]. apply reachable_new.
  - apply (proj1 (proj2 (reachable_invariant
                    (step (SubmitRound [Num 3; Num 8])
                       (step (StartNewGame ["Alice"; "Bob"]) constructor))))).
    apply reachable_step; [simpl; tauto|].
    apply reachable_step; [simpl; tauto|]. apply reachable_new.
Defined.

(** C7, as stated, fails: one [addPlayer] on a new game leaves a player and
    no row. *)
Lemma invariant_broken_by_addPlayer :
  reachable (step (AddPlayer "Alice") constructor)
  ∧ step (AddPlayer "Alice") constructor = mkGame ["Alice"] [] 1
  ∧ ¬ invariant (step (AddPlayer "Alice") constructor).
Proof.
  split_and!.
  - apply reachable_step; [done|]. apply reachable_new.
  - done.
  - intros [Hrows _]. discriminate Hrows.
Qed.

End GameFacts.

(** ** The statistics engine *)

Module StatisticsFacts.
Import Statistics StatisticsSpec.

(** *** Sorting *)

Section Sort.
Context {A : Type} (key : A → Z).
#[local] Abbreviation compare := (λ a b : A, key b - key a).

Lemma sort_insert_perm x l : sort_insert compare x l ≡ₚ x :: l.
Proof.
  induction l as [|y l IH]; cbn; [done|].
  destruct (0 <? compare x y); [|done].
  rewrite IH. apply Permutation_swap.
Qed.

Lemma sort_perm l : sort compare l ≡ₚ l.
Proof.
  unfold sort. induction l as [|x l IH]; cbn; [done|].
  by rewrite sort_insert_perm, IH.
Qed.

Lemma sort_insert_sorted x l :
  StronglySorted (λ a b, key b ≤ key a) l →
  StronglySorted (λ a b, key b ≤ key a) (sort_insert compare x l).
Proof.
  induction 1 as [|y l Hl IH Hy]; cbn.
  - by repeat constructor.
  - destruct (Z.ltb_spec 0 (key y - key x)).
    + constructor; [done|].
      rewrite sort_insert_perm. constructor; [lia|done].
    + constructor; [by constructor|].
      constructor; [lia|].
      eapply Forall_impl; [exact Hy|]. cbn. intros z ?. lia.
Qed.

Lemma sort_sorted l : StronglySorted (λ a b, key b ≤ key a) (sort compare l).
Proof.
  unfold sort. induction l as [|x l IH]; cbn; [constructor|].
  by apply sort_insert_sorted.
Qed.

End Sort.

(** *** The cap on the history *)

Lemma take_app_take {A} (n : nat) (l k : list A) :
  take n (l ++ take n k) = take n (l ++ k).
Proof.
  rewrite !take_app. f_equal. rewrite take_take. f_equal. lia.
Qed.

Lemma saveGame_result clock gameState history :
  (Game.scores gameState = [] →
   saveGame clock gameState history = (Throw TypeError, history))
  ∧ (Game.scores gameState ≠ [] →
     ∃ record,
       saveGame clock gameState history
       = (Ok record, take MAX_HISTORY (record :: history))
       ∧ record_of clock gameState record
       ∧ winner record = Some (determineWinner gameState)).
Proof.
  unfold saveGame. destruct (Game.scores gameState) as [|row0 rows] eqn:Hs.
  - split; done.
  - split; [done|]. intros _. cbn [lookup list_lookup].
    eexists. split.
    + unfold bind, modify, get, saveHistory, ret. cbn [length].
      destruct (Nat.ltb_spec MAX_HISTORY (S (length history))); [done|].
      by rewrite take_ge by (cbn; lia).
    + split; [|done]. unfold record_of. cbn. by rewrite Hs.
Qed.

Lemma saveGames_result saves history :
  (length history ≤ MAX_HISTORY)%nat →
  Forall (λ save, Game.scores save.2 ≠ []) saves →
  ∃ records,
    saveGames saves history
    = (Ok records, take MAX_HISTORY (rev records ++ history))
    ∧ Forall2 (λ save record, record_of save.1 save.2 record) saves records.
Proof.
  intros Hcap Hsaves. revert history Hcap.
  induction Hsaves as [|[clock gameState] saves Hs _ IH]; intros history Hcap.
  - exists []. split; [|constructor]. cbn. unfold ret.
    by rewrite take_ge.
  - cbn in Hs.
    destruct (proj2 (saveGame_result clock gameState history) Hs)
      as (record & Hsave & Hrecord & _).
    destruct (IH (take MAX_HISTORY (record :: history)))
      as (records & Hrest & Hrecords).
    { rewrite length_take. lia. }
    exists (record :: records). split; [|by constructor].
    cbn [saveGames]. unfold bind at 1. rewrite Hsave.
    unfold bind at 1. rewrite Hrest. unfold ret.
    rewrite take_app_take. cbn [rev]. by rewrite <- app_assoc.
Qed.

(** *** Import *)

Lemma lacks_field_dec item : {lacks_field item} + {¬ lacks_field item}.
Proof.
  destruct item as [|game|]; cbn; [by left| |by left].
  destruct (players game), (scores game), (winner game);
    (by right; intros [?|[?|?]]) || (left; tauto).
Defined.

Lemma validateItem_result item (history : History) :
  (lacks_field item → ∃ e, validateItem item history = (Throw e, history))
  ∧ (¬ lacks_field item →
     validateItem item history = (Ok tt, history)
     ∧ ∃ game, item = ItemObject game).
Proof.
  destruct item as [|game|]; cbn; try (split; [by eauto|tauto]).
  destruct (players game), (scores game), (winner game); cbn;
    (split; [intros Hno|intros Hok]);
    try (by unfold throw; eauto); try (by unfold ret; eauto);
    try (exfalso; tauto).
  by destruct Hno as [?|[?|?]].
Qed.

Lemma validate_all items (k : nat) (history : History) :
  Forall (λ item, ¬ lacks_field item) items →
  forEach_from (λ game _, validateItem game) items k history
  = (Ok tt, history).
Proof.
  intros Hok. revert k. induction Hok as [|item items Hitem _ IH]; intros k.
  - done.
  - cbn. unfold bind.
    destruct (proj2 (validateItem_result item history) Hitem) as [-> _].
    apply IH.
Qed.

Lemma validate_some items (k : nat) (history : History) :
  Exists lacks_field items →
  ∃ e, forEach_from (λ game _, validateItem game) items k history
       = (Throw e, history).
Proof.
  revert k. induction items as [|item items IH]; intros k Hbad.
  - by apply Exists_nil in Hbad.
  - cbn. unfold bind. destruct (lacks_field_dec item) as [Hitem|Hitem].
    + destruct (proj1 (validateItem_result item history) Hitem) as [e ->].
      by eauto.
    + destruct (proj2 (validateItem_result item history) Hitem) as [-> _].
      apply IH. by apply Exists_cons in Hbad as [?|?].
Qed.

Lemma valid_or_not items :
  Forall (λ item, ¬ lacks_field item) items ∨ Exists lacks_field items.
Proof.
  induction items as [|item items [IH|IH]]; [by left| |by right; right].
  destruct (lacks_field_dec item); [by right; left|by left; constructor].
Qed.

Lemma objects_all items :
  Forall (λ item, ¬ lacks_field item) items →
  ItemObject <$> objects items = items.
Proof.
  induction 1 as [|item items Hitem _ IH]; [done|].
  destruct item as [|game|]; cbn in *; try tauto.
  unfold objects in *. cbn. by rewrite IH.
Qed.

Lemma importHistory_valid JSON_parse jsonData items history :
  JSON_parse jsonData = Some (ParsedArray items) →
  Forall (λ item, ¬ lacks_field item) items →
  importHistory JSON_parse jsonData history
  = (Ok true,
     take MAX_HISTORY
       (sort (λ a b, timestamp b - timestamp a)
          (history
           ++ filter (λ g, negb (includes (map id history) (id g)))
                (objects items)))).
Proof.
  intros Hparse Hok. unfold importHistory, try_catch. rewrite Hparse.
  unfold bind at 1, forEach. by rewrite validate_all.
Qed.

Lemma importHistory_invalid JSON_parse jsonData items history :
  JSON_parse jsonData = Some (ParsedArray items) →
  Exists lacks_field items →
  importHistory JSON_parse jsonData history = (Ok false, history).
Proof.
  intros Hparse Hbad. unfold importHistory, try_catch. rewrite Hparse.
  unfold bind at 1, forEach.
  by destruct (validate_some items 0 history Hbad) as [e ->].
Qed.

(** C8: [importHistory] returns [false], and never throws, when the string
    does not parse, when the parsed value is not an array and when an
    element of the array lacks [players], [scores] or [winner]; the history
    is then as it was.  Otherwise it returns [true] and the history becomes
    the first 50 records of a list that holds the records there were
    together with the imported records whose [id] no record had, and that
    is sorted by timestamp, descending. *)
Theorem importHistory_spec (JSON_parse : string → option Parsed)
  (jsonData : string) (history : History) :
  (JSON_parse jsonData = None →
   importHistory JSON_parse jsonData history = (Ok false, history))
  ∧ (JSON_parse jsonData = Some ParsedOther →
     importHistory JSON_parse jsonData history = (Ok false, history))
  ∧ (∀ items,
       JSON_parse jsonData = Some (ParsedArray items) →
       Exists lacks_field items →
       importHistory JSON_parse jsonData history = (Ok false, history))
  ∧ (∀ items,
       JSON_parse jsonData = Some (ParsedArray items) →
       Forall (λ item, ¬ lacks_field item) items →
       ∃ merged,
         importHistory JSON_parse jsonData history
         = (Ok true, take MAX_HISTORY merged)
         ∧ merged ≡ₚ history
                     ++ filter (λ game, id game ∉ id <$> history)
                          (objects items)
         ∧ ItemObject <$> objects items = items
         ∧ newest_first merged)
  ∧ (∃ result : bool,
       fst (importHistory JSON_parse jsonData history) = Ok result
       ∧ (result = false →
          snd (importHistory JSON_parse jsonData history) = history)).
Proof.
  destruct (JSON_parse jsonData) as [[items|]|] eqn:Hparse.
  2,3: unfold importHistory, try_catch; rewrite Hparse;
       split_and!; try done; by exists false.
  destruct (valid_or_not items) as [Hok|Hbad].
  - rewrite (importHistory_valid _ _ _ _ Hparse Hok).
    split_and!; try done.
    + intros items' [= <-] Hbad. exfalso.
      apply Exists_exists in Hbad as (item & Hin & Hitem).
      by eapply Forall_forall in Hok.
    + intros items' [= <-] _.
      eexists. split; [reflexivity|]. split_and!.
      * rewrite (sort_perm timestamp). apply Permutation_app_head.
        erewrite list_filter_iff; [done|].
        intros game. unfold includes. cbn.
        by rewrite negb_True, bool_decide_spec.
      * by apply objects_all.
      * apply (sort_sorted timestamp).
    + by exists true.
  - rewrite (importHistory_invalid _ _ _ _ Hparse Hbad).
    split_and!; try done.
    + intros items' [= <-] Hok. exfalso.
      apply Exists_exists in Hbad as (item & Hin & Hitem).
      by eapply Forall_forall in Hok.
    + by exists false.
Qed.

Lemma importHistory_spec_witness :
  importHistory (λ _, None) "{" [] = (Ok false, [])
  ∧ importHistory (λ _, Some ParsedOther) "{}" [] = (Ok false, [])
  ∧ importHistory (λ _, Some (ParsedArray [ItemNull])) "[null]" []
    = (Ok false, [])
  ∧ ∃ merged,
      importHistory
        (λ _, Some (ParsedArray
                      [ItemObject
                         (mkGameRecord 7 "" (Some []) (Some []) 
                            (Some (Game.mkWinner None infinity (-1))) 0 7)]))
        "[{}]" []
      = (Ok true, take MAX_HISTORY merged)
      ∧ merged ≡ₚ []
                  ++ filter (λ game, id game ∉ id <$> [])
                       (objects
                          [ItemObject
                             (mkGameRecord 7 "" (Some []) (Some [])
                                (Some (Game.mkWinner None infinity (-1)))
                                0 7)])
      ∧ ItemObject
          <$> objects
                [ItemObject
                   (mkGameRecord 7 "" (Some []) (Some [])
                      (Some (Game.mkWinner None infinity (-1))) 0 7)]
        = [ItemObject
             (mkGameRecord 7 "" (Some []) (Some [])
                (Some (Game.mkWinner None infinity (-1))) 0 7)]
      ∧ newest_first merged.
Proof.
  split_and!.
  - apply (proj1 (importHistory_spec (λ _, None) "{" [])). reflexivity.
  - apply (proj1 (proj2 (importHistory_spec (λ _, Some ParsedOther) "{}" []))).
    reflexivity.
  - apply (proj1 (proj2 (proj2
             (importHistory_spec (λ _, Some (ParsedArray [ItemNull]))
                "[null]" []))) [ItemNull]); [reflexivity|].
    apply Exists_cons_hd. exact I.
  - apply (proj1 (proj2 (proj2 (proj2
             (importHistory_spec
                (λ _, Some (ParsedArray
                              [ItemObject
                                 (mkGameRecord 7 "" (Some []) (Some [])
                                    (Some (Game.mkWinner None infinity (-1)))
                                    0 7)]))
                "[{}]" []))))); try reflexivity.
    constructor; [|constructor].
    simpl. intros [H|[H|H]]; discriminate H.
Defined.

Lemma step_capped JSON_parse op history :
  (length history ≤ MAX_HISTORY)%nat →
  (length (step JSON_parse op history) ≤ MAX_HISTORY)%nat.
Proof.
  intros Hcap. destruct op as [clock gameState|gameId| |jsonData]; cbn [step].
  - destruct (decide (Game.scores gameState = [])) as [Hs|Hs].
    + by rewrite (proj1 (saveGame_result clock gameState history) Hs).
    + destruct (proj2 (saveGame_result clock gameState history) Hs)
        as (record & -> & _).
      cbn [snd]. rewrite length_take. lia.
  - cbn. etransitivity; [apply length_filter|done].
  - cbn. lia.
  - destruct (JSON_parse jsonData) as [[items|]|] eqn:Hparse.
    2,3: by unfold importHistory, try_catch; rewrite Hparse.
    destruct (valid_or_not items) as [Hok|Hbad].
    + rewrite (importHistory_valid _ _ _ _ Hparse Hok). cbn [snd].
      rewrite length_take. lia.
    + by rewrite (importHistory_invalid _ _ _ _ Hparse Hbad).
Qed.

(** C6: [saveGame], on a game with at least one row, puts the new record in
    front of the history and keeps the first 50 records, so that the length
    is the least of the length before plus one and 50.  [importHistory]
    keeps at most 50 records of what it merged.  From a history of at most
    50 records every operation leaves at most 50; games saved one after the
    other leave the 50 saved last in front, the last saved first, and 55
    games saved into an empty history leave exactly the last 50. *)
Theorem history_capped (JSON_parse : string → option Parsed)
  (history : History) :
  (∀ clock gameState,
     Game.scores gameState ≠ [] →
     ∃ record history',
       saveGame clock gameState history = (Ok record, history')
       ∧ record_of clock gameState record
       ∧ history' = record :: take (MAX_HISTORY - 1) history
       ∧ length history' = Nat.min (length history + 1) MAX_HISTORY)
  ∧ (∀ jsonData history',
       importHistory JSON_parse jsonData history = (Ok true, history') →
       (length history' ≤ MAX_HISTORY)%nat)
  ∧ ((length history ≤ MAX_HISTORY)%nat →
     (∀ op, (length (step JSON_parse op history) ≤ MAX_HISTORY)%nat)
     ∧ (∀ saves,
          Forall (λ save, Game.scores save.2 ≠ []) saves →
          ∃ records,
            saveGames saves history
            = (Ok records, take MAX_HISTORY (rev records ++ history))
            ∧ Forall2 (λ save record, record_of save.1 save.2 record)
                saves records))
  ∧ (∀ saves,
       length saves = 55%nat →
       Forall (λ save, Game.scores save.2 ≠ []) saves →
       ∃ records,
         saveGames saves [] = (Ok records, rev (drop 5 records))
         ∧ length (rev (drop 5 records)) = 50%nat
         ∧ Forall2 (λ save record, record_of save.1 save.2 record)
             saves records).
Proof.
  split_and!.
  - intros clock gameState Hs.
    destruct (proj2 (saveGame_result clock gameState history) Hs)
      as (record & Hsave & Hrecord & _).
    exists record, (record :: take (MAX_HISTORY - 1) history).
    split_and!; [done..|]. cbn [length]. rewrite length_take.
    unfold MAX_HISTORY. lia.
  - intros jsonData history' Himport.
    destruct (JSON_parse jsonData) as [[items|]|] eqn:Hparse.
    2,3: by unfold importHistory, try_catch in Himport; rewrite Hparse in Himport.
    destruct (valid_or_not items) as [Hok|Hbad].
    + rewrite (importHistory_valid _ _ _ _ Hparse Hok) in Himport.
      injection Himport as <-. rewrite length_take. lia.
    + by rewrite (importHistory_invalid _ _ _ _ Hparse Hbad) in Himport.
  - intros Hcap. split.
    + intros op. by apply step_capped.
    + intros saves. by apply saveGames_result.
  - intros saves Hlen Hsaves.
    destruct (saveGames_result saves [] ltac:(cbn; lia) Hsaves)
      as (records & Hsave & Hrecords).
    apply Forall2_length in Hrecords as Hlen'.
    exists records. split_and!; [|by rewrite length_rev, length_drop; lia|done].
    rewrite Hsave, app_nil_r. f_equal.
    rewrite <- (take_drop 5 records) at 1.
    rewrite rev_app_distr, take_app_length'; [done|].
    rewrite length_rev, length_drop. unfold MAX_HISTORY. lia.
Qed.

Lemma history_capped_witness :
  (∃ record history',
     saveGame (mkClock 8 "" 9) (Game.mkGame ["Alice"; "Bob"] [[]; []] 12) []
     = (Ok record, history')
     ∧ record_of (mkClock 8 "" 9) (Game.mkGame ["Alice"; "Bob"] [[]; []] 12)
         record
     ∧ history' = record :: take (MAX_HISTORY - 1) []
     ∧ length history' = Nat.min (length (@nil GameRecord) + 1) MAX_HISTORY)
  ∧ (length (step (λ _, None) ClearHistory []) ≤ MAX_HISTORY)%nat.
Proof.
  split.
  - apply (proj1 (history_capped (λ _, None) [])
             (mkClock 8 "" 9) (Game.mkGame ["Alice"; "Bob"] [[]; []] 12)).
    simpl. discriminate.
  - apply (proj1 (proj2 (proj2 (history_capped (λ _, None) [])))).
    unfold MAX_HISTORY. simpl. lia.
Defined.

(** *** Player statistics *)

Lemma filterR_total {A} (f : A → Result bool) (fb : A → bool) (l : list A) :
  (∀ x, x ∈ l → f x = Ok (fb x)) → filterR f l = Ok (filter fb l).
Proof.
  induction l as [|x l IH]; intros Hf; [done|]. cbn [filterR].
  rewrite (Hf x) by left. rewrite IH by (intros y ?; apply Hf; by right).
  cbn [bindR]. rewrite filter_cons. by destruct (fb x).
Qed.

Lemma mapR_total {A B} (f : A → Result B) (l : list A) :
  (∀ x, x ∈ l → ∃ y, f x = Ok y) →
  ∃ ys, mapR f l = Ok ys ∧ length ys = length l.
Proof.
  induction l as [|x l IH]; intros Hf; [by exists []|]. cbn [mapR].
  destruct (Hf x) as [y ->]; [by left|].
  destruct IH as (ys & -> & Hlen); [intros z ?; apply Hf; by right|].
  exists (y :: ys). cbn. by rewrite Hlen.
Qed.

Lemma indexOf_from_elem {A} `{EqDecision A} (l : list A) (x : A) (k : Z) :
  x ∈ l →
  k ≤ indexOf_from l x k < k + Z.of_nat (length l).
Proof.
  revert k. induction l as [|y l IH]; intros k Hx; [by apply elem_of_nil in Hx|].
  cbn. destruct (decide (y = x)) as [->|Hne]; [lia|].
  apply elem_of_cons in Hx as [->|Hx]; [done|].
  specialize (IH (k + 1) Hx). lia.
Qed.

Lemma played_spec name record :
  played name record ↔ ∃ ps, players record = Some ps ∧ name ∈ ps.
Proof.
  unfold played, includes. destruct (players record) as [ps|].
  - rewrite bool_decide_spec. split; [by eauto|]. by intros (? & [= <-] & ?).
  - split; [done|]. by intros (? & [=] & _).
Qed.

(** The program prints the exact tenths for every count of wins out of at
    most 50 games. *)
Lemma prints_exact_tenths_upto_50 (wins total : nat) :
  (wins ≤ total)%nat → (1 ≤ total ≤ 50)%nat →
  printed_rate wins total = Tenths false (exact_tenths wins total).
Proof.
  intros Hwins Htotal.
  assert (forallb prints_exact_tenths (seq 1 50) = true) as Htable
    by (vm_compute; reflexivity).
  rewrite forallb_forall in Htable.
  specialize (Htable total). rewrite in_seq in Htable.
  specialize (Htable ltac:(lia)). unfold prints_exact_tenths in Htable.
  rewrite forallb_forall in Htable.
  specialize (Htable wins). rewrite in_seq in Htable.
  specialize (Htable ltac:(lia)).
  destruct (printed_rate wins total) as [[] n|]; try done.
  by apply Z.eqb_eq in Htable as ->.
Qed.

Lemma getPlayerStats_none name history :
  (∀ record, record ∈ history →
     ∃ ps, players record = Some ps ∧ name ∉ ps) →
  getPlayerStats name history = Ok None.
Proof.
  intros Hnone. unfold getPlayerStats.
  rewrite (filterR_total _ (played name)).
  - cbn [bindR].
    destruct (filter (played name) history) as [|record games] eqn:Hgames;
      [reflexivity|].
    assert (record ∈ filter (played name) history) as Hin
      by (rewrite Hgames; left).
    apply list_elem_of_filter in Hin as [Hplayed Hin].
    apply played_spec in Hplayed as (ps & Hps & Hname).
    destruct (Hnone record Hin) as (ps' & Hps' & Hname'). congruence.
  - intros record Hin. destruct (Hnone record Hin) as (ps & Hps & _).
    unfold played. by rewrite Hps.
Qed.

Lemma getPlayerStats_some name history :
  Forall well_formed history →
  (∃ record, record ∈ history ∧ played name record) →
  ∃ st avg best worst,
    getPlayerStats name history = Ok (Some st)
    ∧ st = {| playerName := name;
              totalGames := length (filter (played name) history);
              wins := length (filter (won name)
                                (filter (played name) history));
              losses := Z.of_nat (length (filter (played name) history))
                        - Z.of_nat (length (filter (won name)
                                              (filter (played name) history)));
              winRate :=
                parseFloat
                  (printed_rate
                     (length (filter (won name)
                                (filter (played name) history)))
                     (length (filter (played name) history)));
              avgScore := avg;
              bestScore := best;
              worstScore := worst |}.
Proof.
  intros Hwf (record & Hin & Hplayed). unfold getPlayerStats.
  rewrite Forall_forall in Hwf.
  rewrite (filterR_total _ (played name)).
  2: { intros r Hr. destruct (Hwf r Hr) as (ps & sc & w & Hps & _).
       unfold played. by rewrite Hps. }
  cbn [bindR].
  set (playerGames := filter (played name) history).
  assert (record ∈ playerGames) as Hin'
    by (by apply list_elem_of_filter).
  destruct (Nat.eqb_spec (length playerGames) 0) as [Hnil|_].
  { apply nil_length_inv in Hnil. rewrite Hnil in Hin'.
    by apply elem_of_nil in Hin'. }
  rewrite (filterR_total _ (won name)).
  2: { intros r [_ Hr]%list_elem_of_filter.
       destruct (Hwf r Hr) as (ps & sc & w & _ & _ & Hw & _).
       unfold won. by rewrite Hw. }
  cbn [bindR].
  edestruct (mapR_total (A := GameRecord) (B := float)) as (allScores & -> & _);
    [|cbn [bindR]; by repeat eexists].
  intros r [Hr1 Hr]%list_elem_of_filter. cbn beta.
  destruct (Hwf r Hr) as (ps & sc & w & Hps & Hsc & _ & Hlen).
  rewrite Hps, Hsc.
  apply played_spec in Hr1 as (ps' & Hps' & Hname).
  assert (ps' = ps) as -> by congruence.
  pose proof (indexOf_from_elem ps name 0 Hname) as Hidx.
  unfold at_index, indexOf.
  destruct (Z.ltb_spec (indexOf_from ps name 0) 0); [lia|].
  destruct (lookup_lt_is_Some_2 sc (Z.to_nat (indexOf_from ps name 0)))
    as [row ->]; [lia|].
  by eexists.
Qed.

(** C9: [getPlayerStats] returns [null] when no record's player list holds
    the name.  When some record's list holds it, and the records are well
    formed, it returns statistics in which the games are the records whose
    list holds the name, the wins are those of them whose stored winner name
    is the name, the losses are the games that are not wins, and the win
    rate is what [toFixed(1)] prints of the percentage: up to 50 games that
    is the percentage rounded to tenths, halves up; 2 wins in 4 games give
    exactly 50. *)
Theorem getPlayerStats_spec (name : string) (history : History) :
  ((∀ record, record ∈ history →
      ∃ ps, players record = Some ps ∧ name ∉ ps) →
   getPlayerStats name history = Ok None)
  ∧ (Forall well_formed history →
     (∃ record, record ∈ history ∧ played name record) →
     ∃ st,
       getPlayerStats name history = Ok (Some st)
       ∧ totalGames st = length (filter (played name) history)
       ∧ wins st = length (filter (won name) (filter (played name) history))
       ∧ losses st = Z.of_nat (totalGames st) - Z.of_nat (wins st)
       ∧ winRate st = parseFloat (printed_rate (wins st) (totalGames st))
       ∧ ((totalGames st ≤ 50)%nat →
          winRate st
          = PrimFloat.div
              (number_of_Z (exact_tenths (wins st) (totalGames st))) 10)
       ∧ (totalGames st = 4%nat → wins st = 2%nat → winRate st = 50%float)).
Proof.
  split; [apply getPlayerStats_none|].
  intros Hwf Hplayed.
  destruct (getPlayerStats_some name history Hwf Hplayed)
    as (st & avg & best & worst & Hstats & ->).
  eexists. split; [exact Hstats|]. cbn [totalGames wins losses winRate].
  split_and!; try done.
  - intros Hcap. rewrite prints_exact_tenths_upto_50; [done|apply length_filter|].
    split; [|done].
    destruct Hplayed as (record & Hin & Hrecord).
    assert (record ∈ filter (played name) history) as Hin'
      by (by apply list_elem_of_filter).
    destruct (filter (played name) history); [by apply elem_of_nil in Hin'|].
    cbn. lia.
  - by intros -> ->.
Qed.

Lemma getPlayerStats_spec_witness :
  getPlayerStats "Carol" four_games = Ok None
  ∧ ∃ st,
      getPlayerStats "Alice" four_games = Ok (Some st)
      ∧ totalGames st = length (filter (played "Alice") four_games)
      ∧ wins st
        = length (filter (won "Alice") (filter (played "Alice") four_games))
      ∧ losses st = Z.of_nat (totalGames st) - Z.of_nat (wins st)
      ∧ winRate st = parseFloat (printed_rate (wins st) (totalGames st))
      ∧ ((totalGames st ≤ 50)%nat →
         winRate st
         = PrimFloat.div
             (number_of_Z (exact_tenths (wins st) (totalGames st))) 10)
      ∧ (totalGames st = 4%nat → wins st = 2%nat → winRate st = 50%float).
Proof.
  split.
  - apply (proj1 (getPlayerStats_spec "Carol" four_games)).
    apply Forall_forall.
    let games := eval vm_compute in four_games in change four_games with games.
    do 4 (constructor;
          [exists ["Alice"; "Bob"]; split; [reflexivity|];
           rewrite !elem_of_cons, elem_of_nil;
           intros [H|[H|H]]; [discriminate H..|exact H]|]).
    constructor.
  - apply (proj2 (getPlayerStats_spec "Alice" four_games)).
    + let games := eval vm_compute in four_games in
      change four_games with games.
      do 4 (constructor;
            [eexists _, _, _; split_and!; [reflexivity..|simpl; lia]|]).
      constructor.
    + let games := eval vm_compute in four_games in
      change four_games with games.
      eexists. split; [by left|]. vm_compute. exact I.
Defined.

End StatisticsFacts.

(** ** The two computations of the winner *)

Module WinnerAgreement.
Import Game GameSpec.

Lemma determineWinner_totals gameState :
  length (scores gameState) = length (players gameState) →
  Statistics.determineWinner gameState
  = let totals := total gameState <$> seq 0 (length (players gameState)) in
    {| name := at_index (players gameState)
                 (indexOf_number totals (Math_min totals));
       score := Math_min totals;
       index := indexOf_number totals (Math_min totals) |}.
Proof.
  intros Hlen. rewrite <- Hlen, GameFacts.totals_of_rows. reflexivity.
Qed.

(** C5: on a snapshot with at least one player and as many rows as players,
    the winner that [determineWinner] derives, which is the winner stored
    in the record that [saveGame] makes, is the winner [getWinner] returns
    on the complete game of these players and rows, in name, score and
    index; when no total is [NaN] it is the player of least total at the
    lowest position. *)
Theorem determineWinner_agrees (gameState : Game) (round : Z) :
  players gameState ≠ [] →
  length (scores gameState) = length (players gameState) →
  maxRounds < round →
  getWinner (mkGame (players gameState) (scores gameState) round)
  = Ok (Some (Statistics.determineWinner gameState))
  ∧ (totals_are_numbers gameState →
     lowest_total_first gameState (Statistics.determineWinner gameState))
  ∧ ∀ clock history,
      ∃ record,
        fst (Statistics.saveGame clock (exportState gameState) history)
        = Ok record
        ∧ Statistics.winner record
          = Some (Statistics.determineWinner gameState).
Proof.
  intros Hne Hlen Hround. split_and!.
  - unfold getWinner, isGameComplete. cbn [currentRound].
    destruct (Z.ltb_spec maxRounds round) as [_|]; [|lia]. cbn [negb].
    rewrite GameFacts.getAllTotals_rows by (cbn; lia). cbn [bindR players].
    by rewrite determineWinner_totals.
  - intros Hnum. rewrite determineWinner_totals by done.
    by apply GameFacts.lowest_total_first_selected.
  - intros clock history. unfold exportState.
    destruct (proj2 (StatisticsFacts.saveGame_result clock gameState history))
      as (record & -> & _ & Hwinner).
    + intros Hs. rewrite Hs in Hlen. by destruct (players gameState).
    + by exists record.
Qed.

Lemma determineWinner_agrees_witness :
  getWinner
    (mkGame ["Alice"; "Bob"]
       [[Some (Num 40); Some Null]; [Some (Num 15); Some (Num 25)]] 12)
  = Ok (Some (Statistics.determineWinner
                (mkGame ["Alice"; "Bob"]
                   [[Some (Num 40); Some Null];
                    [Some (Num 15); Some (Num 25)]] 12)))
  ∧ Statistics.determineWinner
      (mkGame ["Alice"; "Bob"]
         [[Some (Num 40); Some Null]; [Some (Num 15); Some (Num 25)]] 12)
    = {| name := Some "Alice"; score := 40; index := 0 |}.
Proof.
  split; [|reflexivity].
  apply (determineWinner_agrees
           (mkGame ["Alice"; "Bob"]
              [[Some (Num 40); Some Null]; [Some (Num 15); Some (Num 25)]] 12)
           12).
  - simpl. discriminate.
  - reflexivity.
  - unfold maxRounds. lia.
Defined.

End WinnerAgreement.

(** ** More of the game engine *)

Module GameLaws.
Import Game GameSpec.

Lemma startNewGame_started playerNames g :
  (2 ≤ length playerNames)%nat →
  startNewGame playerNames g
  = (Ok tt,
     mkGame playerNames
       (map (λ _, replicate (Z.to_nat maxRounds) (Some Null)) playerNames) 1).
Proof.
  intros Hlen. unfold startNewGame.
  by destruct (Nat.ltb_spec (length playerNames) 2); [lia|].
Qed.

Lemma row_fresh : row_played_upto 1 (replicate (Z.to_nat maxRounds) (Some Null)).
Proof.
  split; [apply length_replicate|]. intros c Hc. exists Null.
  split; [by apply lookup_replicate_2|done].
Qed.

Lemma row_after_submit round row v :
  1 ≤ round ≤ maxRounds →
  row_played_upto round row →
  row_played_upto (round + 1) (array_set row (round - 1) v).
Proof.
  unfold row_played_upto, maxRounds. intros Hround [Hlen Hcells].
  rewrite array_set_in_range by lia.
  split; [by rewrite length_insert|]. intros c Hc.
  destruct (decide (c = Z.to_nat (round - 1))) as [->|Hne].
  - exists v. rewrite list_lookup_insert_eq by lia. split; [done|lia].
  - destruct (Hcells c Hc) as (s & Hs & Hnull). exists s.
    rewrite list_lookup_insert_ne by done. split; [done|].
    intros ?. apply Hnull. lia.
Qed.

Lemma row_after_undo round row :
  2 ≤ round ≤ maxRounds + 1 →
  row_played_upto round row →
  row_played_upto (round - 1) (array_set row (round - 2) Null).
Proof.
  unfold row_played_upto, maxRounds. intros Hround [Hlen Hcells].
  rewrite array_set_in_range by lia.
  split; [by rewrite length_insert|]. intros c Hc.
  destruct (decide (c = Z.to_nat (round - 2))) as [->|Hne].
  - exists Null. by rewrite list_lookup_insert_eq by lia.
  - destruct (Hcells c Hc) as (s & Hs & Hnull). exists s.
    rewrite list_lookup_insert_ne by done. split; [done|].
    intros ?. apply Hnull. lia.
Qed.

Lemma setColumn_Forall (P Q : list (option Score) → Prop) col vals rows :
  length vals = length rows →
  Forall (λ v, ∀ row, P row → Q (array_set row col v)) vals →
  Forall P rows → Forall Q (setColumn col vals rows).
Proof.
  intros Hlen HPQ Hrows. revert vals Hlen HPQ.
  induction Hrows as [|row rows Hrow _ IH]; intros [|v vals] Hlen HPQ;
    cbn in *; try done.
  apply Forall_cons in HPQ as [Hv HPQ].
  constructor; [by apply Hv|]. apply IH; [lia|done].
Qed.

Lemma submitRound_shaped roundScores g :
  well_shaped g →
  currentRound g ≤ maxRounds →
  length roundScores = length (players g) →
  submitRound roundScores g
  = (Ok (maxRounds <? currentRound g + 1),
     mkGame (players g)
       (setColumn (currentRound g - 1) roundScores (scores g))
       (currentRound g + 1)).
Proof.
  intros (_ & Hrows & _) Hround Hlen. rewrite GameFacts.submitRound_unfold.
  destruct (Z.ltb_spec maxRounds (currentRound g)); [lia|].
  rewrite Hlen, Nat.eqb_refl. cbn [negb]. cbn zeta.
  by destruct (Nat.leb_spec (length (players g)) (length (scores g))); [|lia].
Qed.

Lemma undoLastRound_shaped g :
  well_shaped g →
  currentRound g ≠ 1 →
  undoLastRound g
  = (Ok tt,
     mkGame (players g)
       (setColumn (currentRound g - 2) ((λ _, Null) <$> players g) (scores g))
       (currentRound g - 1)).
Proof.
  intros (_ & Hrows & _) Hround. rewrite GameFacts.undoLastRound_unfold.
  destruct (decide (currentRound g = 1)); [done|]. cbn zeta.
  by destruct (Nat.leb_spec (length (players g)) (length (scores g))); [|lia].
Qed.

Lemma submitRound_keeps_shape roundScores g :
  well_shaped g → well_shaped (snd (submitRound roundScores g)).
Proof.
  intros Hg. rewrite GameFacts.submitRound_unfold.
  destruct (Z.ltb_spec maxRounds (currentRound g)) as [|Hround]; [done|].
  destruct (Nat.eqb_spec (length roundScores) (length (players g)))
    as [Hlen|]; [|done].
  cbn [negb]. cbn zeta. destruct Hg as (Hn & Hrows & Hrange & Hcells).
  destruct (Nat.leb_spec (length roundScores) (length (scores g))); [|lia].
  unfold well_shaped. cbn.
  split_and!; [done|by rewrite GameFacts.setColumn_length|lia|lia|].
  eapply setColumn_Forall; [lia| |exact Hcells].
  apply Forall_forall. intros v _ row Hrow.
  apply row_after_submit; [lia|done].
Qed.

Lemma undoLastRound_keeps_shape g :
  well_shaped g → well_shaped (snd (undoLastRound g)).
Proof.
  intros Hg. rewrite GameFacts.undoLastRound_unfold.
  destruct (decide (currentRound g = 1)); [done|].
  destruct Hg as (Hn & Hrows & Hrange & Hcells). unfold well_shaped. cbn.
  split_and!; [done|by rewrite GameFacts.setColumn_length|lia|lia|].
  eapply setColumn_Forall; [by rewrite length_fmap| |exact Hcells].
  apply Forall_forall. intros v (_ & -> & _)%list_elem_of_fmap row Hrow.
  apply row_after_undo; [lia|done].
Qed.

Lemma in_play_shaped g : in_play g → well_shaped g.
Proof.
  induction 1 as [names g Hlen|v g _ IH|g _ IH].
  - rewrite startNewGame_started by done. unfold well_shaped. cbn.
    split_and!; [done|apply length_map|lia|unfold maxRounds; lia|].
    apply Forall_forall. intros row (_ & -> & _)%list_elem_of_fmap.
    apply row_fresh.
  - by apply submitRound_keeps_shape.
  - by apply undoLastRound_keeps_shape.
Qed.

(** X1: in the play phase there are at least two players, one row for each,
    and the round is between 1 and 12; every cell of every player reads as
    a number or [null], never as [undefined], and the cells of the rounds
    that were not played yet read [null]. *)
Theorem play_phase_shape (g : Game) :
  in_play g →
  (2 ≤ length (players g))%nat
  ∧ length (scores g) = length (players g)
  ∧ 1 ≤ currentRound g ≤ maxRounds + 1
  ∧ ∀ (i : nat) round,
      (i < length (players g))%nat → 1 ≤ round ≤ maxRounds →
      ∃ s, getScore i round g = Ok (Some s)
           ∧ (currentRound g ≤ round → s = Null).
Proof.
  intros (Hn & Hrows & Hround & Hcells)%in_play_shaped.
  split_and!; try done; try lia.
  intros i round Hi Hr. unfold getScore.
  destruct (lookup_lt_is_Some_2 (scores g) i) as [row Hrow]; [lia|].
  rewrite Hrow. rewrite Forall_forall in Hcells.
  destruct (Hcells row) as [Hlen Hcell];
    [by apply list_elem_of_lookup; exists i|].
  unfold maxRounds in *.
  destruct (Hcell (Z.to_nat (round - 1))) as (s & Hs & Hnull); [lia|].
  exists s. unfold array_get.
  destruct (Z.ltb_spec (round - 1) 0); [lia|]. rewrite Hs.
  split; [done|]. intros ?. apply Hnull. lia.
Qed.

Lemma play_phase_shape_witness :
  (2 ≤ length (players (snd (startNewGame ["Alice"; "Bob"] constructor))))%nat
  ∧ length (scores (snd (startNewGame ["Alice"; "Bob"] constructor)))
    = length (players (snd (startNewGame ["Alice"; "Bob"] constructor)))
  ∧ 1 ≤ currentRound (snd (startNewGame ["Alice"; "Bob"] constructor))
      ≤ maxRounds + 1
  ∧ ∀ (i : nat) round,
      (i < length (players (snd (startNewGame ["Alice"; "Bob"] constructor))))%nat →
      1 ≤ round ≤ maxRounds →
      ∃ s, getScore i round (snd (startNewGame ["Alice"; "Bob"] constructor))
           = Ok (Some s)
           ∧ (currentRound (snd (startNewGame ["Alice"; "Bob"] constructor))
              ≤ round → s = Null).
Proof.
  apply (play_phase_shape (snd (startNewGame ["Alice"; "Bob"] constructor))).
  apply play_start. simpl. lia.
Defined.

(** X2: in the play phase [submitRound] and [undoLastRound] never throw
    [TypeError]: [submitRound] returns when the game is not complete and the
    number of scores is the number of players, [undoLastRound] returns at
    every round but the first, and when either throws, the game is left
    exactly as it was. *)
Theorem play_failures_atomic (g : Game) :
  in_play g →
  (∀ roundScores,
     (currentRound g ≤ maxRounds → length roundScores = length (players g) →
      ∃ complete g', submitRound roundScores g = (Ok complete, g'))
     ∧ (∀ e g', submitRound roundScores g = (Throw e, g') →
          g' = g ∧ e ≠ TypeError))
  ∧ (currentRound g ≠ 1 → ∃ g', undoLastRound g = (Ok tt, g'))
  ∧ (∀ e g', undoLastRound g = (Throw e, g') →
       g' = g ∧ e = StateError "No rounds to undo").
Proof.
  intros Hg%in_play_shaped. split_and!.
  - intros roundScores. split.
    + intros Hround Hlen. rewrite submitRound_shaped by done. by eauto.
    + intros e g'. rewrite GameFacts.submitRound_unfold.
      destruct (Z.ltb_spec maxRounds (currentRound g)) as [|Hround];
        [by intros [= <- <-]|].
      destruct (Nat.eqb_spec (length roundScores) (length (players g)))
        as [Hlen|]; [|by intros [= <- <-]].
      cbn [negb]. cbn zeta. destruct Hg as (_ & Hrows & _).
      by destruct (Nat.leb_spec (length roundScores) (length (scores g)));
        [|lia].
  - intros Hround. rewrite undoLastRound_shaped by done. by eauto.
  - intros e g'. rewrite GameFacts.undoLastRound_unfold.
    destruct (decide (currentRound g = 1)); [by intros [= <- <-]|].
    cbn zeta. destruct Hg as (_ & Hrows & _).
    by destruct (Nat.leb_spec (length (players g)) (length (scores g)));
      [|lia].
Qed.

Lemma play_failures_atomic_witness :
  (∃ complete g',
     submitRound [Num 3; Null]
       (snd (startNewGame ["Alice"; "Bob"] constructor))
     = (Ok complete, g'))
  ∧ ∀ e g',
      undoLastRound (snd (startNewGame ["Alice"; "Bob"] constructor))
      = (Throw e, g') →
      g' = snd (startNewGame ["Alice"; "Bob"] constructor)
      ∧ e = StateError "No rounds to undo".
Proof.
  assert (in_play (snd (startNewGame ["Alice"; "Bob"] constructor))) as Hplay.
  { apply play_start. simpl. lia. }
  split.
  - apply (proj1 (play_failures_atomic _ Hplay) [Num 3; Null]).
    + unfold maxRounds. simpl. lia.
    + reflexivity.
  - apply (proj2 (proj2 (play_failures_atomic _ Hplay))).
Defined.

Lemma setColumn_clear col vals cleared rows :
  length vals = length rows →
  length cleared = length rows →
  Forall (λ v, v = Null) cleared →
  Forall (λ row, array_get row col = Some Null) rows →
  setColumn col cleared (setColumn col vals rows) = rows.
Proof.
  intros Hv Hc Hnull Hrows. revert vals cleared Hv Hc Hnull.
  induction Hrows as [|row rows Hrow _ IH];
    intros [|v vals] [|w cleared] Hv Hc Hnull; cbn in *; try done.
  apply Forall_cons in Hnull as [-> Hnull].
  apply array_get_Some in Hrow as (Hcol & Hlt & Hcell).
  rewrite (array_set_in_range row) by done.
  rewrite array_set_in_range by (by rewrite ?length_insert).
  rewrite list_insert_insert_eq, list_insert_id by done.
  f_equal. apply IH; [lia|lia|done].
Qed.

(** X3: in the play phase a round that was submitted is taken back by
    [undoLastRound]: the game is again the one before the submission. *)
Theorem submit_then_undo (g g' : Game) (roundScores : list Score)
  (complete : bool) :
  in_play g →
  submitRound roundScores g = (Ok complete, g') →
  undoLastRound g' = (Ok tt, g).
Proof.
  intros Hplay Hsubmit.
  pose proof (in_play_shaped g Hplay) as Hg.
  assert (currentRound g ≤ maxRounds ∧ length roundScores = length (players g))
    as [Hround Hlen].
  { rewrite GameFacts.submitRound_unfold in Hsubmit.
    destruct (Z.ltb_spec maxRounds (currentRound g)); [done|].
    by destruct (Nat.eqb_spec (length roundScores) (length (players g))). }
  pose proof (submitRound_keeps_shape roundScores g Hg) as Hg'.
  rewrite submitRound_shaped in Hsubmit, Hg' by done.
  injection Hsubmit as _ <-. cbn [snd] in Hg'.
  destruct Hg as (Hn & Hrows & Hrange & Hcells).
  rewrite undoLastRound_shaped by (done || cbn; lia).
  cbn [players scores currentRound]. f_equal.
  replace (currentRound g + 1 - 2) with (currentRound g - 1) by lia.
  replace (currentRound g + 1 - 1) with (currentRound g) by lia.
  rewrite setColumn_clear; [by destruct g|lia|by rewrite length_fmap| |].
  - apply Forall_forall. by intros v (_ & -> & _)%list_elem_of_fmap.
  - eapply Forall_impl; [exact Hcells|]. cbn. intros row [Hlen' Hcell].
    unfold maxRounds in *.
    destruct (Hcell (Z.to_nat (currentRound g - 1))) as (s & Hs & Hnull);
      [lia|].
    unfold array_get. destruct (Z.ltb_spec (currentRound g - 1) 0); [lia|].
    rewrite Hs. cbn. f_equal. apply Hnull. lia.
Qed.

Lemma submit_then_undo_witness :
  undoLastRound
    (snd (submitRound [Num 3; Null]
            (snd (startNewGame ["Alice"; "Bob"] constructor))))
  = (Ok tt, snd (startNewGame ["Alice"; "Bob"] constructor)).
Proof.
  apply (submit_then_undo
           (snd (startNewGame ["Alice"; "Bob"] constructor)) _
           [Num 3; Null] false).
  - apply play_start. simpl. lia.
  - reflexivity.
Defined.

Lemma submitRounds_shaped (n : nat) rounds g :
  well_shaped g →
  length (players g) = n →
  Forall (λ roundScores, length roundScores = n) rounds →
  currentRound g + Z.of_nat (length rounds) ≤ maxRounds + 1 →
  ∃ flags g',
    submitRounds rounds g = (Ok flags, g')
    ∧ well_shaped g'
    ∧ players g' = players g
    ∧ currentRound g' = currentRound g + Z.of_nat (length rounds)
    ∧ length flags = length rounds
    ∧ ∀ (j : nat) flag,
        flags !! j = Some flag →
        flag = bool_decide (currentRound g + Z.of_nat j = maxRounds).
Proof.
  intros Hg Hn Hrounds. revert g Hg Hn.
  induction Hrounds as [|roundScores rounds Hlen _ IH]; intros g Hg Hn Hfit.
  - exists [], g. cbn. split_and!; try done; lia.
  - cbn [length] in Hfit. cbn [submitRounds]. unfold bind at 1.
    pose proof (submitRound_keeps_shape roundScores g Hg) as Hg'.
    rewrite submitRound_shaped in * by (done || lia). cbn [snd] in Hg'.
    destruct (IH _ Hg') as (flags & g' & Hrest & Hshape & Hp & Hr & Hl & Hf).
    { done. }
    { cbn. lia. }
    unfold bind at 1. rewrite Hrest. unfold ret.
    eexists _, g'. split; [reflexivity|]. cbn in Hp, Hr. cbn [length].
    split_and!; [done|done|lia|lia|].
    intros [|j] flag; cbn.
    + intros [= <-].
      destruct (Z.ltb_spec maxRounds (currentRound g + 1)); symmetry;
        [apply bool_decide_eq_true_2|apply bool_decide_eq_false_2]; lia.
    + intros Hj. rewrite (Hf j flag Hj). cbn.
      apply bool_decide_ext. lia.
Qed.

(** X4: after [startNewGame] with at least two names, up to 11 rounds with
    one score per player are all accepted; each advances the round by one,
    and the value returned is [true] for the eleventh submission and [false]
    for every earlier one, so that the game is complete exactly when 11
    rounds were submitted. *)
Theorem eleven_rounds (playerNames : list string)
  (rounds : list (list Score)) (g : Game) :
  (2 ≤ length playerNames)%nat →
  Forall (λ roundScores, length roundScores = length playerNames) rounds →
  (length rounds ≤ 11)%nat →
  ∃ flags g',
    (startNewGame playerNames ;; submitRounds rounds) g = (Ok flags, g')
    ∧ length flags = length rounds
    ∧ (∀ (j : nat) flag, flags !! j = Some flag → flag = bool_decide (j = 10%nat))
    ∧ currentRound g' = 1 + Z.of_nat (length rounds)
    ∧ isGameComplete g' = bool_decide (length rounds = 11%nat).
Proof.
  intros Hnames Hrounds Hcount. unfold bind.
  pose proof (in_play_shaped _ (play_start playerNames g Hnames)) as Hg.
  rewrite startNewGame_started in * by done. cbn [snd] in Hg.
  destruct (submitRounds_shaped (length playerNames) rounds _ Hg)
    as (flags & g' & -> & _ & _ & Hround & Hlen & Hflags).
  { done. }
  { done. }
  { unfold maxRounds. cbn. lia. }
  cbn [currentRound] in Hround, Hflags.
  exists flags, g'. split_and!; try done.
  - intros j flag Hj. rewrite (Hflags j flag Hj).
    apply bool_decide_ext. unfold maxRounds. lia.
  - unfold isGameComplete. rewrite Hround. unfold maxRounds.
    destruct (Z.ltb_spec 11 (1 + Z.of_nat (length rounds))); symmetry;
      [apply bool_decide_eq_true_2|apply bool_decide_eq_false_2]; lia.
Qed.

Lemma eleven_rounds_witness :
  ∃ flags g',
    (startNewGame ["Alice"; "Bob"] ;; submitRounds (replicate 11 [Num 4; Null]))
      constructor
    = (Ok flags, g')
    ∧ length flags = length (replicate 11 [Num 4; Null])
    ∧ (∀ (j : nat) flag, flags !! j = Some flag → flag = bool_decide (j = 10%nat))
    ∧ currentRound g' = 1 + Z.of_nat (length (replicate 11 [Num 4; Null]))
    ∧ isGameComplete g'
      = bool_decide (length (replicate 11 [Num 4; Null]) = 11%nat).
Proof.
  apply (eleven_rounds ["Alice"; "Bob"] (replicate 11 [Num 4; Null])
           constructor).
  - simpl. lia.
  - simpl. repeat constructor.
  - simpl. lia.
Defined.

(** *** Totals *)

Lemma rowTotal_points row :
  rowTotal row
  = foldl (λ sum score, (sum + points score)%float) 0%float (present row).
Proof. reflexivity. Qed.

(** Cells that hold [null] leave a sum as it is. *)
Lemma foldl_nulls (b : float) (l : list Score) :
  is_neg_zero b = false → Forall (λ score, score = Null) l →
  foldl (λ sum score, (sum + points score)%float) b l = b.
Proof.
  intros Hb Hl. induction Hl as [|score l -> _ IH]; [done|].
  cbn. by rewrite (NumberFacts.add_zero_r b Hb).
Qed.

(** When the cells after the column [c] hold [null], the total is the total
    of the cells before it plus what the cell at [c] adds. *)
Lemma rowTotal_last_played row (c : nat) (s : Score) :
  (c < length row)%nat →
  (∀ c' : nat, (c < c' < length row)%nat → row !! c' = Some (Some Null)) →
  rowTotal (<[c := Some s]> row)
  = (rowTotal (<[c := Some Null]> row) + points s)%float.
Proof.
  intros Hc Hnulls.
  assert (Forall (λ score, score = Null) (present (drop (S c) row))) as Htail.
  { assert (Forall (λ cell, cell = Some Null) (drop (S c) row)) as Hdrop.
    { apply Forall_lookup. intros k cell Hk. rewrite lookup_drop in Hk.
      apply lookup_lt_Some in Hk as Hlt.
      rewrite Hnulls in Hk by lia. congruence. }
    induction Hdrop as [|cell l -> _ IH]; [done|].
    change (present (Some Null :: l)) with (Null :: present l).
    by constructor. }
  rewrite !rowTotal_points, !insert_take_drop by done.
  assert (∀ (x : Score) l,
            present (take c row ++ Some x :: l)
            = present (take c row) ++ x :: present l) as Hpresent
    by (intros x l; unfold present; by rewrite omap_app).
  rewrite !Hpresent, !foldl_app. cbn [foldl].
  set (a := foldl (λ sum score, (sum + points score)%float) 0%float
              (present (take c row))).
  assert (is_neg_zero a = false) as Ha by (by apply GameFacts.sum_not_neg_zero).
  assert (is_neg_zero (a + points s) = false) as Has.
  { apply not_true_is_false. intros Hsum%NumberFacts.add_neg_zero.
    congruence. }
  rewrite (foldl_nulls (a + points s)), (foldl_nulls (a + points Null)).
  - cbn [points]. by rewrite (NumberFacts.add_zero_r a Ha).
  - cbn [points]. by rewrite (NumberFacts.add_zero_r a Ha).
  - done.
  - done.
  - done.
Qed.

(** X5: in the play phase the totals follow the rounds, in the arithmetic
    of binary64.  A game just started has every total at 0; after a round
    that is accepted each player's total is the total there was plus that
    player's score, [null] adding nothing; after a round that is undone
    each total is one to which adding the score that was recorded gives the
    total there was. *)
Theorem totals_follow_rounds (g : Game) :
  (∀ playerNames, (2 ≤ length playerNames)%nat →
     getAllTotals (snd (startNewGame playerNames g))
     = Ok (replicate (length playerNames) 0%float))
  ∧ (in_play g →
     (∀ roundScores complete g' (i : nat) s,
        submitRound roundScores g = (Ok complete, g') →
        roundScores !! i = Some s →
        ∃ t, getPlayerTotal i g = Ok t
             ∧ getPlayerTotal i g' = Ok (t + points s)%float)
     ∧ (∀ g' (i : nat),
          undoLastRound g = (Ok tt, g') →
          (i < length (players g))%nat →
          ∃ t s, getPlayerTotal i g' = Ok t
                 ∧ getScore i (currentRound g - 1) g = Ok (Some s)
                 ∧ getPlayerTotal i g = Ok (t + points s)%float)).
Proof.
  split.
  - intros names Hlen. rewrite startNewGame_started by done. cbn [snd].
    rewrite GameFacts.getAllTotals_rows by (cbn; by rewrite length_map).
    cbn [players]. f_equal. apply list_eq. intros i.
    rewrite list_lookup_fmap.
    destruct (decide (i < length names)%nat) as [Hi|Hi].
    + rewrite lookup_seq_lt, lookup_replicate_2 by done. cbn. f_equal.
      unfold total. cbn [scores].
      destruct (lookup_lt_is_Some_2 names i Hi) as [p Hp].
      change (map ?f names) with (f <$> names).
      rewrite list_lookup_fmap, Hp. cbn. reflexivity.
    + rewrite lookup_seq_ge by lia. cbn. symmetry.
      apply lookup_replicate_None. lia.
  - intros Hplay. pose proof (in_play_shaped g Hplay) as Hg. split.
    + intros roundScores complete g' i s Hsubmit Hs.
      assert (currentRound g ≤ maxRounds
              ∧ length roundScores = length (players g)) as [Hround Hlen].
      { rewrite GameFacts.submitRound_unfold in Hsubmit.
        destruct (Z.ltb_spec maxRounds (currentRound g)); [done|].
        by destruct (Nat.eqb_spec (length roundScores) (length (players g))). }
      rewrite submitRound_shaped in Hsubmit by done.
      injection Hsubmit as _ <-.
      destruct Hg as (Hn & Hrows & Hrange & Hcells).
      apply lookup_lt_Some in Hs as Hi.
      destruct (lookup_lt_is_Some_2 (scores g) i) as [row Hrow]; [lia|].
      unfold getPlayerTotal. cbn [scores].
      rewrite (GameFacts.setColumn_lookup _ _ _ _ _ Hs), Hrow.
      cbn -[rowTotal].
      eexists. split; [done|]. f_equal.
      rewrite Forall_forall in Hcells.
      destruct (Hcells row) as [Hlen' Hcell];
        [by apply list_elem_of_lookup; exists i|].
      unfold maxRounds in *.
      destruct (Hcell (Z.to_nat (currentRound g - 1))) as (s0 & Hs0 & Hnull);
        [lia|].
      rewrite array_set_in_range by lia.
      rewrite Hnull in Hs0 by lia.
      rewrite rowTotal_last_played, (list_insert_id _ _ _ Hs0); [done|lia|].
      intros c' Hc'. destruct (Hcell c') as (s' & Hs' & Hnull'); [lia|].
        rewrite Hs', Hnull' by lia. done.
    + intros g' i Hundo Hi.
      assert (currentRound g ≠ 1) as Hround.
      { rewrite GameFacts.undoLastRound_unfold in Hundo.
        by destruct (decide (currentRound g = 1)). }
      rewrite undoLastRound_shaped in Hundo by done.
      injection Hundo as <-.
      destruct Hg as (Hn & Hrows & Hrange & Hcells).
      destruct (lookup_lt_is_Some_2 (scores g) i) as [row Hrow]; [lia|].
      destruct (lookup_lt_is_Some_2 (players g) i Hi) as [p Hp].
      unfold getPlayerTotal, getScore. cbn [scores].
      rewrite (GameFacts.setColumn_lookup _ _ _ _ Null)
        by (by rewrite list_lookup_fmap, Hp).
      rewrite Hrow. cbn -[rowTotal].
      rewrite Forall_forall in Hcells.
      destruct (Hcells row) as [Hlen' Hcell];
        [by apply list_elem_of_lookup; exists i|].
      unfold maxRounds in *.
      destruct (Hcell (Z.to_nat (currentRound g - 2))) as (s0 & Hs0 & _);
        [lia|].
      eexists _, s0. split_and!; [done| |].
      * unfold array_get.
        destruct (Z.ltb_spec (currentRound g - 1 - 1) 0); [lia|].
        replace (currentRound g - 1 - 1) with (currentRound g - 2) by lia.
        by rewrite Hs0.
      * rewrite array_set_in_range by lia. f_equal.
        replace (Z.to_nat (currentRound g - 1 - 1))
          with (Z.to_nat (currentRound g - 2)) by lia.
        rewrite <- rowTotal_last_played, (list_insert_id _ _ _ Hs0);
          [done|lia|].
        intros c' Hc'. destruct (Hcell c') as (s' & Hs' & Hnull'); [lia|].
        rewrite Hs', Hnull' by lia. done.
Qed.

Lemma totals_follow_rounds_witness :
  getAllTotals (snd (startNewGame ["Alice"; "Bob"] constructor))
  = Ok (replicate (length ["Alice"; "Bob"]) 0%float)
  ∧ ∃ t, getPlayerTotal 0 (snd (startNewGame ["Alice"; "Bob"] constructor))
         = Ok t
         ∧ getPlayerTotal 0
             (snd (submitRound [Num 3; Null]
                     (snd (startNewGame ["Alice"; "Bob"] constructor))))
           = Ok (t + points (Num 3))%float.
Proof.
  split.
  - apply (proj1 (totals_follow_rounds constructor) ["Alice"; "Bob"]).
    simpl. lia.
  - apply (proj1 (proj2 (totals_follow_rounds
                           (snd (startNewGame ["Alice"; "Bob"] constructor)))
                    (play_start ["Alice"; "Bob"] constructor
                       ltac:(simpl; lia)))
             [Num 3; Null] false).
    + reflexivity.
    + reflexivity.
Defined.

(** *** Outside the play phase *)

(** X6: when players have no row, which is so after [addPlayer] on a
    started game, failure is not atomic.  [submitRound] with one score per
    player, on a game that is not complete, throws [TypeError] after it has
    written the scores of the players who have a row, and does not advance
    the round; [undoLastRound], off round 1, throws [TypeError] after it has
    taken the round back by one. *)
Theorem failure_after_partial_write (g : Game) :
  (length (scores g) < length (players g))%nat →
  (∀ roundScores,
     1 ≤ currentRound g ≤ maxRounds →
     length roundScores = length (players g) →
     ∃ g', submitRound roundScores g = (Throw TypeError, g')
           ∧ currentRound g' = currentRound g
           ∧ players g' = players g
           ∧ ∀ (i : nat) s,
               (i < length (scores g))%nat → roundScores !! i = Some s →
               getScore i (currentRound g) g' = Ok (Some s))
  ∧ (currentRound g ≠ 1 →
     ∃ g', undoLastRound g = (Throw TypeError, g')
           ∧ currentRound g' = currentRound g - 1
           ∧ players g' = players g).
Proof.
  intros Hrows. split.
  - intros roundScores Hround Hlen. rewrite GameFacts.submitRound_unfold.
    destruct (Z.ltb_spec maxRounds (currentRound g)); [lia|].
    rewrite Hlen, Nat.eqb_refl. cbn [negb]. cbn zeta.
    destruct (Nat.leb_spec (length (players g)) (length (scores g))); [lia|].
    eexists. split; [reflexivity|]. cbn. split_and!; [done..|].
    intros i s Hi Hs. unfold getScore. cbn.
    rewrite (GameFacts.setColumn_lookup _ _ _ _ _ Hs).
    destruct (lookup_lt_is_Some_2 (scores g) i Hi) as [row ->]. cbn.
    by rewrite array_get_set_eq by lia.
  - intros Hround. rewrite GameFacts.undoLastRound_unfold.
    destruct (decide (currentRound g = 1)); [done|]. cbn zeta.
    destruct (Nat.leb_spec (length (players g)) (length (scores g))); [lia|].
    by eexists.
Qed.

Lemma failure_after_partial_write_witness :
  ∃ g',
    submitRound [Num 3; Num 4; Num 5]
      (mkGame ["Alice"; "Bob"; "Carol"]
         [replicate 11 (Some Null); replicate 11 (Some Null)] 1)
    = (Throw TypeError, g')
    ∧ currentRound g' = 1
    ∧ players g' = ["Alice"; "Bob"; "Carol"]
    ∧ ∀ (i : nat) s,
        (i < 2)%nat → [Num 3; Num 4; Num 5] !! i = Some s →
        getScore i 1 g' = Ok (Some s).
Proof.
  apply (proj1 (failure_after_partial_write
                  (mkGame ["Alice"; "Bob"; "Carol"]
                     [replicate 11 (Some Null); replicate 11 (Some Null)] 1)
                  ltac:(simpl; lia)) [Num 3; Num 4; Num 5]).
  - unfold maxRounds. simpl. lia.
  - reflexivity.
Defined.

(** X7: [removePlayer] takes the name at the index out of the roster and
    leaves the score matrix alone, also on a game with scores: past the
    index every name moves one position down, onto the row, and so the
    total, of the name that stood there.  Out of range it changes nothing. *)
Theorem removePlayer_shifts_names (index : Z) (g : Game) :
  (0 ≤ index < Z.of_nat (length (players g)) →
   ∃ g', removePlayer index g = (Ok tt, g')
     ∧ scores g' = scores g
     ∧ currentRound g' = currentRound g
     ∧ length (players g') = (length (players g) - 1)%nat
     ∧ (∀ j : nat, (Z.of_nat j < index) → players g' !! j = players g !! j)
     ∧ (∀ j : nat, (index ≤ Z.of_nat j) →
          players g' !! j = players g !! S j)
     ∧ ∀ j : nat, getPlayerTotal j g' = getPlayerTotal j g)
  ∧ (¬ (0 ≤ index < Z.of_nat (length (players g))) →
     removePlayer index g = (Ok tt, g)).
Proof.
  unfold removePlayer, bind, get. split.
  - intros Hindex.
    destruct (Z.leb_spec 0 index); [|lia].
    destruct (Z.ltb_spec index (Z.of_nat (length (players g)))); [|lia].
    cbn. eexists. split; [reflexivity|]. cbn.
    split_and!; try done.
    + rewrite length_delete; [done|]. apply lookup_lt_is_Some. lia.
    + intros j Hj. apply list_lookup_delete_lt. lia.
    + intros j Hj. apply list_lookup_delete_ge. lia.
  - intros Hindex.
    destruct (Z.leb_spec 0 index);
      destruct (Z.ltb_spec index (Z.of_nat (length (players g))));
      cbn; done || lia.
Qed.

Lemma removePlayer_shifts_names_witness :
  (∃ g',
     removePlayer 0
       (mkGame ["Alice"; "Bob"] [[Some (Num 9)]; [Some (Num 2)]] 2)
     = (Ok tt, g')
     ∧ players g' !! 0%nat = Some "Bob"
     ∧ getPlayerTotal 0 g' = Ok 9%float)
  ∧ removePlayer 5 (mkGame ["Alice"; "Bob"] [[Some (Num 9)]; [Some (Num 2)]] 2)
    = (Ok tt, mkGame ["Alice"; "Bob"] [[Some (Num 9)]; [Some (Num 2)]] 2).
Proof.
  split.
  - destruct (proj1 (removePlayer_shifts_names 0
                       (mkGame ["Alice"; "Bob"]
                          [[Some (Num 9)]; [Some (Num 2)]] 2)))
      as (g' & Hremove & _ & _ & _ & _ & Hshift & Htotal).
    + simpl. lia.
    + exists g'. split; [exact Hremove|]. split.
      * rewrite (Hshift 0%nat); [reflexivity|lia].
      * rewrite (Htotal 0%nat). reflexivity.
  - apply (proj2 (removePlayer_shifts_names 5
                    (mkGame ["Alice"; "Bob"]
                       [[Some (Num 9)]; [Some (Num 2)]] 2))).
    simpl. lia.
Defined.

(** *** The roster *)

Lemma addPlayer_unfold name g :
  addPlayer name g
  = if decide (trim name = "")
    then (Throw (ValidationError "Player name cannot be empty"), g)
    else if decide (trim name ∈ players g)
    then (Throw (ValidationError "Player already exists"), g)
    else (Ok true, set_players (players g ++ [trim name]) g).
Proof.
  unfold addPlayer. destruct (decide (trim name = "")); [done|].
  unfold bind, get, includes.
  destruct (decide (trim name ∈ players g)).
  - by rewrite bool_decide_eq_true_2.
  - by rewrite bool_decide_eq_false_2.
Qed.

Lemma trimStart_shorter l : (length (trimStart_list l) ≤ length l)%nat.
Proof.
  induction l as [|c l IH]; cbn; [done|].
  destruct (isWhiteSpace c); cbn; lia.
Qed.

Lemma trimStart_fixed c l :
  trimStart_list (c :: l) = c :: l → isWhiteSpace c = false.
Proof.
  cbn. destruct (isWhiteSpace c); [|done]. intros Heq.
  pose proof (trimStart_shorter l) as Hlen. rewrite Heq in Hlen.
  cbn in Hlen. lia.
Qed.

Lemma trimStart_idem l :
  trimStart_list (trimStart_list l) = trimStart_list l.
Proof.
  induction l as [|c l IH]; cbn; [done|].
  destruct (isWhiteSpace c) eqn:Hc; [done|]. cbn. by rewrite Hc.
Qed.

Lemma trimStart_suffix l : ∃ pre, l = pre ++ trimStart_list l.
Proof.
  induction l as [|c l [pre IH]]; cbn; [by exists []|].
  destruct (isWhiteSpace c); [|by exists []].
  exists (c :: pre). cbn. by f_equal.
Qed.

(** Stripping the end keeps a start that is stripped. *)
Lemma trimEnd_keeps_start l :
  trimStart_list l = l →
  trimStart_list (rev (trimStart_list (rev l))) = rev (trimStart_list (rev l)).
Proof.
  intros Hl. destruct (trimStart_suffix (rev l)) as [pre Hpre].
  apply (f_equal (@rev ascii)) in Hpre.
  rewrite rev_involutive, rev_app_distr in Hpre.
  destruct (rev (trimStart_list (rev l))) as [|c x]; [done|].
  rewrite Hpre in Hl. cbn in Hl. apply trimStart_fixed in Hl.
  cbn. by rewrite Hl.
Qed.

Lemma trim_idem s : trim (trim s) = trim s.
Proof.
  unfold trim. rewrite list_ascii_of_string_of_list_ascii.
  rewrite (trimEnd_keeps_start
             (trimStart_list (rev (trimStart_list (list_ascii_of_string s)))))
    by apply trimStart_idem.
  rewrite rev_involutive.
  by rewrite (trimEnd_keeps_start (trimStart_list (list_ascii_of_string s)))
    by apply trimStart_idem.
Qed.

Lemma delete_last {A} (l : list A) x : delete (length l) (l ++ [x]) = l.
Proof.
  rewrite delete_take_drop, take_app_length.
  rewrite drop_ge by (rewrite length_app; cbn; lia). apply app_nil_r.
Qed.

(** X8: a name that [addPlayer] accepts goes to the end of the roster,
    stripped of the white space around it; [removePlayer] at that position
    gives back the game there was; and a second [addPlayer] of a name that
    strips to the same name is refused, the game left as it was. *)
Theorem addPlayer_then_remove (name : string) (g g' : Game) :
  addPlayer name g = (Ok true, g') →
  players g' = players g ++ [trim name]
  ∧ removePlayer (Z.of_nat (length (players g))) g' = (Ok tt, g)
  ∧ ∀ again, trim again = trim name →
      addPlayer again g' = (Throw (ValidationError "Player already exists"), g').
Proof.
  rewrite addPlayer_unfold.
  destruct (decide (trim name = "")) as [|Hne]; [done|].
  destruct (decide (trim name ∈ players g)); [done|].
  intros [= <-]. cbn [players set_players]. split_and!; [done| |].
  - unfold removePlayer, bind, get. cbn [players set_players].
    rewrite length_app. cbn [length].
    destruct (Z.leb_spec 0 (Z.of_nat (length (players g)))); [|lia].
    destruct (Z.ltb_spec (Z.of_nat (length (players g)))
                (Z.of_nat (length (players g) + 1))); [|lia].
    cbn. rewrite Nat2Z.id, delete_last. by destruct g.
  - intros again Hagain. rewrite addPlayer_unfold, Hagain.
    destruct (decide (trim name = "")); [done|].
    destruct (decide (trim name
                      ∈ players (set_players (players g ++ [trim name]) g)))
      as [|Hnot]; [done|].
    exfalso. apply Hnot. cbn. apply elem_of_app. right. by left.
Qed.

Lemma addPlayer_then_remove_witness :
  players (snd (addPlayer "  Carol " (mkGame ["Alice"; "Bob"] [] 1)))
  = ["Alice"; "Bob"] ++ [trim "  Carol "]
  ∧ removePlayer (Z.of_nat (length ["Alice"; "Bob"]))
      (snd (addPlayer "  Carol " (mkGame ["Alice"; "Bob"] [] 1)))
    = (Ok tt, mkGame ["Alice"; "Bob"] [] 1)
  ∧ ∀ again, trim again = trim "  Carol " →
      addPlayer again (snd (addPlayer "  Carol " (mkGame ["Alice"; "Bob"] [] 1)))
      = (Throw (ValidationError "Player already exists"),
         snd (addPlayer "  Carol " (mkGame ["Alice"; "Bob"] [] 1))).
Proof.
  apply (addPlayer_then_remove "  Carol " (mkGame ["Alice"; "Bob"] [] 1)).
  reflexivity.
Defined.

Lemma submitRound_players roundScores g :
  players (snd (submitRound roundScores g)) = players g.
Proof.
  rewrite GameFacts.submitRound_unfold.
  destruct (maxRounds <? currentRound g); [done|].
  destruct (negb _); [done|]. cbn zeta. by destruct (_ <=? _)%nat.
Qed.

Lemma undoLastRound_players g : players (snd (undoLastRound g)) = players g.
Proof.
  rewrite GameFacts.undoLastRound_unfold.
  by destruct (decide (currentRound g = 1)).
Qed.

(** X9: when games are started with the roster that was built, as the
    application does, the names of the roster are at all times pairwise
    different, not empty, and free of white space at both ends. *)
Theorem roster_stays_ok (g : Game) :
  roster_built g → roster_ok (players g).
Proof.
  unfold roster_ok.
  induction 1 as [|name g _ [IHd IHn]|index g _ [IHd IHn]|g _ IH
                  |roundScores g _ IH|g _ IH|g _ IH].
  - split; constructor.
  - rewrite addPlayer_unfold.
    destruct (decide (trim name = "")); [done|].
    destruct (decide (trim name ∈ players g)); [done|]. cbn.
    split.
    + apply NoDup_app. split_and!; [done| |apply NoDup_singleton].
      intros x Hx ->%list_elem_of_singleton. done.
    + apply Forall_app. split; [done|].
      constructor; [|constructor]. split; [done|apply trim_idem].
  - unfold removePlayer, bind, get. destruct (_ && _); [|done]. cbn.
    split.
    + by apply (sublist_NoDup _ (players g)); [|apply sublist_delete].
    + by apply Forall_delete.
  - unfold startNewGame. by destruct (length (players g) <? 2)%nat.
  - by rewrite submitRound_players.
  - by rewrite undoLastRound_players.
  - split; constructor.
Qed.

Lemma roster_stays_ok_witness :
  roster_ok
    (players
       (snd (addPlayer "Bob " (snd (addPlayer " Bob" (snd (addPlayer " Alice"
          constructor))))))).
Proof.
  apply (roster_stays_ok
           (snd (addPlayer "Bob " (snd (addPlayer " Bob" (snd (addPlayer " Alice"
              constructor))))))).
  apply built_add, built_add, built_add, built_new.
Defined.

(** X10: in every game the operations reach, [getCurrentRoundInfo] reports
    the round, two cards more than the round, and 11 rounds as long as the
    game is not complete; once it is complete it reports round 12 with a
    number of cards that is [undefined]. *)
Theorem roundInfo_cards (g : Game) :
  reachable g →
  (currentRound g ≤ maxRounds →
   getCurrentRoundInfo g
   = (currentRound g, Some (currentRound g + 2), maxRounds))
  ∧ (maxRounds < currentRound g →
     getCurrentRoundInfo g = (maxRounds + 1, None, maxRounds)).
Proof.
  intros Hg.
  assert (rows_have_maxRounds_cells g ∧ round_in_range g) as [_ Hround].
  { induction Hg as [|op g _ _ IH]; [|by apply GameFacts.step_shape].
    split; [constructor|]. unfold round_in_range, maxRounds. cbn. lia. }
  unfold round_in_range, maxRounds in *. unfold getCurrentRoundInfo.
  assert (∃ k : nat, currentRound g = Z.of_nat k ∧ (1 ≤ k ≤ 12)%nat)
    as (k & -> & Hk).
  { exists (Z.to_nat (currentRound g)). lia. }
  do 13 (destruct k as [|k]; [split; intros; (reflexivity || lia)|]).
  lia.
Qed.

Lemma roundInfo_cards_witness :
  getCurrentRoundInfo
    (step (SubmitRound [Num 1; Num 2])
       (step (StartNewGame ["Alice"; "Bob"]) constructor))
  = (currentRound
       (step (SubmitRound [Num 1; Num 2])
          (step (StartNewGame ["Alice"; "Bob"]) constructor)),
     Some (currentRound
             (step (SubmitRound [Num 1; Num 2])
                (step (StartNewGame ["Alice"; "Bob"]) constructor)) + 2),
     maxRounds).
Proof.
  apply (proj1 (roundInfo_cards
                  (step (SubmitRound [Num 1; Num 2])
                     (step (StartNewGame ["Alice"; "Bob"]) constructor))
                  ltac:(apply reachable_step; [exact I|];
                        apply reachable_step; [exact I|];
                        apply reachable_new))).
  unfold maxRounds. simpl. lia.
Defined.

End GameLaws.

(** ** More of the statistics engine *)

Module StatisticsLaws.
Import Statistics StatisticsSpec.

Lemma deleteGame_unfold gameId (history : History) :
  deleteGame gameId history
  = (Ok tt, filter (λ game, id game ≠ gameId) history).
Proof. reflexivity. Qed.

Lemma filter_all {A} (P : A → Prop) `{∀ x, Decision (P x)} (l : list A) :
  Forall P l → filter P l = l.
Proof.
  induction 1 as [|x l Hx _ IH]; [done|].
  by rewrite filter_cons_True, IH.
Qed.

(** X11: a game that was saved is taken out again by [deleteGame] with the
    [id] of its record, together with every older record of the same [id];
    when no record had that [id] and fewer than 50 records were kept, the
    history is again the one before the save. *)
Theorem save_then_delete (clock : Clock) (gameState : Game.Game)
  (history : History) :
  Game.scores gameState ≠ [] →
  ∃ record saved,
    saveGame clock gameState history = (Ok record, saved)
    ∧ id record = now_id clock
    ∧ deleteGame (id record) saved
      = (Ok tt,
         filter (λ game, id game ≠ now_id clock)
           (take (MAX_HISTORY - 1) history))
    ∧ (now_id clock ∉ id <$> history →
       (length history < MAX_HISTORY)%nat →
       deleteGame (id record) saved = (Ok tt, history)).
Proof.
  intros Hs.
  destruct (proj2 (StatisticsFacts.saveGame_result clock gameState history) Hs)
    as (record & Hsave & (Hid & _) & _).
  exists record, (take MAX_HISTORY (record :: history)).
  split_and!; [done..| |].
  - rewrite deleteGame_unfold, Hid. f_equal.
    change (take MAX_HISTORY (record :: history))
      with (record :: take (MAX_HISTORY - 1) history).
    by rewrite filter_cons_False by (by intros []).
  - intros Hfresh Hlen. rewrite deleteGame_unfold, Hid. f_equal.
    change (take MAX_HISTORY (record :: history))
      with (record :: take (MAX_HISTORY - 1) history).
    rewrite filter_cons_False by (by intros []).
    rewrite take_ge by (unfold MAX_HISTORY in *; lia).
    apply filter_all, Forall_forall. intros game Hgame Heq.
    apply Hfresh. rewrite <- Heq. apply list_elem_of_fmap. by exists game.
Qed.

Lemma save_then_delete_witness :
  ∃ record saved,
    saveGame (mkClock 5 "" 5) (two_player_game 1 2) four_games
    = (Ok record, saved)
    ∧ id record = 5
    ∧ deleteGame (id record) saved
      = (Ok tt,
         filter (λ game, id game ≠ 5) (take (MAX_HISTORY - 1) four_games))
    ∧ (5 ∉ id <$> four_games →
       (length four_games < MAX_HISTORY)%nat →
       deleteGame (id record) saved = (Ok tt, four_games)).
Proof.
  apply (save_then_delete (mkClock 5 "" 5) (two_player_game 1 2) four_games).
  simpl. discriminate.
Defined.

(** *** The order of the history *)

Lemma newest_first_cons record (history : History) :
  (∀ older, older ∈ history → timestamp older ≤ timestamp record) →
  newest_first history → newest_first (record :: history).
Proof.
  intros Hrecord Hsorted. constructor; [done|by apply Forall_forall].
Qed.

Lemma StronglySorted_sublist {A} (R : A → A → Prop) (k l : list A) :
  k `sublist_of` l → StronglySorted R l → StronglySorted R k.
Proof.
  induction 1 as [|x k l Hsub IH|x k l Hsub IH]; intros Hl; [done| |].
  - apply StronglySorted_inv in Hl as [Hl Hx]. constructor; [by apply IH|].
    rewrite Forall_forall in Hx |- *. intros y Hy. apply Hx.
    by eapply elem_of_sublist.
  - apply StronglySorted_inv in Hl as [Hl _]. by apply IH.
Qed.

(** Sorting a list that is sorted changes nothing. *)
Lemma sort_sorted_id {A} (key : A → Z) (l : list A) :
  StronglySorted (λ a b, key b ≤ key a) l →
  sort (λ a b, key b - key a) l = l.
Proof.
  unfold sort. induction 1 as [|x l _ IH Hx]; cbn; [done|]. rewrite IH.
  destruct l as [|y l]; cbn; [done|].
  apply Forall_cons in Hx as [Hy _].
  by destruct (Z.ltb_spec 0 (key y - key x)); [lia|].
Qed.

Lemma importHistory_keeps_order JSON_parse jsonData (history : History) :
  newest_first history →
  newest_first (snd (importHistory JSON_parse jsonData history)).
Proof.
  intros Hsorted.
  destruct (JSON_parse jsonData) as [[items|]|] eqn:Hparse.
  2,3: by unfold importHistory, try_catch; rewrite Hparse.
  destruct (StatisticsFacts.valid_or_not items) as [Hok|Hbad].
  - rewrite (StatisticsFacts.importHistory_valid _ _ _ _ Hparse Hok).
    cbn [snd]. eapply StronglySorted_sublist; [apply sublist_take|].
    apply (StatisticsFacts.sort_sorted timestamp).
  - by rewrite (StatisticsFacts.importHistory_invalid _ _ _ _ Hparse Hbad).
Qed.

(** X12: a history that is sorted by timestamp, newest first, stays so:
    under [saveGame] when the clock did not go back behind a record kept,
    and under [deleteGame], [clearHistory] and [importHistory] without
    condition. *)
Theorem history_stays_newest_first (JSON_parse : string → option Parsed)
  (history : History) :
  newest_first history →
  (∀ clock gameState,
     (∀ record, record ∈ history → timestamp record ≤ now_timestamp clock) →
     newest_first (snd (saveGame clock gameState history)))
  ∧ (∀ gameId, newest_first (snd (deleteGame gameId history)))
  ∧ newest_first (snd (clearHistory history))
  ∧ (∀ jsonData,
       newest_first (snd (importHistory JSON_parse jsonData history))).
Proof.
  intros Hsorted. split_and!.
  - intros clock gameState Hclock.
    destruct (decide (Game.scores gameState = [])) as [Hs|Hs].
    + by rewrite (proj1 (StatisticsFacts.saveGame_result _ _ history) Hs).
    + destruct (proj2 (StatisticsFacts.saveGame_result clock gameState history)
                  Hs) as (record & -> & (_ & Hts & _) & _).
      cbn [snd]. eapply StronglySorted_sublist; [apply sublist_take|].
      apply newest_first_cons; [|done].
      intros older Holder. rewrite Hts. by apply Hclock.
  - intros gameId. rewrite deleteGame_unfold. cbn [snd].
    eapply StronglySorted_sublist; [apply sublist_filter|done].
  - constructor.
  - intros jsonData. by apply importHistory_keeps_order.
Qed.

Lemma history_stays_newest_first_witness :
  newest_first
    (snd (saveGame (mkClock 9 "" 9) (two_player_game 1 2) four_games))
  ∧ newest_first (snd (deleteGame 2 four_games)).
Proof.
  assert (newest_first four_games) as Hsorted.
  { let games := eval vm_compute in four_games in change four_games with games.
    repeat (constructor; [|repeat constructor; simpl; lia]). constructor. }
  split.
  - apply (proj1 (history_stays_newest_first (λ _, None) four_games Hsorted)
             (mkClock 9 "" 9) (two_player_game 1 2)).
    apply Forall_forall.
    let games := eval vm_compute in four_games in change four_games with games.
    repeat (constructor; [simpl; lia|]). constructor.
  - apply (proj1 (proj2
             (history_stays_newest_first (λ _, None) four_games Hsorted))).
Defined.

(** X13: [getRecentGames] returns a front part of the history: as many
    records as the limit says, 10 without a limit, all of them when the
    limit is larger, and with a negative limit all but that many at the
    end.  On a history sorted newest first no record left out is newer than
    a record returned. *)
Theorem recent_games_front (limit : option Z) (history : History) :
  ∃ rest,
    history = getRecentGames limit history ++ rest
    ∧ Z.of_nat (length (getRecentGames limit history))
      = (let n := default 10 limit in
         let len := Z.of_nat (length history) in
         if n <? 0 then Z.max (len + n) 0 else Z.min n len)
    ∧ (newest_first history →
       ∀ recent older,
         recent ∈ getRecentGames limit history → older ∈ rest →
         timestamp older ≤ timestamp recent).
Proof.
  unfold getRecentGames, slice0.
  set (final := Z.to_nat _).
  exists (drop final history). split_and!.
  - by rewrite take_drop.
  - rewrite length_take. subst final.
    destruct (Z.ltb_spec (default 10 limit) 0); lia.
  - intros Hsorted recent older Hrecent Holder.
    rewrite <- (take_drop final history) in Hsorted.
    by eapply (StronglySorted_app_1_elem_of _ _ _ _ _ Hsorted).
Qed.

Lemma recent_games_front_witness :
  newest_first four_games
  ∧ ∃ rest,
      four_games = getRecentGames (Some 3) four_games ++ rest
      ∧ Z.of_nat (length (getRecentGames (Some 3) four_games)) = 3
      ∧ (newest_first four_games →
         ∀ recent older,
           recent ∈ getRecentGames (Some 3) four_games → older ∈ rest →
           timestamp older ≤ timestamp recent).
Proof.
  split.
  - let games := eval vm_compute in four_games in change four_games with games.
    repeat (constructor; [|repeat constructor; simpl; lia]). constructor.
  - apply (recent_games_front (Some 3) four_games).
Defined.

Lemma newGames_imported_new items (history : History) :
  filter (λ g, negb (includes (map id history) (id g))) (objects items)
  = imported_new items history.
Proof.
  unfold imported_new. apply list_filter_iff. intros game.
  unfold includes. by rewrite negb_True, bool_decide_spec.
Qed.

Lemma filter_none {A} (P : A → Prop) `{∀ x, Decision (P x)} (l : list A) :
  Forall (λ x, ¬ P x) l → filter P l = [].
Proof.
  induction 1 as [|x l Hx _ IH]; [done|].
  by rewrite filter_cons_False, IH.
Qed.

(** X14: importing a file a second time changes nothing, as long as the
    first import did not have to cut the history: when the records there
    were and the records the file adds are at most 50 together, the history
    after the second import is the history after the first. *)
Theorem import_twice (JSON_parse : string → option Parsed)
  (jsonData : string) (items : list Item) (history : History) :
  JSON_parse jsonData = Some (ParsedArray items) →
  Forall (λ item, ¬ lacks_field item) items →
  (length history + length (imported_new items history) ≤ MAX_HISTORY)%nat →
  ∃ merged,
    importHistory JSON_parse jsonData history = (Ok true, merged)
    ∧ importHistory JSON_parse jsonData merged = (Ok true, merged).
Proof.
  intros Hparse Hok Hfit.
  rewrite (StatisticsFacts.importHistory_valid _ _ _ _ Hparse Hok).
  rewrite newGames_imported_new.
  set (merged := sort (λ a b, timestamp b - timestamp a)
                   (history ++ imported_new items history)).
  assert (merged ≡ₚ history ++ imported_new items history) as Hperm
    by apply (StatisticsFacts.sort_perm timestamp).
  assert (newest_first merged) as Hsorted
    by apply (StatisticsFacts.sort_sorted timestamp).
  assert (take MAX_HISTORY merged = merged) as Htake.
  { apply take_ge. rewrite Hperm, length_app. lia. }
  rewrite Htake. exists merged. split; [done|].
  rewrite (StatisticsFacts.importHistory_valid _ _ _ _ Hparse Hok).
  rewrite newGames_imported_new.
  assert (imported_new items merged = []) as ->.
  { apply filter_none, Forall_forall. intros game Hgame Hfresh.
    apply Hfresh. apply list_elem_of_fmap.
    destruct (decide (id game ∈ id <$> history)) as [Hold|Hnew].
    - apply list_elem_of_fmap in Hold as (old & Hid & Hold).
      exists old. split; [done|]. rewrite Hperm. apply elem_of_app. by left.
    - exists game. split; [done|]. rewrite Hperm. apply elem_of_app. right.
      by apply list_elem_of_filter. }
  rewrite app_nil_r, (sort_sorted_id timestamp) by done.
  by rewrite Htake.
Qed.

Lemma import_twice_witness :
  ∃ merged,
    importHistory
      (λ _, Some (ParsedArray
                    [ItemObject
                       (mkGameRecord 7 "" (Some []) (Some [])
                          (Some (Game.mkWinner None infinity (-1))) 0 3)]))
      "[{}]" four_games
    = (Ok true, merged)
    ∧ importHistory
        (λ _, Some (ParsedArray
                      [ItemObject
                         (mkGameRecord 7 "" (Some []) (Some [])
                            (Some (Game.mkWinner None infinity (-1))) 0 3)]))
        "[{}]" merged
      = (Ok true, merged).
Proof.
  apply (import_twice _ "[{}]"
           [ItemObject
              (mkGameRecord 7 "" (Some []) (Some [])
                 (Some (Game.mkWinner None infinity (-1))) 0 3)] four_games).
  - reflexivity.
  - constructor; [|constructor].
    simpl. intros [H|[H|H]]; discriminate H.
  - vm_compute. lia.
Defined.

(** *** Scores of a player *)

Lemma mapR_all {A B} (f : A → Result B) (g : A → B) (l : list A) :
  (∀ x, x ∈ l → f x = Ok (g x)) → mapR f l = Ok (g <$> l).
Proof.
  induction l as [|x l IH]; intros Hf; [done|]. cbn [mapR].
  rewrite (Hf x) by left. rewrite IH by (intros y ?; apply Hf; by right).
  done.
Qed.

(** [getPlayerStats] in closed form, on records that are well formed. *)
Lemma getPlayerStats_full name (history : History) :
  Forall well_formed history →
  (∃ record, record ∈ history ∧ played name record) →
  let games := filter (played name) history in
  let totals := score_of name <$> games in
  getPlayerStats name history
  = Ok (Some {| playerName := name;
                totalGames := length games;
                wins := length (filter (won name) games);
                losses := Z.of_nat (length games)
                          - Z.of_nat (length (filter (won name) games));
                winRate :=
                  parseFloat
                    (printed_rate (length (filter (won name) games))
                                  (length games));
                avgScore :=
                  parseFloat
                    (toFixed1
                       (PrimFloat.div (foldl PrimFloat.add 0%float totals)
                                      (number_of_nat (length totals))));
                bestScore := Math_min totals;
                worstScore := Math_max totals |}).
Proof.
  intros Hwf (record & Hin & Hplayed) games totals.
  unfold getPlayerStats. rewrite Forall_forall in Hwf.
  rewrite (StatisticsFacts.filterR_total _ (played name)).
  2: { intros r Hr. destruct (Hwf r Hr) as (ps & sc & w & Hps & _).
       unfold played. by rewrite Hps. }
  cbn [bindR]. fold games.
  assert (record ∈ games) as Hin' by (by apply list_elem_of_filter).
  destruct (Nat.eqb_spec (length games) 0) as [Hnil|_].
  { apply nil_length_inv in Hnil. rewrite Hnil in Hin'.
    by apply elem_of_nil in Hin'. }
  rewrite (StatisticsFacts.filterR_total _ (won name)).
  2: { intros r [_ Hr]%list_elem_of_filter.
       destruct (Hwf r Hr) as (ps & sc & w & _ & _ & Hw & _).
       unfold won. by rewrite Hw. }
  cbn [bindR].
  rewrite (mapR_all _ (score_of name)); [done|].
  intros r [Hr1 Hr]%list_elem_of_filter. unfold score_of.
  destruct (Hwf r Hr) as (ps & sc & w & Hps & Hsc & _ & Hlen).
  rewrite Hps, Hsc.
  apply StatisticsFacts.played_spec in Hr1 as (ps' & Hps' & Hname).
  assert (ps' = ps) as -> by congruence.
  pose proof (StatisticsFacts.indexOf_from_elem ps name 0 Hname) as Hidx.
  unfold at_index, indexOf.
  destruct (Z.ltb_spec (indexOf_from ps name 0) 0); [lia|].
  by destruct (lookup_lt_is_Some_2 sc (Z.to_nat (indexOf_from ps name 0)))
    as [row ->]; [lia|].
Qed.

(** X15: in the statistics of a player wins and losses add up to the
    games.  The totals of the player are taken from the row at the position
    of the player's name in each game the player is in, as sums of binary64.
    When none of them is [NaN], the best score is one of them that none is
    below and the worst score one of them that none is above; when one of
    them is [NaN], the best and the worst score are [NaN]. *)
Theorem playerStats_scores (name : string) (history : History) :
  Forall well_formed history →
  (∃ record, record ∈ history ∧ played name record) →
  ∃ st,
    getPlayerStats name history = Ok (Some st)
    ∧ (wins st ≤ totalGames st)%nat
    ∧ Z.of_nat (wins st) + losses st = Z.of_nat (totalGames st)
    ∧ ((∀ record, record ∈ history → played name record →
          PrimFloat.is_nan (score_of name record) = false) →
       (∃ record, record ∈ history ∧ played name record
                  ∧ score_of name record = bestScore st)
       ∧ (∃ record, record ∈ history ∧ played name record
                    ∧ score_of name record = worstScore st)
       ∧ ∀ record, record ∈ history → played name record →
           (bestScore st <=? score_of name record)%float = true
           ∧ (score_of name record <=? worstScore st)%float = true)
    ∧ ((∃ record, record ∈ history ∧ played name record
                  ∧ PrimFloat.is_nan (score_of name record) = true) →
       bestScore st = nan ∧ worstScore st = nan).
Proof.
  intros Hwf Hplayed.
  rewrite (getPlayerStats_full name history Hwf Hplayed). cbn zeta.
  set (games := filter (played name) history).
  assert (score_of name <$> games ≠ []) as Hne.
  { destruct Hplayed as (record & Hin & Hrecord).
    assert (record ∈ games) as Hin' by (by apply list_elem_of_filter).
    destruct games; [by apply elem_of_nil in Hin'|done]. }
  eexists. split; [reflexivity|].
  cbn [bestScore worstScore wins totalGames losses].
  assert (∀ t, t ∈ score_of name <$> games →
            ∃ record, record ∈ history ∧ played name record
                      ∧ score_of name record = t) as Hfrom.
  { intros t (record & -> & [Hr Hin]%list_elem_of_filter)%list_elem_of_fmap.
    by exists record. }
  assert (∀ record, record ∈ history → played name record →
            score_of name record ∈ score_of name <$> games) as Hto.
  { intros record Hin Hrecord. apply list_elem_of_fmap.
    exists record. split; [done|]. by apply list_elem_of_filter. }
  split_and!; [apply length_filter|lia| |].
  - intros Hnum.
    assert (Forall (λ x, PrimFloat.is_nan x = false)
              (score_of name <$> games)) as Hnan.
    { apply Forall_forall. intros t (record & Hin & Hrecord & <-)%Hfrom.
      by apply Hnum. }
    destruct (NumberFacts.Math_min_spec _ Hne Hnan) as [Hbin Hmin].
    destruct (NumberFacts.Math_max_spec _ Hne Hnan) as [Hwin Hmax].
    split_and!; [by apply Hfrom|by apply Hfrom|].
    intros record Hin Hrecord.
    split; [apply Hmin|apply Hmax]; by apply Hto.
  - intros (record & Hin & Hrecord & Hnan).
    rewrite NumberFacts.Math_min_nan, NumberFacts.Math_max_nan;
      [done|exists (score_of name record); split; [by apply Hto|done]..].
Qed.

Lemma playerStats_scores_witness :
  ∃ st,
    getPlayerStats "Bob" four_games = Ok (Some st)
    ∧ (wins st ≤ totalGames st)%nat
    ∧ Z.of_nat (wins st) + losses st = Z.of_nat (totalGames st)
    ∧ ((∀ record, record ∈ four_games → played "Bob" record →
          PrimFloat.is_nan (score_of "Bob" record) = false) →
       (∃ record, record ∈ four_games ∧ played "Bob" record
                  ∧ score_of "Bob" record = bestScore st)
       ∧ (∃ record, record ∈ four_games ∧ played "Bob" record
                    ∧ score_of "Bob" record = worstScore st)
       ∧ ∀ record, record ∈ four_games → played "Bob" record →
           (bestScore st <=? score_of "Bob" record)%float = true
           ∧ (score_of "Bob" record <=? worstScore st)%float = true)
    ∧ ((∃ record, record ∈ four_games ∧ played "Bob" record
                  ∧ PrimFloat.is_nan (score_of "Bob" record) = true) →
       bestScore st = nan ∧ worstScore st = nan).
Proof.
  apply (playerStats_scores "Bob" four_games).
  - let games := eval vm_compute in four_games in change four_games with games.
    do 4 (constructor;
          [eexists _, _, _; split_and!; [reflexivity..|simpl; lia]|]).
    constructor.
  - let games := eval vm_compute in four_games in change four_games with games.
    eexists. split; [by left|]. vm_compute. exact I.
Defined.

(** *** The names of the history *)

Lemma compare_lt_trans (a b c : string) :
  String.compare a b = Lt → String.compare b c = Lt → String.compare a c = Lt.
Proof.
  revert b c. induction a as [|x a IH]; intros [|y b] [|z c]; cbn; try done.
  unfold Ascii.compare.
  destruct (N.compare_spec (Ascii.N_of_ascii x) (Ascii.N_of_ascii y)),
           (N.compare_spec (Ascii.N_of_ascii y) (Ascii.N_of_ascii z)),
           (N.compare_spec (Ascii.N_of_ascii x) (Ascii.N_of_ascii z));
    try done; try lia.
  apply IH.
Qed.

Lemma compare_not_Gt_trans (a b c : string) :
  String.compare a b ≠ Gt → String.compare b c ≠ Gt → String.compare a c ≠ Gt.
Proof.
  intros Hab Hbc.
  destruct (String.compare a b) eqn:Eab; [|clear Hab|done].
  { apply String.compare_eq_iff in Eab as ->. done. }
  destruct (String.compare b c) eqn:Ebc; [|clear Hbc|done].
  { apply String.compare_eq_iff in Ebc as <-. by rewrite Eab. }
  by rewrite (compare_lt_trans a b c).
Qed.

Lemma compare_Gt_flip (a b : string) :
  String.compare a b = Gt → String.compare b a = Lt.
Proof. intros Hab. by rewrite String.compare_antisym, Hab. Qed.

Lemma sort_insert_perm_any {A} (compare : A → A → Z) x l :
  sort_insert compare x l ≡ₚ x :: l.
Proof.
  induction l as [|y l IH]; cbn; [done|].
  destruct (0 <? compare x y); [|done].
  rewrite IH. apply Permutation_swap.
Qed.

Lemma sort_perm_any {A} (compare : A → A → Z) l : sort compare l ≡ₚ l.
Proof.
  unfold sort. induction l as [|x l IH]; cbn; [done|].
  by rewrite sort_insert_perm_any, IH.
Qed.

Lemma sort_names_sorted (l : list string) :
  StronglySorted (λ a b, String.compare a b ≠ Gt) (sort defaultCompare l).
Proof.
  unfold sort. induction l as [|x l IH]; cbn; [constructor|].
  induction IH as [|y k Hk IHk Hy]; cbn; [by repeat constructor|].
  unfold defaultCompare at 1.
  destruct (String.compare x y) eqn:Exy; cbn.
  - constructor; [by constructor|]. constructor; [by rewrite Exy|].
    eapply Forall_impl; [exact Hy|]. cbn. intros z Hz.
    eapply compare_not_Gt_trans; [|exact Hz]. by rewrite Exy.
  - constructor; [by constructor|]. constructor; [by rewrite Exy|].
    eapply Forall_impl; [exact Hy|]. cbn. intros z Hz.
    eapply compare_not_Gt_trans; [|exact Hz]. by rewrite Exy.
  - constructor; [done|]. rewrite sort_insert_perm_any.
    constructor; [|done]. by rewrite (compare_Gt_flip x y).
Qed.

Lemma names_strictly_ascending (l : list string) :
  NoDup l →
  StronglySorted (λ a b, String.compare a b ≠ Gt) l →
  names_ascending l.
Proof.
  intros Hdup Hsorted. unfold names_ascending.
  induction Hsorted as [|x l _ IH Hx]; [constructor|].
  apply NoDup_cons in Hdup as [Hnot Hdup].
  constructor; [by apply IH|].
  rewrite Forall_forall in Hx |- *. intros y Hy.
  specialize (Hx y Hy).
  destruct (String.compare x y) eqn:Exy; [|done..].
  apply String.compare_eq_iff in Exy as ->. done.
Qed.

Lemma Set_add_fold (set ps : list string) :
  NoDup set →
  NoDup (foldl Set_add set ps)
  ∧ ∀ n, n ∈ foldl Set_add set ps ↔ n ∈ set ∨ n ∈ ps.
Proof.
  revert set. induction ps as [|p ps IH]; intros set Hset; cbn.
  - split; [done|]. intros n. rewrite elem_of_nil. tauto.
  - assert (NoDup (Set_add set p)
            ∧ ∀ n, n ∈ Set_add set p ↔ n ∈ set ∨ n = p) as [Hdup Helem].
    { unfold Set_add, includes. case_bool_decide as Hp.
      - split; [done|]. intros n. split; [tauto|]. by intros [?| ->].
      - split.
        + apply NoDup_app. split_and!; [done| |apply NoDup_singleton].
          by intros x Hx ->%list_elem_of_singleton.
        + intros n. by rewrite elem_of_app, list_elem_of_singleton. }
    destruct (IH _ Hdup) as [Hdup' Helem']. split; [done|].
    intros n. rewrite Helem', Helem, elem_of_cons. tauto.
Qed.

Lemma collect_row (ps : list string) (k : nat) (set : list string) :
  forEach_from (λ player (_ : nat), modify (λ set, Set_add set player)) ps k set
  = (Ok tt, foldl Set_add set ps).
Proof.
  revert k set. induction ps as [|p ps IH]; intros k set; [done|].
  cbn [forEach_from]. unfold bind, modify at 1. by rewrite IH.
Qed.

Lemma collect_players (ps : list string) (set : list string) :
  forEach (λ player (_ : nat), modify (λ set, Set_add set player)) ps set
  = (Ok tt, foldl Set_add set ps).
Proof. apply collect_row. Qed.

Lemma collect_history (history : History) (k : nat) (set : list string) :
  NoDup set →
  (∀ record, record ∈ history → is_Some (players record)) →
  ∃ names,
    forEach_from
      (λ game (_ : nat),
         match players game with
         | None => throw TypeError
         | Some ps =>
             forEach (λ player (_ : nat), modify (λ set, Set_add set player)) ps
         end) history k set
    = (Ok tt, names)
    ∧ NoDup names
    ∧ ∀ n, n ∈ names ↔ n ∈ set ∨ ∃ record, record ∈ history ∧ played n record.
Proof.
  revert k set. induction history as [|r history IH]; intros k set Hset Hps.
  - exists set. split_and!; [done..|]. intros n. split; [tauto|].
    intros [?|(? & []%elem_of_nil & _)]. done.
  - destruct (Hps r) as [ps Hr]; [by left|].
    cbn [forEach_from]. unfold bind at 1. rewrite Hr, collect_players.
    destruct (Set_add_fold set ps Hset) as [Hdup Helem].
    destruct (IH (S k) _ Hdup) as (names & -> & Hnames & Hin).
    { intros record ?. apply Hps. by right. }
    exists names. split_and!; [done..|].
    intros n. rewrite Hin, Helem. split.
    + intros [[?|Hn]|(record & ? & ?)]; [by left| |].
      * right. exists r. split; [by left|].
        apply StatisticsFacts.played_spec. by exists ps.
      * right. exists record. split; [by right|done].
    + intros [?|(record & [->|?]%elem_of_cons & Hplayed)]; [by left; left| |].
      * apply StatisticsFacts.played_spec in Hplayed as (ps' & Hps' & ?).
        left. right. congruence.
      * right. by exists record.
Qed.

Lemma getAllPlayers_names (history : History) :
  (∀ record, record ∈ history → is_Some (players record)) →
  ∃ names,
    getAllPlayers history = Ok names
    ∧ names_ascending names
    ∧ ∀ n, n ∈ names ↔ ∃ record, record ∈ history ∧ played n record.
Proof.
  intros Hps. unfold getAllPlayers. unfold forEach at 1.
  destruct (collect_history history 0 [] (NoDup_nil_2) Hps)
    as (set & -> & Hdup & Hin).
  eexists. split; [reflexivity|]. split.
  - apply names_strictly_ascending; [|apply sort_names_sorted].
    by rewrite sort_perm_any.
  - intros n. rewrite sort_perm_any, Hin, elem_of_nil. tauto.
Qed.

(** X16: on a history whose records all have a player list,
    [getAllPlayers] returns the names that occur in some player list, each
    once, strictly ascending in the order of their code units; on a history
    with a record without player list it throws [TypeError]. *)
Theorem all_players_ascending (history : History) :
  ((∀ record, record ∈ history → is_Some (players record)) →
   ∃ names,
     getAllPlayers history = Ok names
     ∧ names_ascending names
     ∧ NoDup names
     ∧ ∀ n, n ∈ names ↔ ∃ record, record ∈ history ∧ played n record)
  ∧ ((∃ record, record ∈ history ∧ players record = None) →
     getAllPlayers history = Throw TypeError).
Proof.
  split.
  - intros Hps. destruct (getAllPlayers_names history Hps)
      as (names & Hget & Hsorted & Hin).
    exists names. split_and!; [done..| |done].
    clear Hget Hin. induction Hsorted as [|x l _ IH Hx]; constructor; [|done].
    intros Hx'. rewrite Forall_forall in Hx. specialize (Hx x Hx').
    cbn in Hx. pose proof (String.compare_antisym x x) as Hanti.
    rewrite Hx in Hanti. done.
  - intros (record & Hin & Hnone). unfold getAllPlayers. unfold forEach at 1.
    generalize 0%nat. generalize (@nil string).
    induction history as [|r history IH]; intros set k;
      [by apply elem_of_nil in Hin|].
    cbn [forEach_from]. unfold bind at 1.
    destruct (players r) as [ps|] eqn:Hr; [|done].
    rewrite collect_players.
    apply elem_of_cons in Hin as [->|Hin]; [congruence|].
    apply (IH Hin).
Qed.

Lemma all_players_ascending_witness :
  ∃ names,
    getAllPlayers four_games = Ok names
    ∧ names_ascending names
    ∧ NoDup names
    ∧ ∀ n, n ∈ names ↔ ∃ record, record ∈ four_games ∧ played n record.
Proof.
  apply (proj1 (all_players_ascending four_games)).
  apply Forall_forall.
  let games := eval vm_compute in four_games in change four_games with games.
  repeat (constructor; [by eexists|]). constructor.
Defined.

(** *** The overall statistics *)

Lemma exact_tenths_range (wins total : nat) :
  (wins ≤ total)%nat → (1 ≤ total)%nat → 0 ≤ exact_tenths wins total ≤ 1000.
Proof.
  intros Hwins Htotal. unfold exact_tenths. split.
  - apply Z.div_pos; lia.
  - apply Z.lt_succ_r, Z.div_lt_upper_bound; lia.
Qed.

(** On the tenths from 0 to 1000 the comparison of the numbers is the
    comparison of the tenths. *)
Lemma tenths_order (a b : Z) :
  0 ≤ a ≤ 1000 → 0 ≤ b ≤ 1000 →
  PrimFloat.ltb (PrimFloat.div (number_of_Z a) 10)
                (PrimFloat.div (number_of_Z b) 10)
  = (a <? b).
Proof.
  intros Ha Hb.
  pose (rate := λ n : nat,
          (Z.of_nat n, PrimFloat.div (number_of_Z (Z.of_nat n)) 10)).
  assert (let rates := List.map rate (seq 0 1001) in
          forallb (λ x, forallb (λ y, Bool.eqb (PrimFloat.ltb x.2 y.2)
                                               (x.1 <? y.1)) rates) rates
          = true) as Htable by (vm_compute; reflexivity).
  assert (∀ c, 0 ≤ c ≤ 1000 →
            In (rate (Z.to_nat c)) (List.map rate (seq 0 1001))) as Hin
    by (intros c Hc; apply in_map, in_seq; lia).
  cbv zeta in Htable. rewrite forallb_forall in Htable.
  specialize (Htable _ (Hin a Ha)). rewrite forallb_forall in Htable.
  specialize (Htable _ (Hin b Hb)). apply Bool.eqb_prop in Htable.
  unfold rate in Htable. cbn [fst snd] in Htable.
  by rewrite !Z2Nat.id in Htable by lia.
Qed.

(** A left fold that replaces the held element by a strictly better one
    ends at the first of the best elements. *)
Lemma first_best {A} (better : A → A → bool) (key : A → Z) (R : A → A → Prop)
    (l : list A) (b : A) (seen : list A) :
  (∀ x y, x ∈ seen ++ l → y ∈ seen ++ l → better x y = (key x <? key y)) →
  b ∈ seen →
  (∀ y, y ∈ seen → key y ≤ key b ∧ (key y = key b → y = b ∨ R b y)) →
  (∀ s y, s ∈ seen → y ∈ l → R s y) →
  StronglySorted R l →
  let m := foldl (λ best current,
                    if better best current then current else best) b l in
  m ∈ seen ++ l
  ∧ ∀ y, y ∈ seen ++ l → key y ≤ key m ∧ (key y = key m → y = m ∨ R m y).
Proof.
  revert b seen. induction l as [|c l IH];
    intros b seen Hbetter Hb Hseen Hlater Hsorted; cbn.
  { rewrite app_nil_r. done. }
  apply StronglySorted_inv in Hsorted as [Hsorted Hc].
  rewrite Forall_forall in Hc.
  rewrite (cons_middle c seen l), (assoc_L (++)).
  rewrite (cons_middle c seen l), (assoc_L (++)) in Hbetter.
  apply IH; [done| | | |done].
  - rewrite elem_of_app, list_elem_of_singleton.
    destruct (better b c); [by right|by left].
  - intros y [Hy| ->%list_elem_of_singleton]%elem_of_app.
    + destruct (Hseen y Hy) as [Hle Htie].
      rewrite (Hbetter b c).
      2: { rewrite !elem_of_app. by left; left. }
      2: { rewrite !elem_of_app, list_elem_of_singleton. by left; right. }
      destruct (Z.ltb_spec (key b) (key c)); [|done].
      split; [lia|]. intros ?. lia.
    + rewrite (Hbetter b c).
      2: { rewrite !elem_of_app. by left; left. }
      2: { rewrite !elem_of_app, list_elem_of_singleton. by left; right. }
      destruct (Z.ltb_spec (key b) (key c)).
      * split; [lia|]. by left.
      * split; [lia|]. intros _. right. apply Hlater; [done|by left].
  - intros s y [Hs| ->%list_elem_of_singleton]%elem_of_app Hy.
    + apply Hlater; [done|by right].
    + by apply Hc.
Qed.

Lemma reduce_best (st : string → PlayerStats) (x : string) (l : list string) :
  reduce1R (λ best current,
              match current, best with
              | Some c, Some b =>
                  Ok (if PrimFloat.ltb (winRate b) (winRate c)
                      then current else best)
              | _, _ => Throw TypeError
              end) ((λ n, Some (st n)) <$> x :: l)
  = Ok (Some (st (foldl (λ best current,
                           if PrimFloat.ltb (winRate (st best))
                                            (winRate (st current))
                           then current else best) x l))).
Proof.
  rewrite fmap_cons. cbn [reduce1R]. revert x.
  induction l as [|c l IH]; intros x; [done|].
  rewrite fmap_cons. cbn [foldl bindR].
  destruct (PrimFloat.ltb (winRate (st x)) (winRate (st c))); apply IH.
Qed.

Lemma played_games (name : string) (history : History) :
  (∃ record, record ∈ history ∧ played name record) →
  (length history ≤ 50)%nat →
  let games := filter (played name) history in
  (length (filter (won name) games) ≤ length games)%nat
  ∧ (1 ≤ length games ≤ 50)%nat.
Proof.
  intros (record & Hin & Hplayed) Hcap games.
  split; [apply length_filter|].
  assert (record ∈ games) as Hin' by (by apply list_elem_of_filter).
  split.
  - destruct games; [by apply elem_of_nil in Hin'|]. cbn. lia.
  - etrans; [apply length_filter|done].
Qed.

Lemma getOverallStats_best (history : History) (x : string) (l : list string) :
  Forall well_formed history →
  getAllPlayers history = Ok (x :: l) →
  (∀ n, n ∈ x :: l → ∃ record, record ∈ history ∧ played n record) →
  ∃ o best,
    getOverallStats history = Ok (Some o)
    ∧ Overall.totalGames o = length history
    ∧ Overall.uniquePlayers o = length (x :: l)
    ∧ Overall.bestPlayer o = best
    ∧ Overall.bestWinRate o
      = parseFloat
          (printed_rate
             (length (filter (won best) (filter (played best) history)))
             (length (filter (played best) history)))
    ∧ best
      = foldl (λ best current,
                 if PrimFloat.ltb
                      (parseFloat
                         (printed_rate
                            (length (filter (won best)
                                       (filter (played best) history)))
                            (length (filter (played best) history))))
                      (parseFloat
                         (printed_rate
                            (length (filter (won current)
                                       (filter (played current) history)))
                            (length (filter (played current) history))))
                 then current else best) x l.
Proof.
  intros Hwf Hget Hnames. unfold getOverallStats. rewrite Hget.
  destruct (Hnames x) as (record & Hin & _); [by left|].
  destruct history as [|r history']; [by apply elem_of_nil in Hin|].
  set (history := r :: history') in *.
  cbn [length Nat.eqb bindR].
  pose (st := λ name,
     let games := filter (played name) history in
     let totals := score_of name <$> games in
     {| playerName := name;
        totalGames := length games;
        wins := length (filter (won name) games);
        losses := Z.of_nat (length games)
                  - Z.of_nat (length (filter (won name) games));
        winRate :=
          parseFloat
            (printed_rate (length (filter (won name) games)) (length games));
        avgScore :=
          parseFloat
            (toFixed1
               (PrimFloat.div (foldl PrimFloat.add 0%float totals)
                              (number_of_nat (length totals))));
        bestScore := Math_min totals;
        worstScore := Math_max totals |}).
  rewrite (mapR_all _ (λ n, Some (st n))).
  2: { intros n Hn. apply getPlayerStats_full; [done|by apply Hnames]. }
  cbn [bindR]. rewrite (reduce_best st). cbn [bindR].
  match goal with
  | |- context [mapR ?f history] =>
      destruct (StatisticsFacts.mapR_total f history) as (avgs & -> & _)
  end.
  { intros game Hgame. rewrite Forall_forall in Hwf.
    destruct (Hwf game Hgame) as (ps & sc & w & -> & -> & _). by eexists. }
  cbn [bindR]. eexists _, _. split; [reflexivity|].
  cbn [Overall.totalGames Overall.uniquePlayers Overall.bestPlayer
       Overall.bestWinRate].
  split_and!; try reflexivity.
Qed.

(** X17: [getOverallStats] returns [null] on the empty history.  On a
    history that is not empty and whose records all have an empty player
    list it throws [TypeError], as the reduction that looks for the best
    player has no element to start from.  On a history of at most 50 well
    formed records with at least one player name it returns statistics that
    count the records and the distinct names, and whose best player is a
    name of the history with the highest win rate, in tenths of a percent;
    among the names with that rate it is the first in the order of the code
    units. *)
Theorem overall_stats (history : History) :
  (history = [] → getOverallStats history = Ok None)
  ∧ (history ≠ [] →
     (∀ record, record ∈ history → players record = Some []) →
     getOverallStats history = Throw TypeError)
  ∧ (Forall well_formed history →
     (length history ≤ 50)%nat →
     (∃ record n, record ∈ history ∧ played n record) →
     ∃ names o,
       getAllPlayers history = Ok names
       ∧ getOverallStats history = Ok (Some o)
       ∧ Overall.totalGames o = length history
       ∧ Overall.uniquePlayers o = length names
       ∧ Overall.bestPlayer o ∈ names
       ∧ Overall.bestWinRate o
         = PrimFloat.div
             (number_of_Z (rate_tenths (Overall.bestPlayer o) history)) 10
       ∧ ∀ n, n ∈ names →
           rate_tenths n history ≤ rate_tenths (Overall.bestPlayer o) history
           ∧ (rate_tenths n history
              = rate_tenths (Overall.bestPlayer o) history →
              String.compare (Overall.bestPlayer o) n ≠ Gt)).
Proof.
  split_and!.
  - by intros ->.
  - intros Hnot Hempty.
    destruct (getAllPlayers_names history) as (names & Hget & _ & Hin).
    { intros record Hrecord. rewrite (Hempty record Hrecord). by eexists. }
    assert (names = []) as ->.
    { destruct names as [|n names]; [done|].
      destruct (proj1 (Hin n)) as (record & Hrecord & Hplayed); [by left|].
      apply StatisticsFacts.played_spec in Hplayed as (ps & Hps & Hn).
      rewrite (Hempty record Hrecord) in Hps. injection Hps as <-.
      by apply elem_of_nil in Hn. }
    unfold getOverallStats. rewrite Hget.
    destruct history; [done|]. done.
  - intros Hwf Hcap (record & n & Hrecord & Hplayed).
    destruct (getAllPlayers_names history) as (names & Hget & Hasc & Hin).
    { intros r Hr. rewrite Forall_forall in Hwf.
      destruct (Hwf r Hr) as (ps & _ & _ & -> & _). by eexists. }
    destruct names as [|x l].
    { assert (n ∈ @nil string) as []%elem_of_nil. apply Hin. by eexists. }
    destruct (getOverallStats_best history x l Hwf Hget)
      as (o & best & Hstats & Htotal & Hunique & Hbest & Hrate & Hfold).
    { intros m Hm. by apply Hin. }
    assert (∀ m, m ∈ x :: l →
              parseFloat
                (printed_rate
                   (length (filter (won m) (filter (played m) history)))
                   (length (filter (played m) history)))
              = PrimFloat.div (number_of_Z (rate_tenths m history)) 10
              ∧ 0 ≤ rate_tenths m history ≤ 1000) as Hexact.
    { intros m Hm.
      destruct (played_games m history) as [Hwins Hgames];
        [by apply Hin|done|].
      rewrite StatisticsFacts.prints_exact_tenths_upto_50 by done.
      unfold rate_tenths. split; [reflexivity|].
      apply exact_tenths_range; [done|apply Hgames]. }
    apply StronglySorted_inv in Hasc as [Hl Hx]. rewrite Forall_forall in Hx.
    pose proof (first_best
      (λ best current,
         PrimFloat.ltb
           (parseFloat
              (printed_rate
                 (length (filter (won best) (filter (played best) history)))
                 (length (filter (played best) history))))
           (parseFloat
              (printed_rate
                 (length (filter (won current)
                            (filter (played current) history)))
                 (length (filter (played current) history)))))
      (λ m, rate_tenths m history)
      (λ a b, String.compare a b = Lt) l x [x]) as Hfirst.
    cbv beta zeta in Hfirst. rewrite <- Hfold in Hfirst.
    destruct Hfirst as [Hmember Hmax].
    + intros a b Ha Hb. cbn beta.
      destruct (Hexact a Ha) as [-> ?], (Hexact b Hb) as [-> ?].
      by apply tenths_order.
    + by left.
    + intros y ->%list_elem_of_singleton. split; [lia|]. by left.
    + intros s y ->%list_elem_of_singleton Hy. by apply Hx.
    + done.
    + exists (x :: l), o. rewrite Hbest.
      split_and!; [done..| |].
      * rewrite Hrate. by apply Hexact.
      * intros m Hm. destruct (Hmax m Hm) as [Hle Htie].
        split; [done|]. intros Heq.
        destruct (Htie Heq) as [->| ->]; [|done].
        pose proof (String.compare_antisym best best) as Hanti.
        by destruct (String.compare best best).
Qed.

Lemma overall_stats_witness :
  ∃ names o,
    getAllPlayers four_games = Ok names
    ∧ getOverallStats four_games = Ok (Some o)
    ∧ Overall.totalGames o = length four_games
    ∧ Overall.uniquePlayers o = length names
    ∧ Overall.bestPlayer o ∈ names
    ∧ Overall.bestWinRate o
      = PrimFloat.div
          (number_of_Z (rate_tenths (Overall.bestPlayer o) four_games)) 10
    ∧ ∀ n, n ∈ names →
        rate_tenths n four_games
        ≤ rate_tenths (Overall.bestPlayer o) four_games
        ∧ (rate_tenths n four_games
           = rate_tenths (Overall.bestPlayer o) four_games →
           String.compare (Overall.bestPlayer o) n ≠ Gt).
Proof.
  apply (proj2 (proj2 (overall_stats four_games))).
  - let games := eval vm_compute in four_games in change four_games with games.
    do 4 (constructor;
          [eexists _, _, _; split_and!; [reflexivity..|simpl; lia]|]).
    constructor.
  - vm_compute. lia.
  - let games := eval vm_compute in four_games in change four_games with games.
    eexists _, "Alice"%string. split; [by left|]. vm_compute. exact I.
Defined.

End StatisticsLaws.
